(** * Social-media content generator: orchestration, error policy, card editing

    A shallow embedding of the TypeScript sources

      - [types.ts], [constants.ts]
      - the application component ([App]: [handleApiError], [handleGenerate],
        [generateAllImages], [handleRegenerateImage])
      - the card component ([PostCard]: [addHashtag], [removeHashtag])
      - the service module ([generateImageForPlatform])

    followed by the properties of the specification that concern them.

    Conventions.  A JavaScript string is held as the UTF-8 encoding of its
    text (a [string] of bytes), so [includes], [startsWith] and [===] on
    well-formed text are the byte-level operations below.  TypeScript types
    are erased at run time: a value of type [Platform] is modelled by what it
    is when the program runs, a string or [undefined]. *)

From Stdlib Require Import String Ascii List Bool Arith Lia.
From stdpp Require Import base option list strings gmap.

Set Warnings "-register-all".

Open Scope string_scope.
Open Scope list_scope.

(** ** JavaScript strings *)

Module Js.

(** The bytes of a code point given by its UTF-8 encoding. *)
Definition utf8 (bytes : list nat) : string :=
  string_of_list_ascii (map ascii_of_nat bytes).

(** ECMAScript [WhiteSpace]: TAB, VT, FF, SP, NBSP, ZWNBSP and the
    space separators (category Zs). *)
Definition WhiteSpace : list string :=
  [ utf8 [9]; utf8 [11]; utf8 [12]; utf8 [32];
    utf8 [194; 160];                (* U+00A0 *)
    utf8 [239; 187; 191];           (* U+FEFF *)
    utf8 [225; 154; 128];           (* U+1680 *)
    utf8 [226; 128; 128]; utf8 [226; 128; 129]; utf8 [226; 128; 130];
    utf8 [226; 128; 131]; utf8 [226; 128; 132]; utf8 [226; 128; 133];
    utf8 [226; 128; 134]; utf8 [226; 128; 135]; utf8 [226; 128; 136];
    utf8 [226; 128; 137]; utf8 [226; 128; 138];   (* U+2000 .. U+200A *)
    utf8 [226; 128; 175];           (* U+202F *)
    utf8 [226; 129; 159];           (* U+205F *)
    utf8 [227; 128; 128] ].         (* U+3000 *)

(** ECMAScript [LineTerminator]: LF, CR, LS, PS. *)
Definition LineTerminator : list string :=
  [ utf8 [10]; utf8 [13];
    utf8 [226; 128; 168];           (* U+2028 *)
    utf8 [226; 128; 169] ].         (* U+2029 *)

(** What [String.prototype.trim] strips. *)
Definition trimmable : list string := WhiteSpace ++ LineTerminator.

(** [s.startsWith(p)] *)
Fixpoint startsWith (p s : string) : bool :=
  match p with
  | EmptyString => true
  | String a p' =>
      match s with
      | EmptyString => false
      | String b s' => Ascii.eqb a b && startsWith p' s'
      end
  end.

(** [s.includes(needle)] *)
Fixpoint includes (needle s : string) : bool :=
  startsWith needle s ||
  match s with
  | EmptyString => false
  | String _ rest => includes needle rest
  end.

Fixpoint drop (n : nat) (s : string) : string :=
  match n, s with
  | O, _ => s
  | S n', String _ rest => drop n' rest
  | S _, EmptyString => EmptyString
  end.

(** Code points are removed from the front of [s] while one of [table]
    starts it; [fuel] bounds the number of removals. *)
Fixpoint strip (table : list string) (fuel : nat) (s : string) : string :=
  match fuel with
  | O => s
  | S fuel' =>
      match List.find (fun w => startsWith w s) table with
      | Some w => strip table fuel' (drop (String.length w) s)
      | None => s
      end
  end.

(** [s.trimStart()] *)
Definition trimStart (s : string) : string :=
  strip trimmable (String.length s) s.

(** [s.trimEnd()]: the same from the other end. *)
Definition trimEnd (s : string) : string :=
  String.rev (strip (map String.rev trimmable) (String.length s) (String.rev s)).

(** [s.trim()] *)
Definition trim (s : string) : string := trimEnd (trimStart s).

(** A string is blank when it is a (possibly empty) run of white space and
    line terminators. *)
Inductive Blank : string -> Prop :=
| Blank_empty : Blank ""
| Blank_more w s : In w trimmable -> Blank s -> Blank (w +:+ s).

(** JavaScript truthiness of a string: the empty string is falsy. *)
Definition truthy (s : string) : bool :=
  match s with EmptyString => false | _ => true end.

End Js.


(** ** [types.ts] and [constants.ts] *)

(** The object a string [enum] compiles to: member name to member value.
    [enum Platform { LINKEDIN = 'LINKEDIN', TWITTER = 'TWITTER',
    INSTAGRAM = 'INSTAGRAM' }] *)
Definition Platform : list (string * string) :=
  [ ("LINKEDIN", "LINKEDIN"); ("TWITTER", "TWITTER"); ("INSTAGRAM", "INSTAGRAM") ].

(** What an expression of type [Platform] is at run time: a member's string,
    or [undefined] ([None]). *)
Definition PlatformValue : Type := option string.

(** The member access [Platform.NAME]: the value stored under [NAME], and
    [undefined] when the enum object has no such member. *)
Definition Platform_member (name : string) : PlatformValue :=
  snd <$> List.find (fun kv => String.eqb (fst kv) name) Platform.

Definition Platform_LINKEDIN : PlatformValue := Platform_member "LINKEDIN".
Definition Platform_TWITTER : PlatformValue := Platform_member "TWITTER".
Definition Platform_INSTAGRAM : PlatformValue := Platform_member "INSTAGRAM".
Definition Platform_FACEBOOK : PlatformValue := Platform_member "FACEBOOK".

(** The key under which a computed property [[v]: ...] or an index [o[v]]
    reads and writes: [undefined] becomes the string ["undefined"]. *)
Definition ToPropertyKey (v : PlatformValue) : string :=
  match v with
  | Some s => s
  | None => "undefined"
  end.

Inductive Tone : Type := PROFESSIONAL | WITTY | URGENT.

(** [interface GeneratedPost]; a field that is absent (or [undefined]) is
    [None].  [platform] holds the run-time platform value. *)
Record GeneratedPost : Type := mkPost {
  text : option string;
  imagePrompt : option string;
  hashtags : option (list string);
  platform : PlatformValue;
  imageUrl : option string;
  imageLoading : option bool;
}.


(** A result set at run time: a plain object from property keys to posts. *)
Abbreviation GenerationResult := (gmap string GeneratedPost).

(** [type AspectRatio] *)
Inductive AspectRatio : Type :=
| R1_1 | R2_3 | R3_2 | R3_4 | R4_3 | R9_16 | R16_9 | R21_9.

(** The string literal each member of [AspectRatio] is. *)
Definition AspectRatio_literal (r : AspectRatio) : string :=
  match r with
  | R1_1 => "1:1" | R2_3 => "2:3" | R3_2 => "3:2" | R3_4 => "3:4"
  | R4_3 => "4:3" | R9_16 => "9:16" | R16_9 => "16:9" | R21_9 => "21:9"
  end.

(** [AspectRatio | 'AUTO'] *)
Inductive AspectRatioSetting : Type :=
| AUTO
| Fixed (r : AspectRatio).

(** [type ImageSize] *)
Inductive ImageSize : Type := Size1K | Size2K | Size4K.

(** [interface ImageConfig] *)
Record ImageConfig : Type := mkConfig {
  aspectRatio : AspectRatioSetting;
  size : ImageSize;
}.

(** [ASPECT_RATIOS] *)
Definition ASPECT_RATIOS : list AspectRatio :=
  [ R1_1; R2_3; R3_2; R3_4; R4_3; R9_16; R16_9; R21_9 ].

(** ** The service module: [generateImageForPlatform] *)

Module Service.

(** The [switch (platform)] that resolves ['AUTO']: the cases are compared
    with [===] in source order; [Platform.FACEBOOK] is whatever that member
    access evaluates to. *)
Definition autoRatio (platform : PlatformValue) : string :=
  if bool_decide (platform = Platform_LINKEDIN) then "16:9"
  else if bool_decide (platform = Platform_TWITTER) then "16:9"
  else if bool_decide (platform = Platform_INSTAGRAM) then "1:1"
  else if bool_decide (platform = Platform_FACEBOOK) then "4:3"
  else "1:1".

(** [let ratio = config.aspectRatio; if (ratio === 'AUTO') { ... }], as the
    string that [ratio as string] is afterwards. *)
Definition resolveRatio (platform : PlatformValue) (config : ImageConfig) : string :=
  match aspectRatio config with
  | AUTO => autoRatio platform
  | Fixed r => AspectRatio_literal r
  end.

(** The own properties of the object literal [safeRatioMap]. *)
Definition safeRatioMap : list (string * string) :=
  [ ("1:1", "1:1"); ("3:4", "3:4"); ("4:3", "4:3"); ("9:16", "9:16");
    ("16:9", "16:9");
    ("2:3", "3:4"); ("3:2", "4:3"); ("21:9", "16:9") ].

(** An object literal inherits from [Object.prototype]; these names resolve
    there (to functions, or to the prototype itself). *)
Definition Object_prototype : list string :=
  [ "constructor"; "hasOwnProperty"; "isPrototypeOf"; "propertyIsEnumerable";
    "toLocaleString"; "toString"; "valueOf"; "__proto__";
    "__defineGetter__"; "__defineSetter__"; "__lookupGetter__";
    "__lookupSetter__" ].

(** What reading [o[k]] gives on an object literal with string-valued own
    properties. *)
Inductive Property : Type :=
| OwnString (v : string)
| Inherited (name : string)
| Undefined.

Definition get (o : list (string * string)) (k : string) : Property :=
  match List.find (fun kv => String.eqb (fst kv) k) o with
  | Some kv => OwnString (snd kv)
  | None =>
      if existsb (String.eqb k) Object_prototype then Inherited k else Undefined
  end.

(** The value put into [imageConfig.aspectRatio]: a string, or (for a key
    that names a member of [Object.prototype]) that member. *)
Inductive ApiRatio : Type :=
| RatioString (s : string)
| RatioMember (name : string).

(** [safeRatioMap[ratio as string] || '1:1'] *)
Definition safeRatio (ratio : string) : ApiRatio :=
  match get safeRatioMap ratio with
  | OwnString v => if Js.truthy v then RatioString v else RatioString "1:1"
  | Inherited name => RatioMember name
  | Undefined => RatioString "1:1"
  end.

(** [apiRatio] as [generateImageForPlatform] computes it before the call. *)
Definition apiRatio (platform : PlatformValue) (config : ImageConfig) : ApiRatio :=
  safeRatio (resolveRatio platform config).

(** The request [generateImageForPlatform] sends: the prompt, the effective
    aspect ratio and the size. *)
Record ImageRequest : Type := mkImageRequest {
  req_prompt : option string;
  req_aspectRatio : ApiRatio;
  req_imageSize : ImageSize;
}.

Definition imageRequest (prompt : option string) (platform : PlatformValue)
    (config : ImageConfig) : ImageRequest :=
  {| req_prompt := prompt;
     req_aspectRatio := apiRatio platform config;
     req_imageSize := size config |}.

End Service.

(** ** The card component: hashtag editing *)

Module PostCard.

Section Hashtags.

(** [String.prototype.toLowerCase], taken as given. *)
Variable toLowerCase : string -> string.

(** The two pieces of component state the editing functions use. *)
Record State : Type := mkState {
  editableHashtags : list string;
  hashtagInput : string;
}.

(** The effect that loads a post's hashtags into the card. *)
Definition syncHashtags (post : GeneratedPost) (st : State) : State :=
  let tags :=
    if bool_decide (platform post = Platform_INSTAGRAM) then
      match hashtags post with
      | Some hs => map (fun t => if Js.startsWith "#" t then t else "#" +:+ t) hs
      | None => []
      end
    else [] in
  {| editableHashtags := tags; hashtagInput := hashtagInput st |}.

(** [let tag = hashtagInput.trim(); if (!tag.startsWith('#')) tag = `#${tag}`] *)
Definition tagOf (input : string) : string :=
  let tag := Js.trim input in
  if negb (Js.startsWith "#" tag) then "#" +:+ tag else tag.

(** [addHashtag] *)
Definition addHashtag (st : State) : State :=
  if negb (Js.truthy (Js.trim (hashtagInput st))) then st
  else
    let tag := tagOf (hashtagInput st) in
    let tags :=
      if negb (existsb (fun t => String.eqb (toLowerCase t) (toLowerCase tag))
                 (editableHashtags st))
      then editableHashtags st ++ [tag]
      else editableHashtags st in
    {| editableHashtags := tags; hashtagInput := "" |}.

(** [array.filter((_, index) => keep(index))], counting indices from [i]. *)
Fixpoint filterIndex {A : Type} (keep : nat -> bool) (i : nat) (l : list A) : list A :=
  match l with
  | [] => []
  | x :: rest =>
      if keep i then x :: filterIndex keep (S i) rest
      else filterIndex keep (S i) rest
  end.

(** [removeHashtag] *)
Definition removeHashtag (indexToRemove : nat) (st : State) : State :=
  {| editableHashtags :=
       filterIndex (fun index => negb (Nat.eqb index indexToRemove)) 0 (editableHashtags st);
     hashtagInput := hashtagInput st |}.

End Hashtags.

(** Lower-casing of the letters A-Z; on text made of ASCII characters this
    is what [toLowerCase] does.  On other text it is not (the built-in folds
    letters outside ASCII too): it serves the examples, whose texts are
    ASCII, and the theorems take [toLowerCase] as a parameter. *)
Definition lowerAscii (c : ascii) : ascii :=
  let n := nat_of_ascii c in
  if Nat.leb 65 n && Nat.leb n 90 then ascii_of_nat (n + 32) else c.

Fixpoint toLowerCaseAscii (s : string) : string :=
  match s with
  | EmptyString => EmptyString
  | String c rest => String (lowerAscii c) (toLowerCaseAscii rest)
  end.

End PostCard.


(** ** Thrown values and [JSON.stringify] *)

Module Json.

(** Plain data as [JSON.stringify] sees it.  A finite number is held by the
    text [Number::toString] gives for it; an object by its own enumerable
    string-keyed properties in enumeration order.  Symbols, objects with a
    [toJSON] method and cyclic structures are not among these values. *)
Inductive Value : Type :=
| Undefined
| Null
| Bool (b : bool)
| Number (repr : string)
| NaN
| Infinity (negative : bool)
| BigInt (n : Z)
| Str (s : string)
| Function
| Array (items : list Value)
| Object (props : list (string * Value)).

(** [ToBoolean] *)
Definition truthy (v : Value) : bool :=
  match v with
  | Undefined | Null | NaN => false
  | Bool b => b
  | Number repr => negb (String.eqb repr "0")
  | Infinity _ => true
  | BigInt n => negb (Z.eqb n 0)
  | Str s => Js.truthy s
  | Function | Array _ | Object _ => true
  end.

Definition doubleQuote : string := String (ascii_of_nat 34) "".

Definition hexDigit (n : nat) : string := String.substring n 1 "0123456789abcdef".

(** [QuoteJSONString], one character at a time. *)
Definition quoteChar (c : ascii) : string :=
  let n := nat_of_ascii c in
  if Nat.eqb n 8 then "\b"
  else if Nat.eqb n 9 then "\t"
  else if Nat.eqb n 10 then "\n"
  else if Nat.eqb n 12 then "\f"
  else if Nat.eqb n 13 then "\r"
  else if Nat.eqb n 34 then "\" +:+ doubleQuote
  else if Nat.eqb n 92 then "\\"
  else if Nat.ltb n 32 then "\u00" +:+ hexDigit (n / 16) +:+ hexDigit (n mod 16)
  else String c "".

Fixpoint quoteBody (s : string) : string :=
  match s with
  | EmptyString => ""
  | String c rest => quoteChar c +:+ quoteBody rest
  end.

Definition QuoteJSONString (s : string) : string :=
  doubleQuote +:+ quoteBody s +:+ doubleQuote.

(** How a serialization ends: with text, with [undefined], or by throwing a
    [TypeError]. *)
Inductive Completion : Type :=
| Text (s : string)
| NoValue
| Throws.

(** [SerializeJSONProperty] without replacer or indentation. *)
Fixpoint serialize (v : Value) : Completion :=
  match v with
  | Undefined | Function => NoValue
  | Null => Text "null"
  | Bool true => Text "true"
  | Bool false => Text "false"
  | Number repr => Text repr
  | NaN | Infinity _ => Text "null"
  | BigInt _ => Throws
  | Str s => Text (QuoteJSONString s)
  | Array items =>
      let elements :=
        (fix elements (l : list Value) : option (list string) :=
           match l with
           | [] => Some []
           | x :: rest =>
               match serialize x, elements rest with
               | Throws, _ | _, None => None
               | Text t, Some ts => Some (t :: ts)
               | NoValue, Some ts => Some ("null" :: ts)
               end
           end) items in
      match elements with
      | Some ts => Text ("[" +:+ String.concat "," ts +:+ "]")
      | None => Throws
      end
  | Object props =>
      let members :=
        (fix members (l : list (string * Value)) : option (list string) :=
           match l with
           | [] => Some []
           | (k, x) :: rest =>
               match serialize x, members rest with
               | Throws, _ | _, None => None
               | Text t, Some ts => Some ((QuoteJSONString k +:+ ":" +:+ t) :: ts)
               | NoValue, Some ts => Some ts
               end
           end) props in
      match members with
      | Some ts => Text ("{" +:+ String.concat "," ts +:+ "}")
      | None => Throws
      end
  end.

(** [JSON.stringify(v)] *)
Definition stringify (v : Value) : Completion := serialize v.

End Json.

(** What a [catch (error)] can receive: an [Error] instance, with its
    message and the value of its [response] property ([Undefined] when it
    has none), or any other value. *)
Inductive Thrown : Type :=
| ThrownError (message : string) (response : Json.Value)
| ThrownValue (v : Json.Value).


(** ** The application component *)

Module App.

(** *** Error classification: [handleApiError], first half *)

(** The value of [errorMessage] after the extraction; [None] is
    [undefined], which [JSON.stringify] returns for [undefined] and for
    functions. *)
Definition errorMessage (error : Thrown) : option string :=
  match error with
  | ThrownValue (Json.Str s) => Some s
  | ThrownError message response =>
      if Json.truthy response then
        match Json.stringify response with
        | Json.Text t => Some (message +:+ " " +:+ t)
        | Json.NoValue => Some (message +:+ " " +:+ "undefined")
        | Json.Throws => Some message
        end
      else Some message
  | ThrownValue v =>
      match Json.stringify v with
      | Json.Text t => Some t
      | Json.NoValue => None
      | Json.Throws => Some "Unknown error"
      end
  end.

(** The four [includes] tests. *)
Definition permissionMarkers (errorMessage : string) : bool :=
  Js.includes "403" errorMessage ||
  Js.includes "PERMISSION_DENIED" errorMessage ||
  Js.includes "The caller does not have permission" errorMessage ||
  Js.includes "Requested entity was not found" errorMessage.

(** [isPermissionError]; [None] when [errorMessage] is [undefined], where
    [errorMessage.includes] throws a [TypeError] out of the handler. *)
Definition isPermissionError (error : Thrown) : option bool :=
  permissionMarkers <$> errorMessage error.

(** *** State *)

(** One draft of the text service's answer. *)
Record Draft : Type := mkDraft {
  draft_text : string;
  draft_imagePrompt : string;
  draft_hashtags : option (list string);
}.

(** The answer of [generatePostContent]. *)
Record Content : Type := mkContent {
  linkedin : Draft;
  twitter : Draft;
  instagram : Draft;
  facebook : Draft;
}.

(** The component's state ([useState]) and its ref ([useRef]). *)
Record State : Type := mkState {
  hasKey : bool;
  idea : string;
  tone : Tone;
  imageSize : ImageSize;
  aspectRatio : AspectRatioSetting;
  isGeneratingText : bool;
  results : option GenerationResult;
  permissionErrorRef : bool;
}.

(** Where an [async] function is suspended.  A handler is a closure of the
    render in which it was created: the [aspectRatio] and [imageSize] that
    [handleGenerate] and the [generateAllImages] it calls see are those of
    the click, and [AwaitText] carries them across the [await]. *)
Inductive Resume : Type :=
| ResumeGenerate                                   (* [handleGenerate], in its [catch] *)
| ResumeTask (batch : nat) (platform : PlatformValue)  (* a [generateAllImages] task, in its [catch] *)
| ResumeRegenerate (platform : PlatformValue)      (* [handleRegenerateImage], in its [catch] *)
| ResumeSelectKey.                                 (* [handleSelectKey] *)

Inductive Await : Type :=
| AwaitText (config : ImageConfig)                   (* [await generatePostContent(...)] *)
| AwaitImage (batch : nat) (platform : PlatformValue)   (* a task's [await generateImageForPlatform(...)] *)
| AwaitRegenerate (platform : PlatformValue)        (* the same [await] in [handleRegenerateImage] *)
| AwaitKey (resume : Resume).                       (* [await window.aistudio.openSelectKey()] *)

Inductive AlertText : Type :=
| PermissionAlert      (* the 403 / billing alert of [handleApiError] *)
| TextFailedAlert.     (* the text-generation alert of [handleGenerate] *)

Inductive Settlement : Type := Fulfilled | Rejected.

(** What the handlers do besides changing the state, in the order they do
    it. *)
Inductive Effect : Type :=
| SetResults (value : option GenerationResult)
| Alert (text : AlertText)
| CallText (id : nat) (idea : string) (tone : Tone)
| CallImage (id : nat) (platform : PlatformValue) (request : Service.ImageRequest)
| OpenSelectKey (id : nat).

(** The component together with its surroundings: whether
    [window.aistudio] exists, the awaits in flight (by request number), the
    task promises of each [generateAllImages] call that have settled so far
    (in the order they settled), whether an exception escaped into React,
    and the effects so far.  [cycle] counts the text generations started; it
    numbers the [generateAllImages] calls and is read by no handler. *)
Record World : Type := mkWorld {
  state : State;
  aistudio : bool;
  pending : gmap nat Await;
  nextId : nat;
  cycle : nat;
  promises : gmap nat (list Settlement);
  crashed : bool;
  log : list Effect;
}.

Definition withState (f : State -> State) (w : World) : World :=
  mkWorld (f (state w)) (aistudio w) (pending w) (nextId w) (cycle w) (promises w)
    (crashed w) (log w).

Definition emit (e : Effect) (w : World) : World :=
  mkWorld (state w) (aistudio w) (pending w) (nextId w) (cycle w) (promises w)
    (crashed w) (log w ++ [e]).

(** An [await] on a new request, which gets the next request number. *)
Definition suspend (a : Await) (w : World) : World :=
  mkWorld (state w) (aistudio w) (<[nextId w := a]> (pending w)) (S (nextId w))
    (cycle w) (promises w) (crashed w) (log w).

Definition nextCycle (w : World) : World :=
  mkWorld (state w) (aistudio w) (pending w) (nextId w) (S (cycle w)) (promises w)
    (crashed w) (log w).

Definition crash (w : World) : World :=
  mkWorld (state w) (aistudio w) (pending w) (nextId w) (cycle w) (promises w)
    true (log w).

(** [const promises = platforms.map(...)]: the array of a new batch. *)
Definition newPromises (batch : nat) (w : World) : World :=
  mkWorld (state w) (aistudio w) (pending w) (nextId w) (cycle w)
    (<[batch := []]> (promises w)) (crashed w) (log w).

(** The promise of one task of [batch] settles. *)
Definition taskSettled (batch : nat) (how : Settlement) (w : World) : World :=
  mkWorld (state w) (aistudio w) (pending w) (nextId w) (cycle w)
    (<[batch := default [] (promises w !! batch) ++ [how]]> (promises w))
    (crashed w) (log w).

Definition setHasKey (b : bool) : World -> World :=
  withState (fun s => mkState b (idea s) (tone s) (imageSize s) (aspectRatio s)
                        (isGeneratingText s) (results s) (permissionErrorRef s)).

Definition setIdea (v : string) : World -> World :=
  withState (fun s => mkState (hasKey s) v (tone s) (imageSize s) (aspectRatio s)
                        (isGeneratingText s) (results s) (permissionErrorRef s)).

Definition setTone (v : Tone) : World -> World :=
  withState (fun s => mkState (hasKey s) (idea s) v (imageSize s) (aspectRatio s)
                        (isGeneratingText s) (results s) (permissionErrorRef s)).

Definition setImageSize (v : ImageSize) : World -> World :=
  withState (fun s => mkState (hasKey s) (idea s) (tone s) v (aspectRatio s)
                        (isGeneratingText s) (results s) (permissionErrorRef s)).

Definition setAspectRatio (v : AspectRatioSetting) : World -> World :=
  withState (fun s => mkState (hasKey s) (idea s) (tone s) (imageSize s) v
                        (isGeneratingText s) (results s) (permissionErrorRef s)).

Definition setIsGeneratingText (b : bool) : World -> World :=
  withState (fun s => mkState (hasKey s) (idea s) (tone s) (imageSize s) (aspectRatio s)
                        b (results s) (permissionErrorRef s)).

Definition setPermissionErrorRef (b : bool) : World -> World :=
  withState (fun s => mkState (hasKey s) (idea s) (tone s) (imageSize s) (aspectRatio s)
                        (isGeneratingText s) (results s) b).

(** [setResults(update)].  The updates are applied in the order the calls
    are made, which is the order in which React applies a component's
    queued updates; each is logged with the value it produces. *)
Definition setResults (update : option GenerationResult -> option GenerationResult)
    (w : World) : World :=
  let value := update (results (state w)) in
  emit (SetResults value)
    (withState (fun s => mkState (hasKey s) (idea s) (tone s) (imageSize s) (aspectRatio s)
                           (isGeneratingText s) value (permissionErrorRef s)) w).

(** *** Posts and updaters *)

(** [{ ...draft, platform: p }] *)
Definition newPost (d : Draft) (p : PlatformValue) : GeneratedPost :=
  mkPost (Some (draft_text d)) (Some (draft_imagePrompt d)) (draft_hashtags d) p None None.

(** [{ ...post }] where [post] may be [undefined]. *)
Definition spread (post : option GeneratedPost) : GeneratedPost :=
  match post with
  | Some post => post
  | None => mkPost None None None None None None
  end.

(** [{ ...post, imageLoading: b }] *)
Definition withImageLoading (b : bool) (post : GeneratedPost) : GeneratedPost :=
  mkPost (text post) (imagePrompt post) (hashtags post) (platform post) (imageUrl post) (Some b).

(** [{ ...post, imageUrl, imageLoading: false }] *)
Definition withImage (url : string) (post : GeneratedPost) : GeneratedPost :=
  mkPost (text post) (imagePrompt post) (hashtags post) (platform post) (Some url) (Some false).

(** [prev => prev ? { ...prev, [platform]: { ...prev[platform], imageLoading: b } } : null] *)
Definition loadingUpdate (b : bool) (platform : PlatformValue)
    (prev : option GenerationResult) : option GenerationResult :=
  match prev with
  | None => None
  | Some prev =>
      Some (<[ToPropertyKey platform :=
                withImageLoading b (spread (prev !! ToPropertyKey platform))]> prev)
  end.

(** [prev => prev ? { ...prev, [platform]: { ...prev[platform], imageUrl, imageLoading: false } } : null] *)
Definition imageUpdate (url : string) (platform : PlatformValue)
    (prev : option GenerationResult) : option GenerationResult :=
  match prev with
  | None => None
  | Some prev =>
      Some (<[ToPropertyKey platform :=
                withImage url (spread (prev !! ToPropertyKey platform))]> prev)
  end.

(** The list [platforms] of [generateAllImages]. *)
Definition platforms : list PlatformValue :=
  [ Platform_LINKEDIN; Platform_TWITTER; Platform_INSTAGRAM; Platform_FACEBOOK ].

(** [next[p].imageLoading = true]: a write into the post object stored under
    [p] ([None]: there is none, and the write throws a [TypeError]).  The
    object is shared with [prev] and with the [currentResults] of the
    batch; the tasks read only its [imagePrompt], which the write leaves
    alone. *)
Definition markLoading (next : option GenerationResult) (p : PlatformValue)
    : option GenerationResult :=
  match next with
  | None => None
  | Some next =>
      match next !! ToPropertyKey p with
      | Some post => Some (<[ToPropertyKey p := withImageLoading true post]> next)
      | None => None
      end
  end.

(** The first updater of [generateAllImages], for a [prev] that is not
    [null]: [{ const next = { ...prev }; platforms.forEach(...); return next }]. *)
Definition loadingIndicators (prev : GenerationResult) : option GenerationResult :=
  fold_left markLoading platforms (Some prev).

(** [newResults] of [handleGenerate]: an object literal with four computed
    keys, written in source order. *)
Definition newResults (content : Content) : GenerationResult :=
  <[ToPropertyKey Platform_FACEBOOK := newPost (facebook content) Platform_FACEBOOK]>
    (<[ToPropertyKey Platform_INSTAGRAM := newPost (instagram content) Platform_INSTAGRAM]>
      (<[ToPropertyKey Platform_TWITTER := newPost (twitter content) Platform_TWITTER]>
        (<[ToPropertyKey Platform_LINKEDIN := newPost (linkedin content) Platform_LINKEDIN]> ∅))).

(** *** Handlers *)

(** The [TypeError] of reading [imagePrompt] from [undefined]. *)
Definition readOfUndefined : Thrown :=
  ThrownError "Cannot read properties of undefined (reading 'imagePrompt')" Json.Undefined.

(** What follows [await handleApiError(error)] in the caller [r], when the
    handler returns. *)
Definition afterHandler (r : Resume) (w : World) : World :=
  match r with
  | ResumeGenerate =>
      let w := if negb (permissionErrorRef (state w)) then emit (Alert TextFailedAlert) w else w in
      setIsGeneratingText false w
  | ResumeTask batch platform =>
      taskSettled batch Fulfilled (setResults (loadingUpdate false platform) w)
  | ResumeRegenerate platform => setResults (loadingUpdate false platform) w
  | ResumeSelectKey => w
  end.

(** What is left of the caller [r] when the handler throws: its [finally]
    block, and the rejection of its promise. *)
Definition handlerThrew (r : Resume) (w : World) : World :=
  match r with
  | ResumeGenerate => setIsGeneratingText false w
  | ResumeTask batch platform => taskSettled batch Rejected w
  | ResumeRegenerate _ => w
  | ResumeSelectKey => w
  end.

(** [await handleApiError(error)] on behalf of the caller [r]. *)
Definition handleApiError (error : Thrown) (r : Resume) (w : World) : World :=
  match isPermissionError error with
  | None => handlerThrew r w
  | Some false => afterHandler r w
  | Some true =>
      if negb (permissionErrorRef (state w)) then
        let w := setPermissionErrorRef true w in
        let w := setHasKey false w in
        let w := emit (Alert PermissionAlert) w in
        if aistudio w then suspend (AwaitKey r) (emit (OpenSelectKey (nextId w)) w)
        else afterHandler r w
      else afterHandler r w
  end.

(** [openSelectKey()] resolved: [setHasKey(true); permissionErrorRef.current = false]. *)
Definition onKeySelected (r : Resume) (w : World) : World :=
  afterHandler r (setPermissionErrorRef false (setHasKey true w)).

(** [openSelectKey()] rejected: the [catch] only logs. *)
Definition onKeyCancelled (r : Resume) (w : World) : World :=
  afterHandler r w.

(** [handleSelectKey] *)
Definition handleSelectKey (w : World) : World :=
  if aistudio w then suspend (AwaitKey ResumeSelectKey) (emit (OpenSelectKey (nextId w)) w)
  else w.

(** [{ aspectRatio, size: imageSize }] *)
Definition currentConfig (w : World) : ImageConfig :=
  mkConfig (aspectRatio (state w)) (imageSize (state w)).

(** The call [generateImageForPlatform(prompt, platform, config)] and the
    [await] on it. *)
Definition callImage (a : Await) (prompt : option string) (platform : PlatformValue)
    (config : ImageConfig) (w : World) : World :=
  suspend a (emit (CallImage (nextId w) platform (Service.imageRequest prompt platform config)) w).

(** The [catch] block of a [generateAllImages] task. *)
Definition taskFailed (batch : nat) (platform : PlatformValue) (error : Thrown)
    (w : World) : World :=
  if negb (permissionErrorRef (state w)) then handleApiError error (ResumeTask batch platform) w
  else afterHandler (ResumeTask batch platform) w.

(** One task of [generateAllImages], up to its first [await]. *)
Definition startTask (batch : nat) (config : ImageConfig)
    (currentResults : GenerationResult) (w : World) (platform : PlatformValue) : World :=
  if permissionErrorRef (state w) then
    taskSettled batch Fulfilled (setResults (loadingUpdate false platform) w)
  else
    match currentResults !! ToPropertyKey platform with
    | Some post => callImage (AwaitImage batch platform) (imagePrompt post) platform config w
    | None => taskFailed batch platform readOfUndefined w
    end.

(** The first updater of [generateAllImages]; an exception in it escapes
    into React. *)
Definition setLoadingIndicators (w : World) : World :=
  match results (state w) with
  | None => setResults (fun _ => None) w
  | Some prev =>
      match loadingIndicators prev with
      | Some next => setResults (fun _ => Some next) w
      | None => crash w
      end
  end.

(** [generateAllImages(currentResults)], up to [await Promise.all(promises)]. *)
Definition generateAllImages (config : ImageConfig) (currentResults : GenerationResult)
    (w : World) : World :=
  let w := setLoadingIndicators w in
  let w := newPromises (cycle w) w in
  fold_left (startTask (cycle w) config currentResults) platforms w.

(** [handleGenerate], up to [await generatePostContent(idea, tone)]. *)
Definition handleGenerate (w : World) : World :=
  if negb (Js.truthy (Js.trim (idea (state w)))) then w
  else
    let w := setIsGeneratingText true w in
    let w := setResults (fun _ => None) w in
    let w := setPermissionErrorRef false w in
    let w := nextCycle w in
    suspend (AwaitText (currentConfig w)) (emit (CallText (nextId w) (idea (state w)) (tone (state w))) w).

(** [handleGenerate] from the answer of [generatePostContent] on. *)
Definition onTextResolved (config : ImageConfig) (content : Content) (w : World) : World :=
  let w := setResults (fun _ => Some (newResults content)) w in
  let w := generateAllImages config (newResults content) w in
  setIsGeneratingText false w.

(** [handleGenerate] when [generatePostContent] rejects. *)
Definition onTextRejected (error : Thrown) (w : World) : World :=
  handleApiError error ResumeGenerate w.

(** A [generateAllImages] task when its image arrives. *)
Definition onImageResolved (batch : nat) (platform : PlatformValue) (imageUrl : string)
    (w : World) : World :=
  taskSettled batch Fulfilled (setResults (imageUpdate imageUrl platform) w).

(** A [generateAllImages] task when its request fails. *)
Definition onImageRejected (batch : nat) (platform : PlatformValue) (error : Thrown)
    (w : World) : World :=
  taskFailed batch platform error w.

(** [handleRegenerateImage(platform)], up to its [await]. *)
Definition handleRegenerateImage (platform : PlatformValue) (w : World) : World :=
  match results (state w) with
  | None => w
  | Some results =>
      let w := setPermissionErrorRef false w in
      let w := setResults (loadingUpdate true platform) w in
      match results !! ToPropertyKey platform with
      | Some post =>
          callImage (AwaitRegenerate platform) (imagePrompt post) platform (currentConfig w) w
      | None => handleApiError readOfUndefined (ResumeRegenerate platform) w
      end
  end.

Definition onRegenerateResolved (platform : PlatformValue) (imageUrl : string)
    (w : World) : World :=
  setResults (imageUpdate imageUrl platform) w.

Definition onRegenerateRejected (platform : PlatformValue) (error : Thrown)
    (w : World) : World :=
  handleApiError error (ResumeRegenerate platform) w.

(** *** The event loop *)

Inductive Response : Type :=
| TextResponse (content : Content)
| ImageResponse (imageUrl : string)
| KeyResponse.

(** What can happen next: an input of the user, or the settling of a
    request in flight. *)
Inductive Event : Type :=
| TypeIdea (value : string)
| PickTone (value : Tone)
| PickImageSize (value : ImageSize)
| PickAspectRatio (value : AspectRatioSetting)
| ClickGenerate
| ClickRegenerate (platform : PlatformValue)
| ClickSelectKey
| Resolve (id : nat) (response : Response)
| Reject (id : nat) (error : Thrown).

Definition removePending (id : nat) (w : World) : World :=
  mkWorld (state w) (aistudio w) (delete id (pending w)) (nextId w) (cycle w)
    (promises w) (crashed w) (log w).

(** [!!results[platform].imageLoading] *)
Definition isImageLoading (w : World) (platform : PlatformValue) : bool :=
  match results (state w) with
  | Some results =>
      match results !! ToPropertyKey platform with
      | Some post => match imageLoading post with Some b => b | None => false end
      | None => false
      end
  | None => false
  end.

(** The settling of a request resumes the function that awaits it, which
    then runs to its next [await] on a request or to its end (the turn that
    [await handleApiError(error)] takes when the handler returns at once is
    not a point at which another request settles).  The settling of a
    request that is not in flight, or with an answer of the wrong kind, is
    no event of the program. *)
Definition settle (id : nat) (answer : Response + Thrown) (w : World) : World :=
  match pending w !! id, answer with
  | Some (AwaitText config), inl (TextResponse content) =>
      onTextResolved config content (removePending id w)
  | Some (AwaitText _), inr error => onTextRejected error (removePending id w)
  | Some (AwaitImage batch platform), inl (ImageResponse url) =>
      onImageResolved batch platform url (removePending id w)
  | Some (AwaitImage batch platform), inr error =>
      onImageRejected batch platform error (removePending id w)
  | Some (AwaitRegenerate platform), inl (ImageResponse url) =>
      onRegenerateResolved platform url (removePending id w)
  | Some (AwaitRegenerate platform), inr error =>
      onRegenerateRejected platform error (removePending id w)
  | Some (AwaitKey r), inl KeyResponse => onKeySelected r (removePending id w)
  | Some (AwaitKey r), inr _ => onKeyCancelled r (removePending id w)
  | _, _ => w
  end.

(** The main screen is rendered only with a key; the generate button is
    [disabled={isGeneratingText || !idea.trim()}]; the cards exist only
    with results, and a card offers regeneration while its image is not
    loading. *)
Definition step (w : World) (e : Event) : World :=
  match e with
  | TypeIdea v => if hasKey (state w) then setIdea v w else w
  | PickTone v => if hasKey (state w) then setTone v w else w
  | PickImageSize v => if hasKey (state w) then setImageSize v w else w
  | PickAspectRatio v => if hasKey (state w) then setAspectRatio v w else w
  | ClickGenerate =>
      if hasKey (state w) && negb (isGeneratingText (state w))
         && Js.truthy (Js.trim (idea (state w)))
      then handleGenerate w else w
  | ClickRegenerate platform =>
      if hasKey (state w) && bool_decide (is_Some (results (state w)))
         && negb (isImageLoading w platform)
      then handleRegenerateImage platform w else w
  | ClickSelectKey => if hasKey (state w) then w else handleSelectKey w
  | Resolve id response => settle id (inl response) w
  | Reject id error => settle id (inr error) w
  end.

(** The turns one after another, with the state React computes from the
    updaters.  Whether the tree is still mounted is not looked at here: a
    render that throws unmounts it, after which state updates are dropped;
    that is [Live.run] below. *)
Definition run (w : World) (events : list Event) : World := fold_left step events w.

(** A freshly mounted component with a key: nothing typed, nothing in
    flight. *)
Definition initial (withAistudio : bool) : World :=
  mkWorld (mkState true "" PROFESSIONAL Size1K AUTO false None false)
    withAistudio ∅ 0 0 ∅ false [].

(** *** Observations *)

(** [results?.[platform]]: the post stored for a platform, if any. *)
Definition postOf (w : World) (platform : PlatformValue) : option GeneratedPost :=
  results (state w) ≫= (fun r => r !! ToPropertyKey platform).

(** Whether [await handleApiError(error)] lets its caller go on at once: not
    when the handler throws, and not while it waits for the key selection. *)
Definition handlerReturns (error : Thrown) (w : World) : bool :=
  match isPermissionError error with
  | None => false
  | Some false => true
  | Some true => permissionErrorRef (state w) || negb (aistudio w)
  end.

(** The update of the result set that follows the handler in caller [r]. *)
Definition resultsAfterHandler (r : Resume) (prev : option GenerationResult)
    : option GenerationResult :=
  match r with
  | ResumeTask _ platform | ResumeRegenerate platform => loadingUpdate false platform prev
  | ResumeGenerate | ResumeSelectKey => prev
  end.

(** Result sets that come from [prev] by the two single-platform updaters
    at [platform]. *)
Inductive UpdatesAt (platform : PlatformValue) (prev : option GenerationResult)
    : option GenerationResult -> Prop :=
| UpdatesNone : UpdatesAt platform prev prev
| UpdatesLoading b next :
    UpdatesAt platform prev next -> UpdatesAt platform prev (loadingUpdate b platform next)
| UpdatesImage url next :
    UpdatesAt platform prev next -> UpdatesAt platform prev (imageUpdate url platform next).

(** The calls of the image service among the effects. *)
Definition imageCalls (l : list Effect) : list (nat * PlatformValue * Service.ImageRequest) :=
  omap (fun e => match e with
                 | CallImage id platform request => Some (id, platform, request)
                 | _ => None
                 end) l.

(** The alerts among the effects. *)
Definition alerts (l : list Effect) : list AlertText :=
  omap (fun e => match e with
                 | Alert t => Some t
                 | _ => None
                 end) l.

(** The calls of the text service among the effects. *)
Definition textCalls (l : list Effect) : list (nat * string * Tone) :=
  omap (fun e => match e with
                 | CallText id idea tone => Some (id, idea, tone)
                 | _ => None
                 end) l.

(** The key selections opened among the effects. *)
Definition keySelections (l : list Effect) : list nat :=
  omap (fun e => match e with
                 | OpenSelectKey id => Some id
                 | _ => None
                 end) l.

(** The steps that belong to one [handleRegenerateImage(platform)]: the call
    itself (directly, or by a click on the card), the settling of its image
    request, and the settling of the key selection its error handler may
    have opened. *)
Inductive RegenerateStep (platform : PlatformValue) : World -> World -> Prop :=
| RegenerateCall w :
    RegenerateStep platform w (handleRegenerateImage platform w)
| RegenerateClick w :
    RegenerateStep platform w (step w (ClickRegenerate platform))
| RegenerateSettles w id answer :
    pending w !! id = Some (AwaitRegenerate platform) ->
    RegenerateStep platform w (settle id answer w)
| RegenerateKeySettles w id answer :
    pending w !! id = Some (AwaitKey (ResumeRegenerate platform)) ->
    RegenerateStep platform w (settle id answer w).

(** *** The promise of a batch *)

(** [Promise.all(promises)] for the tasks of [batch]: rejected as soon as
    one task is, fulfilled when all of them are, pending ([None]) until
    then. *)
Definition batchPromise (batch : nat) (w : World) : option Settlement :=
  let settled := default [] (promises w !! batch) in
  if existsb (fun how => match how with Rejected => true | Fulfilled => false end) settled
  then Some Rejected
  else if Nat.eqb (List.length settled) (List.length platforms) then Some Fulfilled
  else None.

End App.

(** ** The specification's vocabulary *)

Module Spec.

(** The four platforms of the specification. *)
Inductive PlatformName : Type := LinkedIn | Twitter | Instagram | Facebook.

(** The run-time value the program uses for each of them: the member access
    on the enum that the source writes. *)
Definition value (p : PlatformName) : PlatformValue :=
  match p with
  | LinkedIn => Platform_LINKEDIN
  | Twitter => Platform_TWITTER
  | Instagram => Platform_INSTAGRAM
  | Facebook => Platform_FACEBOOK
  end.

#[global] Instance PlatformName_eq_dec : EqDecision PlatformName.
Proof. solve_decision. Defined.

(** The position of a platform in the list [platforms]. *)
Definition index (p : PlatformName) : nat :=
  match p with
  | LinkedIn => 0
  | Twitter => 1
  | Instagram => 2
  | Facebook => 3
  end.

(** The draft of the text service's answer that belongs to a platform. *)
Definition draft (content : App.Content) (p : PlatformName) : App.Draft :=
  match p with
  | LinkedIn => App.linkedin content
  | Twitter => App.twitter content
  | Instagram => App.instagram content
  | Facebook => App.facebook content
  end.

(** The specification's platform defaults: LinkedIn 16:9, Twitter 16:9,
    Instagram 1:1, Facebook 4:3. *)
Definition defaultRatio (p : PlatformName) : AspectRatio :=
  match p with
  | LinkedIn => R16_9
  | Twitter => R16_9
  | Instagram => R1_1
  | Facebook => R4_3
  end.

(** The specification's mapping table: 2:3 to 3:4, 3:2 to 4:3, 21:9 to 16:9,
    the supported ratios to themselves. *)
Definition mapRatio (r : AspectRatio) : AspectRatio :=
  match r with
  | R2_3 => R3_4
  | R3_2 => R4_3
  | R21_9 => R16_9
  | R1_1 => R1_1
  | R3_4 => R3_4
  | R4_3 => R4_3
  | R9_16 => R9_16
  | R16_9 => R16_9
  end.

(** First the default for "automatic", then the mapping. *)
Definition effectiveRatio (p : PlatformName) (setting : AspectRatioSetting) : AspectRatio :=
  mapRatio match setting with
           | AUTO => defaultRatio p
           | Fixed r => r
           end.

(** The specification's four markers of a fatal-authorization failure. *)
Definition fatalMarkers : list string :=
  [ "403"; "PERMISSION_DENIED"; "The caller does not have permission";
    "Requested entity was not found" ].

End Spec.

(** ** The service module: the two requests *)

Module Gemini.

(** [getClient]: [process.env.API_KEY] must be truthy. *)
Definition missingKey : Thrown := ThrownError "API Key not found" Json.Undefined.

Definition getClient (apiKey : option string) : unit + Thrown :=
  match apiKey with
  | Some key => if Js.truthy key then inl tt else inr missingKey
  | None => inr missingKey
  end.

(** What the two functions read of a [GenerateContentResponse]: its [text],
    and [candidates?.[0]?.content?.parts] with the [inlineData] of each
    part.  A field that is absent is [None]. *)
Record Blob : Type := mkBlob {
  mimeType : option string;
  data : option string;
}.

Record Part : Type := mkPart {
  part_text : option string;
  inlineData : option Blob;
}.

Record Candidate : Type := mkCandidate {
  content_parts : option (option (list Part));   (* [content], then its [parts] *)
}.

Record Response : Type := mkResponse {
  response_text : option string;
  candidates : option (list Candidate);
}.

(** A value inside a template literal: [undefined] prints as "undefined". *)
Definition interpolate (v : option string) : string :=
  match v with
  | Some s => s
  | None => "undefined"
  end.

(** The string [enum Tone] gives each member. *)
Definition Tone_literal (tone : Tone) : string :=
  match tone with
  | PROFESSIONAL => "PROFESSIONAL"
  | WITTY => "WITTY"
  | URGENT => "URGENT"
  end.

(** The template literal [prompt] of [generatePostContent]. *)
Definition prompt (idea : string) (tone : Tone) : string :=
  "
    You are a professional social media manager fluent in Arabic.
    Task: Create drafted posts for LinkedIn, Twitter, Instagram, and Facebook based on the following user idea.
    Idea: " +:+ Json.doubleQuote +:+ idea +:+ Json.doubleQuote +:+ "
    Tone: " +:+ Tone_literal tone +:+ " (Please match this tone strictly in Arabic).

    Requirements:
    1. Language: Arabic (Modern Standard Arabic or appropriate dialect if implied by tone).
    2. LinkedIn: Long-form, professional, engaging, thought leadership style.
    3. Twitter: Short, punchy, under 280 chars, viral potential.
    4. Instagram: Visual-first caption, engaging hook, spacing, and relevant hashtags.
    5. Facebook: Conversational, community-focused, storytelling or question-based, moderate length.
    6. For EACH platform, provide a detailed English prompt to generate a high-quality image that matches the post content and platform aesthetics.
  ".

Definition noResponse : Thrown := ThrownError "No response from Gemini" Json.Undefined.

(** [generatePostContent].  [generateContent] stands for the call
    [ai.models.generateContent] (whose model name and response schema are
    constants), [parse] for [JSON.parse]. *)
Definition generatePostContent (apiKey : option string)
    (generateContent : string -> Response + Thrown)
    (parse : string -> App.Content + Thrown)
    (idea : string) (tone : Tone) : App.Content + Thrown :=
  match getClient apiKey with
  | inr error => inr error
  | inl _ =>
      match generateContent (prompt idea tone) with
      | inr error => inr error
      | inl response =>
          match response_text response with
          | Some text => if Js.truthy text then parse text else inr noResponse
          | None => inr noResponse
          end
      end
  end.

(** [response.candidates?.[0]?.content?.parts || []] *)
Definition firstParts (response : Response) : list Part :=
  match candidates response with
  | Some (candidate :: _) =>
      match content_parts candidate with
      | Some (Some parts) => parts
      | _ => []
      end
  | _ => []
  end.

(** The data URL made of a part's inline data. *)
Definition dataUrl (blob : Blob) : string :=
  "data:" +:+ interpolate (mimeType blob) +:+ ";base64," +:+ interpolate (data blob).

(** The loop over the parts: the first part with inline data ends it. *)
Fixpoint firstImage (parts : list Part) : option string :=
  match parts with
  | [] => None
  | part :: rest =>
      match inlineData part with
      | Some blob => Some (dataUrl blob)
      | None => firstImage rest
      end
  end.

Definition noImage : Thrown := ThrownError "No image data found in response" Json.Undefined.

(** [generateImageForPlatform]; whatever is thrown inside its [try] is
    logged and thrown again. *)
Definition generateImageForPlatform (apiKey : option string)
    (generateContent : Service.ImageRequest -> Response + Thrown)
    (prompt : option string) (platform : PlatformValue) (config : ImageConfig)
    : string + Thrown :=
  match getClient apiKey with
  | inr error => inr error
  | inl _ =>
      match generateContent (Service.imageRequest prompt platform config) with
      | inr error => inr error
      | inl response =>
          match firstImage (firstParts response) with
          | Some url => inl url
          | None => inr noImage
          end
      end
  end.

End Gemini.

(** ** The card component: text, sharing, image area *)

Module Card.

Definition newline : string := String (ascii_of_nat 10) "".

(** [getTextContent]; [None] is [undefined] (a post without text). *)
Definition getTextContent (post : GeneratedPost) (editableHashtags : list string)
    : option string :=
  if bool_decide (platform post = Platform_INSTAGRAM)
  then Some (Gemini.interpolate (text post) +:+ newline +:+ newline
             +:+ String.concat " " editableHashtags)
  else text post.

(** What the card does to its surroundings. *)
Inductive Effect : Type :=
| ClipboardWrite (text : option string)
| AlertShareUnsupported
| Fetch (url : string)
| Share (title : string) (text : option string) (withFile : bool)
| Warn          (* [console.warn("Image sharing preparation failed", e)] *)
| LogError.     (* [console.error('Share failed', error)] *)

(** [copyToClipboard] *)
Definition copyToClipboard (post : GeneratedPost) (editableHashtags : list string)
    : list Effect :=
  [ ClipboardWrite (getTextContent post editableHashtags) ].

(** What [navigator.canShare({ files: [file] })] does, if it exists. *)
Inductive CanShare : Type :=
| CanShareMissing
| CanShareAnswers (answer : bool)
| CanShareThrows.

(** How [navigator.share(shareData)] ends. *)
Inductive ShareOutcome : Type :=
| Shared
| Aborted       (* rejects with an error named AbortError *)
| ShareFailed.  (* rejects with any other error *)

(** The browser as [handleShare] meets it: whether [navigator.share]
    exists, whether fetching the image and making a file of it succeeds,
    what [canShare] does, and how the share ends. *)
Record Browser : Type := mkBrowser {
  hasShare : bool;
  imageFetched : bool;
  canShare : CanShare;
  shareOutcome : ShareOutcome;
}.

(** [post.imageUrl && !post.imageLoading] *)
Definition imageReady (post : GeneratedPost) : option string :=
  match imageUrl post with
  | Some url =>
      if Js.truthy url
      then match imageLoading post with
           | Some true => None
           | _ => Some url
           end
      else None
  | None => None
  end.

(** The title of the share: the word for "post" and the platform. *)
Definition shareTitle (post : GeneratedPost) : string :=
  "منشور " +:+ Gemini.interpolate (platform post).

(** [handleShare] *)
Definition handleShare (browser : Browser) (post : GeneratedPost)
    (editableHashtags : list string) : list Effect :=
  let textContent := getTextContent post editableHashtags in
  if hasShare browser then
    let preparation :=
      match imageReady post with
      | Some url =>
          if imageFetched browser then
            match canShare browser with
            | CanShareAnswers true => ([Fetch url], true)
            | CanShareAnswers false | CanShareMissing => ([Fetch url], false)
            | CanShareThrows => ([Fetch url; Warn], false)
            end
          else ([Fetch url; Warn], false)
      | None => ([], false)
      end in
    fst preparation
    ++ [Share (shareTitle post) textContent (snd preparation)]
    ++ match shareOutcome browser with
       | Shared | Aborted => []
       | ShareFailed => [LogError]
       end
  else AlertShareUnsupported :: copyToClipboard post editableHashtags.

(** The shares among the effects. *)
Definition shares (l : list Effect) : list (string * option string * bool) :=
  omap (fun e => match e with
                 | Share title text withFile => Some (title, text, withFile)
                 | _ => None
                 end) l.

Section ImageArea.

(** [String.prototype.toLowerCase], taken as given. *)
Variable toLowerCase : string -> string.

(** What the image area of the card shows. *)
Inductive ImageArea : Type :=
| Spinner
| Picture (src download : string)
| Placeholder.

(** The image area: [isImageLoading ? ... : post.imageUrl ? ... : ...].  The
    download name reads [post.platform.toLowerCase()], which throws when
    the platform is [undefined] ([None]). *)
Definition imageArea (isImageLoading : bool) (post : GeneratedPost) : option ImageArea :=
  if isImageLoading then Some Spinner
  else
    match imageUrl post with
    | Some url =>
        if Js.truthy url
        then match platform post with
             | Some name => Some (Picture url ("gemini-" +:+ toLowerCase name +:+ ".png"))
             | None => None
             end
        else Some Placeholder
    | None => Some Placeholder
    end.

(** The image area of the card that [App] renders for a platform:
    [post={results[platform]}], [isImageLoading={!!results[platform].imageLoading}];
    [None] when reading the post or rendering the area throws. *)
Definition cardImageArea (w : App.World) (platform : PlatformValue) : option ImageArea :=
  match App.postOf w platform with
  | Some post => imageArea (App.isImageLoading w platform) post
  | None => None
  end.

End ImageArea.

End Card.

(** ** What every world the program reaches has in common *)

Module Reach.

(** A result set shows the drafts of a text answer: under the key of each of
    the four platform values it holds a post with the draft's text, image
    prompt and hashtags and with that platform value, whatever its image
    and its loading flag. *)
Definition Shows (content : App.Content) (r : GenerationResult) : Prop :=
  forall q : Spec.PlatformName,
    exists url loading,
      r !! ToPropertyKey (Spec.value q)
      = Some (mkPost (Some (App.draft_text (Spec.draft content q)))
                (Some (App.draft_imagePrompt (Spec.draft content q)))
                (App.draft_hashtags (Spec.draft content q))
                (Spec.value q) url loading).

(** No exception has escaped into React, and the result set, if there is
    one, shows the drafts of one of the [answers]. *)
Definition Complete (answers : App.Content -> Prop) (w : App.World) : Prop :=
  App.crashed w = false /\
  forall r, App.results (App.state w) = Some r ->
            exists content, answers content /\ Shows content r.

(** An [await] of the text generation: on the text itself, or on the key
    selection that its failure opened. *)
Definition generating (a : App.Await) : bool :=
  match a with
  | App.AwaitText _ | App.AwaitKey App.ResumeGenerate => true
  | _ => false
  end.

(** The requests in flight are numbered below the next request number; at
    most one of them is awaited by the text generation, and there is one
    exactly when [busy]. *)
Record Flow (busy : bool) (w : App.World) : Prop := mkFlow {
  flow_fresh : forall id a, App.pending w !! id = Some a -> id < App.nextId w;
  flow_one :
    forall id id' a a',
      App.pending w !! id = Some a -> generating a = true ->
      App.pending w !! id' = Some a' -> generating a' = true -> id = id';
  flow_busy :
    busy = true <-> exists id a, App.pending w !! id = Some a /\ generating a = true;
}.

(** [w'] is [w] with further awaits, none of them of the text generation. *)
Inductive Quiet (w : App.World) : App.World -> Prop :=
| quiet_same w' :
    App.isGeneratingText (App.state w') = App.isGeneratingText (App.state w) ->
    App.pending w' = App.pending w ->
    App.nextId w' = App.nextId w ->
    Quiet w w'
| quiet_suspend a w1 w' :
    Quiet w w1 ->
    generating a = false ->
    App.isGeneratingText (App.state w') = App.isGeneratingText (App.state w1) ->
    App.pending w' = <[App.nextId w1 := a]> (App.pending w1) ->
    App.nextId w' = S (App.nextId w1) ->
    Quiet w w'.

(** The property key of the post whose image an [await] is about: the
    request for the image, or the key selection opened on its failure. *)
Definition awaitedKey (a : App.Await) : option string :=
  match a with
  | App.AwaitImage _ p | App.AwaitRegenerate p
  | App.AwaitKey (App.ResumeTask _ p) | App.AwaitKey (App.ResumeRegenerate p) =>
      Some (ToPropertyKey p)
  | _ => None
  end.

Definition keysOf (a : App.Await) : list string :=
  match awaitedKey a with
  | Some k => [k]
  | None => []
  end.

(** [!!results[k].imageLoading], by property key. *)
Definition loadingAt (w : App.World) (k : string) : bool :=
  match App.results (App.state w) with
  | Some r =>
      match r !! k with
      | Some post => match imageLoading post with Some b => b | None => false end
      | None => false
      end
  | None => false
  end.

(** Something in flight is about the post under [k]. *)
Definition Awaited (w : App.World) (k : string) : Prop :=
  exists id a, App.pending w !! id = Some a /\ awaitedKey a = Some k.

(** Every post that is marked as loading has something in flight behind
    it, the posts under the keys [K] apart. *)
Definition Backed (K : list string) (w : App.World) : Prop :=
  (forall id a, App.pending w !! id = Some a -> id < App.nextId w) /\
  forall k, loadingAt w k = true -> In k K \/ Awaited w k.

(** The main screen is shown, or the permission flag is set and the
    permission alert has been shown. *)
Definition Keyed (w : App.World) : Prop :=
  App.hasKey (App.state w) = true \/
  (App.permissionErrorRef (App.state w) = true /\
   In (App.Alert App.PermissionAlert) (App.log w)).

(** An input that changes the idea or a setting. *)
Definition setting (e : App.Event) : bool :=
  match e with
  | App.TypeIdea _ | App.PickTone _ | App.PickImageSize _ | App.PickAspectRatio _ => true
  | _ => false
  end.

(** The component once its mount effect has set [hasKey], to the answer of
    [hasSelectedApiKey()] where [window.aistudio] exists and to
    [!!process.env.API_KEY] elsewhere: nothing typed, nothing in flight.
    With a key it is [App.initial]. *)
Definition mounted (withAistudio key : bool) : App.World :=
  App.mkWorld (App.mkState key "" PROFESSIONAL Size1K AUTO false None false)
    withAistudio ∅ 0 0 ∅ false [].

(** The key screen as a component mounted without a key shows it: no
    result set, nothing in flight but key selections opened from that
    screen, and no service called and nothing alerted so far. *)
Definition Locked (w : App.World) : Prop :=
  App.hasKey (App.state w) = false /\
  App.results (App.state w) = None /\
  (forall id a, App.pending w !! id = Some a -> a = App.AwaitKey App.ResumeSelectKey) /\
  App.textCalls (App.log w) = [] /\
  App.imageCalls (App.log w) = [] /\
  App.alerts (App.log w) = [].

End Reach.

(** ** The mounted tree *)

Module Live.

(** Rendering the component throws.  The main screen is rendered while
    [hasKey] holds; with a result set it reads [results[p].imageLoading]
    for each of the four platform values and renders their cards, and a
    card throws where its download name reads [toLowerCase] of an
    [undefined] platform (whether it throws does not depend on what
    [toLowerCase] returns). *)
Definition renderThrows (w : App.World) : bool :=
  App.hasKey (App.state w) &&
  match App.results (App.state w) with
  | Some _ =>
      existsb (fun p => match Card.cardImageArea (fun s => s) w p with
                        | Some _ => false
                        | None => true
                        end) App.platforms
  | None => false
  end.

Definition isUpdate (e : App.Effect) : bool :=
  match e with
  | App.SetResults _ => true
  | _ => false
  end.

(** A turn taken after the tree was unmounted.  The function that awaited
    the request runs as ever (to [after]), but React drops the state
    updates of an unmounted component: the state stays that of [before] and
    no update is made.  The ref [permissionErrorRef], the requests and
    promises, the alerts and the calls are those of the turn. *)
Definition unmounted (before after : App.World) : App.World :=
  App.mkWorld
    (App.mkState (App.hasKey (App.state before)) (App.idea (App.state before))
       (App.tone (App.state before)) (App.imageSize (App.state before))
       (App.aspectRatio (App.state before)) (App.isGeneratingText (App.state before))
       (App.results (App.state before)) (App.permissionErrorRef (App.state after)))
    (App.aistudio after) (App.pending after) (App.nextId after) (App.cycle after)
    (App.promises after) true
    (App.log before
     ++ List.filter (fun e => negb (isUpdate e))
          (drop (length (App.log before)) (App.log after))).

(** One turn of the component as React runs it.  An exception in a render
    or in an updater unmounts the whole tree (there is no error boundary);
    [crashed] records that.  From then on nothing is on the screen, so no
    input arrives, and the requests that settle find their state updates
    dropped. *)
Definition step (w : App.World) (e : App.Event) : App.World :=
  if App.crashed w then
    match e with
    | App.Resolve id response => unmounted w (App.settle id (inl response) w)
    | App.Reject id error => unmounted w (App.settle id (inr error) w)
    | _ => w
    end
  else
    let w' := App.step w e in
    if App.crashed w' || renderThrows w' then App.crash w' else w'.

Definition run (w : App.World) (events : list App.Event) : App.World :=
  fold_left step events w.

End Live.

(** ** Scenarios *)

(** The specification's failing answer: a thrown object with status 403 and
    message PERMISSION_DENIED. *)
Definition error403 : Thrown :=
  ThrownValue (Json.Object [("status", Json.Number "403");
                            ("message", Json.Str "PERMISSION_DENIED")]).

(** A failure that is no permission error. *)
Definition networkError : Thrown := ThrownError "Failed to fetch" Json.Undefined.

(** The idea of the specification's scenario. *)
Definition coffee : string := "إطلاق منتج قهوة".

Definition draftFor (name : string) : App.Draft :=
  App.mkDraft ("post for " +:+ name) ("image for " +:+ name) None.

Definition answer (round : string) : App.Content :=
  App.mkContent
    (draftFor ("LinkedIn, " +:+ round))
    (draftFor ("Twitter, " +:+ round))
    (App.mkDraft ("post for Instagram, " +:+ round) ("image for Instagram, " +:+ round)
       (Some ["coffee"; "#launch"]))
    (draftFor ("Facebook, " +:+ round)).

(** One generation: the idea is typed, the button clicked (request 0), the
    text answered; the image requests 1 to 4 are in flight. *)
Definition firstBatch : App.World :=
  App.run (App.initial false)
    [ App.TypeIdea coffee; App.ClickGenerate;
      App.Resolve 0 (App.TextResponse (answer "first")) ].

(** The button is clicked again (request 5) while those images are in
    flight. *)
Definition secondStarted : App.World := App.run firstBatch [ App.ClickGenerate ].

(** The second text is answered: requests 6 to 9 are in flight, and so are
    1 to 4 of the first generation. *)
Definition secondBatch : App.World :=
  App.run secondStarted [ App.Resolve 5 (App.TextResponse (answer "second")) ].

(** Instead, an image request of the first generation fails with the 403
    while the second text is awaited, and then the second text is
    answered. *)
Definition lockedThenAnswered : App.World :=
  App.run secondStarted
    [ App.Reject 1 error403; App.Resolve 5 (App.TextResponse (answer "second")) ].

(** The first batch after its LinkedIn request failed with the 403. *)
Definition firstBatchLocked : App.World := App.run firstBatch [ App.Reject 1 error403 ].

(** The idea is typed and the button clicked: the text request 0 is in
    flight. *)
Definition textRequested : App.World :=
  App.run (App.initial false) [ App.TypeIdea coffee; App.ClickGenerate ].

(** An image per platform. *)
Definition imageOf (q : Spec.PlatformName) : string :=
  match q with
  | Spec.LinkedIn => "data:image/png;base64,TElOS0VESU4="
  | Spec.Twitter => "data:image/png;base64,VFdJVFRFUg=="
  | Spec.Instagram => "data:image/png;base64,SU5TVEFHUkFN"
  | Spec.Facebook => "data:image/png;base64,RkFDRUJPT0s="
  end.


(** With [window.aistudio]: the text request fails with the 403, and the
    key selection (request 1) is open. *)
Definition lockedWithSelector : App.World :=
  App.run (App.initial true)
    [ App.TypeIdea coffee; App.ClickGenerate; App.Reject 0 error403 ].

(** * Properties *)

(** ** Strings *)

Lemma drop_append (w s : string) : Js.drop (String.length w) (w +:+ s) = s.
Proof. induction w as [|c w IH]; simpl; auto. Qed.

Lemma length_append (w s : string) :
  String.length (w +:+ s) = String.length w + String.length s.
Proof. induction w as [|c w IH]; simpl; auto. Qed.

(** Every entry of the table is found at the front of a string that starts
    with it: no entry is a prefix of another. *)
Lemma find_trimmable (w s : string) :
  In w Js.trimmable ->
  List.find (fun w' => Js.startsWith w' (w +:+ s)) Js.trimmable = Some w.
Proof.
  intros H. unfold Js.trimmable, Js.WhiteSpace, Js.LineTerminator in H. simpl in H.
  repeat (destruct H as [<- | H]; [reflexivity |]). destruct H.
Qed.

Lemma trimmable_nonempty (w : string) : In w Js.trimmable -> 1 <= String.length w.
Proof.
  intros H. unfold Js.trimmable, Js.WhiteSpace, Js.LineTerminator in H. simpl in H.
  repeat (destruct H as [<- | H]; [simpl; lia |]). destruct H.
Qed.

Lemma strip_blank (s : string) :
  Js.Blank s ->
  forall fuel, String.length s <= fuel -> Js.strip Js.trimmable fuel s = "".
Proof.
  induction 1 as [|w s Hw Hs IH]; intros fuel Hfuel.
  - destruct fuel; reflexivity.
  - rewrite length_append in Hfuel. pose proof (trimmable_nonempty w Hw).
    destruct fuel as [|fuel]; [lia |].
    cbn [Js.strip]. rewrite find_trimmable by assumption.
    rewrite drop_append. apply IH. lia.
Qed.

(** A blank string trims to the empty string. *)
Lemma trim_blank (s : string) : Js.Blank s -> Js.trim s = "".
Proof.
  intros H. unfold Js.trim, Js.trimStart.
  rewrite (strip_blank s H) by lia. reflexivity.
Qed.

Lemma truthy_empty (s : string) : Js.truthy s = false <-> s = "".
Proof. destruct s; simpl; split; congruence. Qed.

(** ** The platform enumeration *)

(** The run-time values of the four platforms: three member strings and
    [undefined]. *)
Lemma value_eq :
  Spec.value Spec.LinkedIn = Some "LINKEDIN" /\
  Spec.value Spec.Twitter = Some "TWITTER" /\
  Spec.value Spec.Instagram = Some "INSTAGRAM" /\
  Spec.value Spec.Facebook = None.
Proof. repeat split. Qed.

(** The four platforms use four different property keys. *)
Lemma key_injective (p q : Spec.PlatformName) :
  ToPropertyKey (Spec.value p) = ToPropertyKey (Spec.value q) -> p = q.
Proof. destruct p, q; simpl; intros H; try reflexivity; discriminate H. Qed.

Lemma platforms_eq :
  App.platforms = map Spec.value [Spec.LinkedIn; Spec.Twitter; Spec.Instagram; Spec.Facebook].
Proof. reflexivity. Qed.

Lemma newResults_lookup (content : App.Content) (p : Spec.PlatformName) :
  App.newResults content !! ToPropertyKey (Spec.value p)
  = Some (App.newPost (Spec.draft content p) (Spec.value p)).
Proof. destruct p; reflexivity. Qed.


(** ** The aspect ratio of an image request *)

Lemma safeRatio_literal (r : AspectRatio) :
  Service.safeRatio (AspectRatio_literal r)
  = Service.RatioString (AspectRatio_literal (Spec.mapRatio r)).
Proof. destruct r; reflexivity. Qed.

Lemma resolveRatio_value (p : Spec.PlatformName) (config : ImageConfig) :
  Service.resolveRatio (Spec.value p) config
  = AspectRatio_literal match aspectRatio config with
                        | AUTO => Spec.defaultRatio p
                        | Fixed r => r
                        end.
Proof. destruct config as [[|r] sz], p; reflexivity. Qed.

Lemma find_all_false {A : Type} (f : A -> bool) (l : list A) :
  (forall x, In x l -> f x = false) -> List.find f l = None.
Proof.
  induction l as [|x l IH]; intros H; simpl; [reflexivity |].
  rewrite (H x) by (left; reflexivity). apply IH. intros y Hy. apply H. right. exact Hy.
Qed.

Lemma safeRatio_fallback (ratio : string) :
  (forall r, ratio <> AspectRatio_literal r) ->
  ~ In ratio Service.Object_prototype ->
  Service.safeRatio ratio = Service.RatioString "1:1".
Proof.
  intros Hr Hp. unfold Service.safeRatio, Service.get.
  assert (Hfind : List.find (fun kv => String.eqb (fst kv) ratio) Service.safeRatioMap = None).
  { apply find_all_false. intros [k v] Hin. simpl. apply String.eqb_neq. intros ->.
    simpl in Hin.
    repeat (destruct Hin as [Hin | Hin];
            [ injection Hin as <- _;
              first [ now apply (Hr R1_1) | now apply (Hr R3_4) | now apply (Hr R4_3)
                    | now apply (Hr R9_16) | now apply (Hr R16_9) | now apply (Hr R2_3)
                    | now apply (Hr R3_2) | now apply (Hr R21_9) ] |]).
    destruct Hin. }
  rewrite Hfind.
  destruct (existsb (String.eqb ratio) Service.Object_prototype) eqn:E; [| reflexivity].
  apply existsb_exists in E as (x & Hin & Heq). apply String.eqb_eq in Heq. subst x.
  contradiction.
Qed.

(** C4. For each of the four platforms and every configuration, the aspect
    ratio [generateImageForPlatform] sends is the specification's: the
    platform default for "automatic" (LinkedIn 16:9, Twitter 16:9,
    Instagram 1:1, Facebook 4:3), then the table (2:3 to 3:4, 3:2 to 4:3,
    21:9 to 16:9, the five supported ratios unchanged); a string that is
    neither a ratio of the table nor a name every object inherits goes to
    1:1. *)
Theorem C4_aspect_ratio_sent (p : Spec.PlatformName) (config : ImageConfig)
    (prompt : option string) :
  Service.req_aspectRatio (Service.imageRequest prompt (Spec.value p) config)
    = Service.RatioString
        (AspectRatio_literal (Spec.effectiveRatio p (aspectRatio config))) /\
  (forall r, Service.safeRatio (AspectRatio_literal r)
             = Service.RatioString (AspectRatio_literal (Spec.mapRatio r))) /\
  (forall ratio : string,
      (forall r, ratio <> AspectRatio_literal r) ->
      ~ In ratio Service.Object_prototype ->
      Service.safeRatio ratio = Service.RatioString "1:1").
Proof.
  split; [| split].
  - unfold Service.imageRequest, Service.apiRatio. cbn [Service.req_aspectRatio].
    rewrite resolveRatio_value. apply safeRatio_literal.
  - apply safeRatio_literal.
  - apply safeRatio_fallback.
Qed.

(** The fallback of C4 at the unsupported ratio 5:4. *)
Lemma C4_witness : Service.safeRatio "5:4" = Service.RatioString "1:1".
Proof.
  apply (C4_aspect_ratio_sent Spec.LinkedIn (mkConfig AUTO Size1K) None).
  - intros r; destruct r; discriminate.
  - simpl. intros H. repeat (destruct H as [H | H]; [discriminate H |]). destruct H.
Defined.

(** ** Blank ideas *)

Ltac blank :=
  repeat first
    [ exact Js.Blank_empty
    | apply (Js.Blank_more " ")
    | apply (Js.Blank_more (Js.utf8 [9]))
    | apply (Js.Blank_more (Js.utf8 [10]))
    | apply (Js.Blank_more (Js.utf8 [227; 128; 128]))
    | (simpl; tauto) ].

(** C5. For an idea that is empty or made of white space only,
    [handleGenerate] returns the world it was given: no field of the state
    changes (results, loading flags, the permission flag), nothing is
    logged (no call of the text or image service) and nothing is awaited;
    the same holds for a click on the generate button. *)
Theorem C5_blank_idea_is_ignored (w : App.World) :
  Js.Blank (App.idea (App.state w)) ->
  App.handleGenerate w = w /\ App.step w App.ClickGenerate = w.
Proof.
  intros H. apply trim_blank in H.
  assert (Hg : App.handleGenerate w = w).
  { unfold App.handleGenerate. rewrite H. reflexivity. }
  split; [exact Hg |].
  cbn [App.step]. rewrite H. cbn [Js.truthy]. rewrite andb_false_r. reflexivity.
Qed.

(** C5 at an idea of a space, a tab, a line feed and an ideographic space,
    typed into a freshly mounted component. *)
Lemma C5_witness :
  let idea := " " +:+ Js.utf8 [9] +:+ Js.utf8 [10] +:+ Js.utf8 [227; 128; 128] in
  let w := App.setIdea idea (App.initial true) in
  App.handleGenerate w = w /\ App.step w App.ClickGenerate = w.
Proof.
  intros idea w. apply (C5_blank_idea_is_ignored w). subst w idea. simpl. blank.
Defined.

(** ** Hashtag editing *)

Lemma filterIndex_past {A : Type} (l : list A) :
  forall b i, i < b -> PostCard.filterIndex (fun j => negb (Nat.eqb j i)) b l = l.
Proof.
  induction l as [|x l IH]; intros b i Hlt; simpl; [reflexivity |].
  destruct (Nat.eqb_spec b i); [lia |]. simpl. f_equal. apply IH. lia.
Qed.

Lemma filterIndex_remove {A : Type} (l : list A) :
  forall b i,
    PostCard.filterIndex (fun j => negb (Nat.eqb j (b + i))) b l = take i l ++ drop (S i) l.
Proof.
  induction l as [|x l IH]; intros b i; simpl.
  - destruct i; reflexivity.
  - destruct i as [|i].
    + replace (b + 0) with b by lia. rewrite Nat.eqb_refl. simpl.
      rewrite drop_0. apply filterIndex_past. lia.
    + destruct (Nat.eqb_spec b (b + S i)); [lia |]. simpl. f_equal.
      replace (b + S i) with (S b + i) by lia. apply IH.
Qed.

Lemma existsb_same (toLowerCase : string -> string) (tag : string) (tags : list string) :
  existsb (fun t => String.eqb (toLowerCase t) (toLowerCase tag)) tags = true
  <-> exists t, In t tags /\ toLowerCase t = toLowerCase tag.
Proof.
  rewrite existsb_exists. split; intros (t & Hin & H); exists t; split; auto;
    apply String.eqb_eq; exact H.
Qed.

(** C9 as stated fails: the input is trimmed before it is used.  A single
    space is a non-empty input without a leading "#", and nothing is
    stored; " launch" is stored as "#launch", not with "#" put before the
    input. *)
Lemma C9_counterexample :
  let add input :=
    PostCard.editableHashtags
      (PostCard.addHashtag PostCard.toLowerCaseAscii (PostCard.mkState [] input)) in
  (" " <> "" /\ Js.startsWith "#" " " = false /\ add " " = []) /\
  (" launch" <> "" /\ Js.startsWith "#" " launch" = false /\
   add " launch" = ["#launch"] /\ add " launch" <> ["#" +:+ " launch"]).
Proof.
  cbv zeta. repeat split; try reflexivity; discriminate.
Qed.

(** C9, amended.  [addHashtag] works on the trimmed input: an input that is
    empty after trimming changes nothing; otherwise the tag is the trimmed
    input, with "#" put before it when it has no leading "#", and it is
    appended to the list unless some tag of the list equals it under
    [toLowerCase], in which case the list is unchanged (the input field is
    cleared either way).  [removeHashtag i] yields the tags before index [i]
    followed by the tags after it. *)
Theorem C9_hashtag_editing (toLowerCase : string -> string)
    (tags : list string) (input : string) (i : nat) :
  let st := PostCard.mkState tags input in
  let duplicate tag := exists t, In t tags /\ toLowerCase t = toLowerCase tag in
  (Js.trim input = "" -> PostCard.addHashtag toLowerCase st = st) /\
  (Js.startsWith "#" (Js.trim input) = false ->
     PostCard.tagOf input = "#" +:+ Js.trim input) /\
  (Js.startsWith "#" (Js.trim input) = true -> PostCard.tagOf input = Js.trim input) /\
  (Js.trim input <> "" -> ~ duplicate (PostCard.tagOf input) ->
     PostCard.addHashtag toLowerCase st
     = PostCard.mkState (tags ++ [PostCard.tagOf input]) "") /\
  (Js.trim input <> "" -> duplicate (PostCard.tagOf input) ->
     PostCard.addHashtag toLowerCase st = PostCard.mkState tags "") /\
  PostCard.editableHashtags (PostCard.removeHashtag i st) = take i tags ++ drop (S i) tags.
Proof.
  cbv zeta. repeat split.
  - intros H. unfold PostCard.addHashtag. cbn [PostCard.hashtagInput].
    rewrite H. reflexivity.
  - intros H. unfold PostCard.tagOf. rewrite H. reflexivity.
  - intros H. unfold PostCard.tagOf. rewrite H. reflexivity.
  - intros Hne Hdup. unfold PostCard.addHashtag.
    cbn [PostCard.hashtagInput PostCard.editableHashtags].
    destruct (Js.truthy (Js.trim input)) eqn:Ht;
      [| apply truthy_empty in Ht; contradiction].
    cbn [negb].
    destruct (existsb _ tags) eqn:E; [| reflexivity].
    apply existsb_same in E. contradiction.
  - intros Hne Hdup. unfold PostCard.addHashtag.
    cbn [PostCard.hashtagInput PostCard.editableHashtags].
    destruct (Js.truthy (Js.trim input)) eqn:Ht;
      [| apply truthy_empty in Ht; contradiction].
    cbn [negb].
    apply (existsb_same toLowerCase) in Hdup. rewrite Hdup. reflexivity.
  - unfold PostCard.removeHashtag. cbn [PostCard.editableHashtags].
    apply (filterIndex_remove tags 0 i).
Qed.

(** C9 at the specification's example: "launch" is stored as "#launch";
    "#LAUNCH" is then a duplicate; removing index 1 of three tags keeps the
    first and the third. *)
Lemma C9_witness :
  let lower := PostCard.toLowerCaseAscii in
  PostCard.addHashtag lower (PostCard.mkState ["#coffee"] "launch")
    = PostCard.mkState ["#coffee"; "#launch"] "" /\
  PostCard.addHashtag lower (PostCard.mkState ["#coffee"; "#launch"] "#LAUNCH")
    = PostCard.mkState ["#coffee"; "#launch"] "" /\
  PostCard.addHashtag lower (PostCard.mkState ["#coffee"] "  ")
    = PostCard.mkState ["#coffee"] "  " /\
  PostCard.editableHashtags
    (PostCard.removeHashtag 1 (PostCard.mkState ["#a"; "#b"; "#c"] "")) = ["#a"; "#c"].
Proof.
  cbv zeta. split; [| split; [| split]].
  - apply (C9_hashtag_editing PostCard.toLowerCaseAscii ["#coffee"] "launch" 0).
    + discriminate.
    + intros (t & [<- | []] & H). discriminate H.
  - apply (C9_hashtag_editing PostCard.toLowerCaseAscii ["#coffee"; "#launch"] "#LAUNCH" 0).
    + discriminate.
    + exists "#launch". split; [right; left; reflexivity | reflexivity].
  - apply (C9_hashtag_editing PostCard.toLowerCaseAscii ["#coffee"] "  " 0). reflexivity.
  - apply (C9_hashtag_editing PostCard.toLowerCaseAscii ["#a"; "#b"; "#c"] "" 1).
Defined.

(** ** Error classification *)

Lemma permissionMarkers_spec (m : string) :
  App.permissionMarkers m = true
  <-> exists marker, In marker Spec.fatalMarkers /\ Js.includes marker m = true.
Proof.
  unfold App.permissionMarkers, Spec.fatalMarkers. rewrite !orb_true_iff. split.
  - intros [[[H | H] | H] | H]; eexists; (split; [| exact H]); simpl; tauto.
  - intros (marker & Hin & H). simpl in Hin.
    destruct Hin as [<- | [<- | [<- | [<- | []]]]]; tauto.
Qed.

Lemma errorMessage_value (v : Json.Value) :
  App.errorMessage (ThrownValue v)
  = match v with
    | Json.Str s => Some s
    | _ => match Json.stringify v with
           | Json.Text t => Some t
           | Json.NoValue => None
           | Json.Throws => Some "Unknown error"
           end
    end.
Proof. destruct v; reflexivity. Qed.

Lemma stringify_string (s : string) :
  Json.stringify (Json.Str s) = Json.Text (Json.QuoteJSONString s).
Proof. reflexivity. Qed.

(** The only thrown values without a display string are those
    [JSON.stringify] answers with [undefined]. *)
Lemma errorMessage_none (error : Thrown) :
  App.errorMessage error = None
  <-> exists v, error = ThrownValue v /\ Json.stringify v = Json.NoValue.
Proof.
  split.
  - destruct error as [message response | v].
    + simpl. destruct (Json.truthy response); [destruct (Json.stringify response) |];
        discriminate.
    + rewrite errorMessage_value. intros H. exists v. split; [reflexivity |].
      destruct v; try discriminate H;
        destruct (Json.stringify _); try discriminate H; reflexivity.
  - intros (v & -> & H). rewrite errorMessage_value.
    destruct v; try (rewrite H; reflexivity).
    rewrite stringify_string in H. discriminate H.
Qed.

(** C2. An error value is classified as a permission error exactly when
    its display string exists and contains "403", "PERMISSION_DENIED", "The
    caller does not have permission" or "Requested entity was not found".
    The display string is the value itself for a string; for an [Error],
    its message, followed by a space and the JSON text of its [response]
    when that is truthy and can be serialized; for any other value its JSON
    text, and "Unknown error" when [JSON.stringify] throws.  (Where
    [JSON.stringify] answers [undefined] there is no string to search in a
    value that is no [Error], the handler throws and classifies nothing.) *)
Theorem C2_error_classification (error : Thrown) :
  (App.isPermissionError error = Some true
   <-> exists m, App.errorMessage error = Some m /\
         exists marker, In marker Spec.fatalMarkers /\ Js.includes marker m = true) /\
  (forall s, App.errorMessage (ThrownValue (Json.Str s)) = Some s) /\
  (forall message response,
      Json.truthy response = false ->
      App.errorMessage (ThrownError message response) = Some message) /\
  (forall message response t,
      Json.truthy response = true -> Json.stringify response = Json.Text t ->
      App.errorMessage (ThrownError message response) = Some (message +:+ " " +:+ t)) /\
  (forall message response,
      Json.truthy response = true -> Json.stringify response = Json.Throws ->
      App.errorMessage (ThrownError message response) = Some message) /\
  (forall v t,
      (forall s, v <> Json.Str s) -> Json.stringify v = Json.Text t ->
      App.errorMessage (ThrownValue v) = Some t) /\
  (forall v,
      Json.stringify v = Json.Throws ->
      App.errorMessage (ThrownValue v) = Some "Unknown error") /\
  (App.isPermissionError error = None
   <-> exists v, error = ThrownValue v /\ Json.stringify v = Json.NoValue).
Proof.
  repeat split.
  - unfold App.isPermissionError.
    destruct (App.errorMessage error) as [m |]; simpl; [| discriminate].
    intros H. exists m. split; [reflexivity |].
    apply permissionMarkers_spec. congruence.
  - intros (m & Hm & H). unfold App.isPermissionError. rewrite Hm. simpl.
    f_equal. apply permissionMarkers_spec. exact H.
  - intros message response H. simpl. rewrite H. reflexivity.
  - intros message response t Ht H. simpl. rewrite Ht, H. reflexivity.
  - intros message response Ht H. simpl. rewrite Ht, H. reflexivity.
  - intros v t Hv H. rewrite errorMessage_value.
    destruct v; try (rewrite H; reflexivity).
    exfalso. eapply Hv. reflexivity.
  - intros v H. rewrite errorMessage_value.
    destruct v; try (rewrite H; reflexivity).
    rewrite stringify_string in H. discriminate H.
  - unfold App.isPermissionError. intros H. apply errorMessage_none.
    destruct (App.errorMessage error); [discriminate H | reflexivity].
  - intros H. apply errorMessage_none in H. unfold App.isPermissionError.
    rewrite H. reflexivity.
Qed.

(** C2 at the specification's example, the thrown object with status 403
    and message PERMISSION_DENIED, and at an [Error] whose response cannot
    be serialized. *)
Lemma C2_witness :
  App.isPermissionError error403 = Some true /\
  App.errorMessage (ThrownError "quota" (Json.Array [Json.BigInt 1])) = Some "quota".
Proof.
  split.
  - apply (C2_error_classification error403).
    eexists. split; [reflexivity |].
    exists "403". split; [left; reflexivity | reflexivity].
  - apply (C2_error_classification error403); reflexivity.
Defined.

(** ** State updates touch one key *)

Lemma postOf_setResults (f : option GenerationResult -> option GenerationResult)
    (w : App.World) (q : PlatformValue) :
  App.postOf (App.setResults f w) q
  = f (App.results (App.state w)) ≫= (fun r => r !! ToPropertyKey q).
Proof. reflexivity. Qed.

Lemma loadingUpdate_other (b : bool) (p q : PlatformValue) (prev : option GenerationResult) :
  ToPropertyKey p <> ToPropertyKey q ->
  App.loadingUpdate b p prev ≫= (fun r => r !! ToPropertyKey q)
  = prev ≫= (fun r => r !! ToPropertyKey q).
Proof.
  intros Hne. destruct prev as [prev |]; simpl; [| reflexivity].
  apply lookup_insert_ne. exact Hne.
Qed.

Lemma imageUpdate_other (url : string) (p q : PlatformValue) (prev : option GenerationResult) :
  ToPropertyKey p <> ToPropertyKey q ->
  App.imageUpdate url p prev ≫= (fun r => r !! ToPropertyKey q)
  = prev ≫= (fun r => r !! ToPropertyKey q).
Proof.
  intros Hne. destruct prev as [prev |]; simpl; [| reflexivity].
  apply lookup_insert_ne. exact Hne.
Qed.

Lemma loadingUpdate_same (b : bool) (p : PlatformValue) (prev : option GenerationResult) :
  App.loadingUpdate b p prev ≫= (fun r => r !! ToPropertyKey p)
  = (fun r => App.withImageLoading b (App.spread (r !! ToPropertyKey p))) <$> prev.
Proof.
  destruct prev as [prev |]; simpl; [| reflexivity]. apply lookup_insert_eq.
Qed.

Lemma imageUpdate_same (url : string) (p : PlatformValue) (prev : option GenerationResult) :
  App.imageUpdate url p prev ≫= (fun r => r !! ToPropertyKey p)
  = (fun r => App.withImage url (App.spread (r !! ToPropertyKey p))) <$> prev.
Proof.
  destruct prev as [prev |]; simpl; [| reflexivity]. apply lookup_insert_eq.
Qed.

(** ** What the handlers do to the result set *)

Lemma results_afterHandler (r : App.Resume) (w : App.World) :
  App.results (App.state (App.afterHandler r w))
  = App.resultsAfterHandler r (App.results (App.state w)).
Proof. destruct r; simpl; try reflexivity. destruct (negb _); reflexivity. Qed.

Lemma results_handlerThrew (r : App.Resume) (w : App.World) :
  App.results (App.state (App.handlerThrew r w)) = App.results (App.state w).
Proof. destruct r; reflexivity. Qed.

Lemma results_handleApiError (error : Thrown) (r : App.Resume) (w : App.World) :
  App.results (App.state (App.handleApiError error r w))
  = if App.handlerReturns error w
    then App.resultsAfterHandler r (App.results (App.state w))
    else App.results (App.state w).
Proof.
  unfold App.handleApiError, App.handlerReturns.
  destruct (App.isPermissionError error) as [[|] |].
  - destruct (App.permissionErrorRef (App.state w)); simpl.
    + apply results_afterHandler.
    + destruct (App.aistudio w); simpl; [reflexivity |].
      rewrite results_afterHandler. reflexivity.
  - apply results_afterHandler.
  - apply results_handlerThrew.
Qed.

Lemma results_onKey (r : App.Resume) (w : App.World) :
  App.results (App.state (App.onKeySelected r w))
  = App.resultsAfterHandler r (App.results (App.state w)) /\
  App.results (App.state (App.onKeyCancelled r w))
  = App.resultsAfterHandler r (App.results (App.state w)).
Proof.
  unfold App.onKeySelected, App.onKeyCancelled. rewrite !results_afterHandler. split; reflexivity.
Qed.

Lemma results_callImage (a : App.Await) (prompt : option string) (p : PlatformValue)
    (config : ImageConfig) (w : App.World) :
  App.results (App.state (App.callImage a prompt p config w)) = App.results (App.state w).
Proof. reflexivity. Qed.

Lemma results_handleRegenerateImage (p : PlatformValue) (w : App.World) :
  App.results (App.state (App.handleRegenerateImage p w))
  = match App.results (App.state w) with
    | None => None
    | Some prev =>
        match prev !! ToPropertyKey p with
        | Some _ => App.loadingUpdate true p (Some prev)
        | None => App.loadingUpdate false p (App.loadingUpdate true p (Some prev))
        end
    end.
Proof.
  unfold App.handleRegenerateImage.
  destruct (App.results (App.state w)) as [prev |] eqn:E; [| exact E].
  destruct (prev !! ToPropertyKey p) eqn:Ep.
  - rewrite results_callImage. simpl. rewrite E. reflexivity.
  - rewrite results_handleApiError. simpl. rewrite E. reflexivity.
Qed.

(** The result set after the settling of a request, by what awaited it. *)
Lemma results_settle_regenerate (w : App.World) (id : nat) (p : PlatformValue)
    (answer : App.Response + Thrown) :
  App.pending w !! id = Some (App.AwaitRegenerate p) ->
  App.results (App.state (App.settle id answer w))
  = match answer with
    | inl (App.ImageResponse url) => App.imageUpdate url p (App.results (App.state w))
    | inl _ => App.results (App.state w)
    | inr error =>
        if App.handlerReturns error w
        then App.loadingUpdate false p (App.results (App.state w))
        else App.results (App.state w)
    end.
Proof.
  intros H. unfold App.settle. rewrite H.
  destruct answer as [[content | url |] | error]; try reflexivity.
  unfold App.onRegenerateRejected. rewrite results_handleApiError. reflexivity.
Qed.

Lemma results_settle_key (w : App.World) (id : nat) (r : App.Resume)
    (answer : App.Response + Thrown) :
  App.pending w !! id = Some (App.AwaitKey r) ->
  App.results (App.state (App.settle id answer w))
  = match answer with
    | inl App.KeyResponse | inr _ => App.resultsAfterHandler r (App.results (App.state w))
    | inl _ => App.results (App.state w)
    end.
Proof.
  intros H. unfold App.settle. rewrite H.
  destruct answer as [[content | url |] | error]; try reflexivity;
    apply (results_onKey r (App.removePending id w)).
Qed.

(** ** Regenerating one image *)

Lemma resultsAfterHandler_regenerate (p : PlatformValue) (prev : option GenerationResult) :
  App.UpdatesAt p prev (App.resultsAfterHandler (App.ResumeRegenerate p) prev).
Proof. simpl. apply App.UpdatesLoading, App.UpdatesNone. Qed.

(** Every step of a regeneration changes the result set by updates at its
    own platform only. *)
Lemma regenerate_updates (p : PlatformValue) (w w' : App.World) :
  App.RegenerateStep p w w' ->
  App.UpdatesAt p (App.results (App.state w)) (App.results (App.state w')).
Proof.
  assert (Hcall : forall w0,
             App.UpdatesAt p (App.results (App.state w0))
               (App.results (App.state (App.handleRegenerateImage p w0)))).
  { intros w0. rewrite results_handleRegenerateImage.
    destruct (App.results (App.state w0)) as [prev |]; [| constructor].
    destruct (prev !! ToPropertyKey p); repeat constructor. }
  intros [w0 | w0 | w0 id answer H | w0 id answer H].
  - apply Hcall.
  - cbn [App.step]. destruct (_ && _); [apply Hcall | constructor].
  - rewrite (results_settle_regenerate w0 id p answer H).
    destruct answer as [[content | url |] | error]; try constructor.
    + constructor.
    + destruct (App.handlerReturns error w0); repeat constructor.
  - rewrite (results_settle_key w0 id _ answer H).
    destruct answer as [[content | url |] | error];
      first [apply resultsAfterHandler_regenerate | constructor].
Qed.

Lemma updates_other (p q : PlatformValue) (prev next : option GenerationResult) :
  ToPropertyKey p <> ToPropertyKey q ->
  App.UpdatesAt p prev next ->
  next ≫= (fun r => r !! ToPropertyKey q) = prev ≫= (fun r => r !! ToPropertyKey q).
Proof.
  intros Hne H. induction H as [| b next H IH | url next H IH].
  - reflexivity.
  - rewrite loadingUpdate_other by exact Hne. exact IH.
  - rewrite imageUpdate_other by exact Hne. exact IH.
Qed.

Lemma updates_same (p : PlatformValue) (prev next : option GenerationResult)
    (post : GeneratedPost) :
  App.UpdatesAt p prev next ->
  prev ≫= (fun r => r !! ToPropertyKey p) = Some post ->
  exists post',
    next ≫= (fun r => r !! ToPropertyKey p) = Some post' /\
    text post' = text post /\ imagePrompt post' = imagePrompt post /\
    hashtags post' = hashtags post /\ platform post' = platform post.
Proof.
  intros H Hpost. induction H as [| b next H IH | url next H IH].
  - exists post. auto.
  - destruct IH as (post' & Hnext & Ht & Hi & Hh & Hp).
    destruct next as [next |]; [| discriminate Hnext]. simpl in Hnext.
    rewrite loadingUpdate_same. simpl. rewrite Hnext. eexists. split; [reflexivity |].
    simpl. auto.
  - destruct IH as (post' & Hnext & Ht & Hi & Hh & Hp).
    destruct next as [next |]; [| discriminate Hnext]. simpl in Hnext.
    rewrite imageUpdate_same. simpl. rewrite Hnext. eexists. split; [reflexivity |].
    simpl. auto.
Qed.

(** C8. A step of [handleRegenerateImage] for platform P (the call, the
    success or failure of its image request, the key selection after a
    fatal failure) leaves the post of every other platform Q as it was:
    text, hashtags, image prompt, image reference and loading flag.  In P's
    own post only the image reference and the loading flag can change. *)
Theorem C8_regenerate_frame (P Q : Spec.PlatformName) (w w' : App.World) :
  P <> Q ->
  App.RegenerateStep (Spec.value P) w w' ->
  App.postOf w' (Spec.value Q) = App.postOf w (Spec.value Q) /\
  (forall post,
      App.postOf w (Spec.value P) = Some post ->
      exists post',
        App.postOf w' (Spec.value P) = Some post' /\
        text post' = text post /\ imagePrompt post' = imagePrompt post /\
        hashtags post' = hashtags post /\ platform post' = platform post).
Proof.
  intros Hne Hstep. apply regenerate_updates in Hstep. split.
  - apply (updates_other (Spec.value P)); [| exact Hstep].
    intros Hkey. apply Hne. apply key_injective. exact Hkey.
  - intros post Hpost. apply (updates_same _ _ _ post Hstep Hpost).
Qed.
(** ** Starting a batch *)

Lemma loadingIndicators_new (content : App.Content) :
  App.loadingIndicators (App.newResults content)
  = Some (App.withImageLoading true <$> App.newResults content).
Proof. reflexivity. Qed.

Lemma startTask_set (batch : nat) (config : ImageConfig) (cur : GenerationResult)
    (w : App.World) (p : PlatformValue) :
  App.permissionErrorRef (App.state w) = true ->
  App.startTask batch config cur w p
  = App.taskSettled batch App.Fulfilled (App.setResults (App.loadingUpdate false p) w).
Proof. intros H. unfold App.startTask. rewrite H. reflexivity. Qed.

Lemma startTask_clear (batch : nat) (config : ImageConfig) (cur : GenerationResult)
    (w : App.World) (p : PlatformValue) (post : GeneratedPost) :
  App.permissionErrorRef (App.state w) = false ->
  cur !! ToPropertyKey p = Some post ->
  App.startTask batch config cur w p
  = App.callImage (App.AwaitImage batch p) (imagePrompt post) p config w.
Proof. intros H Hp. unfold App.startTask. rewrite H, Hp. reflexivity. Qed.

(** With the flag set, the tasks of a batch only clear loading flags. *)
Lemma tasks_set (batch : nat) (config : ImageConfig) (cur : GenerationResult)
    (ps : list PlatformValue) :
  forall w,
    App.permissionErrorRef (App.state w) = true ->
    fold_left (App.startTask batch config cur) ps w
    = fold_left (fun w p => App.taskSettled batch App.Fulfilled
                              (App.setResults (App.loadingUpdate false p) w)) ps w.
Proof.
  induction ps as [|p ps IH]; intros w H; simpl; [reflexivity |].
  rewrite startTask_set by exact H. apply IH. exact H.
Qed.

(** With the flag clear, each task of a new result set calls the image
    service with its draft's prompt. *)
Lemma tasks_clear (batch : nat) (config : ImageConfig) (content : App.Content)
    (qs : list Spec.PlatformName) :
  forall w,
    App.permissionErrorRef (App.state w) = false ->
    fold_left (App.startTask batch config (App.newResults content)) (map Spec.value qs) w
    = fold_left (fun w q =>
                   App.callImage (App.AwaitImage batch (Spec.value q))
                     (Some (App.draft_imagePrompt (Spec.draft content q)))
                     (Spec.value q) config w) qs w.
Proof.
  induction qs as [|q qs IH]; intros w H; simpl; [reflexivity |].
  rewrite (startTask_clear _ _ _ _ _ _ H (newResults_lookup content q)).
  apply IH. exact H.
Qed.

(** ** The fatal-authorization flag and the tasks of a batch *)

Lemma imageCalls_app (l1 l2 : list App.Effect) :
  App.imageCalls (l1 ++ l2) = App.imageCalls l1 ++ App.imageCalls l2.
Proof. unfold App.imageCalls. apply omap_app. Qed.

(** Clearing loading flags for a list of platforms calls nothing and awaits
    nothing. *)
Lemma clearing_quiet (batch : nat) (ps : list PlatformValue) :
  forall w,
    let w' := fold_left (fun w p => App.taskSettled batch App.Fulfilled
                                      (App.setResults (App.loadingUpdate false p) w)) ps w in
    App.imageCalls (App.log w') = App.imageCalls (App.log w) /\
    App.pending w' = App.pending w.
Proof.
  induction ps as [|p ps IH]; intros w; simpl; [split; reflexivity |].
  destruct (IH (App.taskSettled batch App.Fulfilled
                  (App.setResults (App.loadingUpdate false p) w))) as [Hc Hp].
  split; [| exact Hp].
  etransitivity; [exact Hc |]. simpl. rewrite imageCalls_app. simpl. apply app_nil_r.
Qed.

Lemma setLoadingIndicators_quiet (w : App.World) :
  let w' := App.setLoadingIndicators w in
  App.imageCalls (App.log w') = App.imageCalls (App.log w) /\
  App.pending w' = App.pending w /\
  App.permissionErrorRef (App.state w') = App.permissionErrorRef (App.state w).
Proof.
  unfold App.setLoadingIndicators.
  destruct (App.results (App.state w)) as [prev |];
    [destruct (App.loadingIndicators prev) |]; simpl;
    rewrite ?imageCalls_app; simpl; rewrite ?app_nil_r; auto.
Qed.

Lemma results_settle_image (w : App.World) (id batch : nat) (p : PlatformValue)
    (answer : App.Response + Thrown) :
  App.pending w !! id = Some (App.AwaitImage batch p) ->
  App.results (App.state (App.settle id answer w))
  = match answer with
    | inl (App.ImageResponse url) => App.imageUpdate url p (App.results (App.state w))
    | inl _ => App.results (App.state w)
    | inr error =>
        if App.permissionErrorRef (App.state w) || App.handlerReturns error w
        then App.loadingUpdate false p (App.results (App.state w))
        else App.results (App.state w)
    end.
Proof.
  intros H. unfold App.settle. rewrite H.
  destruct answer as [[content | url |] | error]; try reflexivity.
  unfold App.onImageRejected, App.taskFailed. cbn [App.removePending App.state].
  destruct (App.permissionErrorRef (App.state w)) eqn:Hf; cbn [negb orb].
  - rewrite results_afterHandler. reflexivity.
  - rewrite results_handleApiError. reflexivity.
Qed.






(** C8 at a regeneration of the Twitter image in the first batch: the
    Instagram post stays as it is. *)
Lemma C8_witness :
  App.postOf (App.handleRegenerateImage Platform_TWITTER firstBatch) Platform_INSTAGRAM
  = App.postOf firstBatch Platform_INSTAGRAM.
Proof.
  apply (C8_regenerate_frame Spec.Twitter Spec.Instagram firstBatch).
  - discriminate.
  - apply App.RegenerateCall.
Defined.

(** ** Completions of an earlier cycle *)

(** C1 as stated fails.  In [secondBatch] the second generation's result
    set is installed and request 1, the LinkedIn image of the first
    generation, is still in flight.  When it succeeds, its image is stored
    in the second generation's LinkedIn post and that post stops loading;
    when it fails, that post stops loading. *)
Lemma C1_counterexample :
  let url := "data:image/png;base64,stale" in
  let success := App.step secondBatch (App.Resolve 1 (App.ImageResponse url)) in
  let failure := App.step secondBatch (App.Reject 1 networkError) in
  (App.pending secondBatch !! 1 = Some (App.AwaitImage 1 Platform_LINKEDIN) /\
   App.cycle secondBatch = 2 /\
   App.results (App.state secondBatch)
   = Some (App.withImageLoading true <$> App.newResults (answer "second"))) /\
  (App.postOf success Platform_LINKEDIN
   = Some (mkPost (Some "post for LinkedIn, second") (Some "image for LinkedIn, second")
             None (Some "LINKEDIN") (Some url) (Some false)) /\
   App.results (App.state success) <> App.results (App.state secondBatch)) /\
  (App.postOf failure Platform_LINKEDIN
   = Some (mkPost (Some "post for LinkedIn, second") (Some "image for LinkedIn, second")
             None (Some "LINKEDIN") None (Some false)) /\
   App.results (App.state failure) <> App.results (App.state secondBatch)).
Proof.
  cbv zeta. split; [| split].
  - repeat split; reflexivity.
  - split; [reflexivity |].
    intros H. apply (f_equal (fun r => r ≫= (fun m => m !! "LINKEDIN"))) in H.
    vm_compute in H. discriminate H.
  - split; [reflexivity |].
    intros H. apply (f_equal (fun r => r ≫= (fun m => m !! "LINKEDIN"))) in H.
    vm_compute in H. discriminate H.
Qed.

(** C1, amended.  The completion of an image request in flight, of the
    current or of an earlier cycle, applies its updater to the result set
    that is current when it runs.  While there is none (after a new cycle
    has started and before its text has arrived) nothing changes.
    Otherwise a success stores the image in the post of the request's
    platform and clears its loading flag, and a failure clears that loading
    flag (unless the error handler throws or waits for a key selection);
    the posts of the other platforms stay as they are. *)
Theorem C1_completion_updates_current_results (w : App.World) (id batch : nat)
    (P : PlatformValue) :
  App.pending w !! id = Some (App.AwaitImage batch P) ->
  (App.results (App.state w) = None ->
     forall answer, App.results (App.state (App.settle id answer w)) = None) /\
  (forall prev url,
      App.results (App.state w) = Some prev ->
      App.results (App.state (App.step w (App.Resolve id (App.ImageResponse url))))
      = Some (<[ToPropertyKey P := App.withImage url (App.spread (prev !! ToPropertyKey P))]> prev)) /\
  (forall prev error,
      App.results (App.state w) = Some prev ->
      App.results (App.state (App.step w (App.Reject id error)))
      = if App.permissionErrorRef (App.state w) || App.handlerReturns error w
        then Some (<[ToPropertyKey P :=
                       App.withImageLoading false (App.spread (prev !! ToPropertyKey P))]> prev)
        else Some prev) /\
  (forall (Q : PlatformValue) answer,
      ToPropertyKey P <> ToPropertyKey Q ->
      App.postOf (App.settle id answer w) Q = App.postOf w Q).
Proof.
  intros Hid. split; [| split; [| split]].
  - intros Hnone answer. rewrite (results_settle_image w id batch P answer Hid).
    rewrite Hnone. destruct answer as [[| |] |]; try reflexivity.
    destruct (_ || _); reflexivity.
  - intros prev url Hprev. cbn [App.step].
    rewrite (results_settle_image w id batch P _ Hid). rewrite Hprev. reflexivity.
  - intros prev error Hprev. cbn [App.step].
    rewrite (results_settle_image w id batch P _ Hid). rewrite Hprev. reflexivity.
  - intros Q answer Hne. unfold App.postOf.
    rewrite (results_settle_image w id batch P answer Hid).
    destruct answer as [[| url |] | error]; try reflexivity.
    + apply imageUpdate_other. exact Hne.
    + destruct (_ || _); [apply loadingUpdate_other; exact Hne | reflexivity].
Qed.

(** C1, amended, at the stale LinkedIn request of [secondBatch]: the other
    posts of the second generation are not touched by its completion. *)
Lemma C1_witness :
  App.postOf (App.settle 1 (inl (App.ImageResponse "data:image/png;base64,stale")) secondBatch)
    Platform_TWITTER
  = App.postOf secondBatch Platform_TWITTER.
Proof.
  apply (C1_completion_updates_current_results secondBatch 1 1 Platform_LINKEDIN eq_refl).
  discriminate.
Defined.

(** ** The all-loading update *)

Lemma allLoading_lookup (content : App.Content) (q : Spec.PlatformName) :
  (App.withImageLoading true <$> App.newResults content) !! ToPropertyKey (Spec.value q)
  = Some (App.withImageLoading true (App.newPost (Spec.draft content q) (Spec.value q))).
Proof. rewrite lookup_fmap, newResults_lookup. reflexivity. Qed.

(** The world after a text answer when the flag is clear. *)
Lemma onTextResolved_clear (w : App.World) (config : ImageConfig) (content : App.Content) :
  App.permissionErrorRef (App.state w) = false ->
  App.onTextResolved config content w
  = App.setIsGeneratingText false
      (fold_left (fun w' q =>
                    App.callImage (App.AwaitImage (App.cycle w) (Spec.value q))
                      (Some (App.draft_imagePrompt (Spec.draft content q)))
                      (Spec.value q) config w')
         [Spec.LinkedIn; Spec.Twitter; Spec.Instagram; Spec.Facebook]
         (App.newPromises (App.cycle w)
            (App.setResults (fun _ => Some (App.withImageLoading true <$> App.newResults content))
               (App.setResults (fun _ => Some (App.newResults content)) w)))).
Proof.
  intros Hf. unfold App.onTextResolved, App.generateAllImages, App.setLoadingIndicators.
  cbn [App.setResults App.results App.state App.withState App.emit].
  rewrite loadingIndicators_new, platforms_eq.
  rewrite tasks_clear by exact Hf. reflexivity.
Qed.

(** The world after a text answer when the flag is set. *)
Lemma onTextResolved_set (w : App.World) (config : ImageConfig) (content : App.Content) :
  App.permissionErrorRef (App.state w) = true ->
  App.onTextResolved config content w
  = App.setIsGeneratingText false
      (fold_left (fun w' p => App.taskSettled (App.cycle w) App.Fulfilled
                                (App.setResults (App.loadingUpdate false p) w'))
         App.platforms
         (App.newPromises (App.cycle w)
            (App.setResults (fun _ => Some (App.withImageLoading true <$> App.newResults content))
               (App.setResults (fun _ => Some (App.newResults content)) w)))).
Proof.
  intros Hf. unfold App.onTextResolved, App.generateAllImages, App.setLoadingIndicators.
  cbn [App.setResults App.results App.state App.withState App.emit].
  rewrite loadingIndicators_new.
  rewrite tasks_set by exact Hf. reflexivity.
Qed.

Lemma allCleared (content : App.Content) :
  App.loadingUpdate false Platform_FACEBOOK
    (App.loadingUpdate false Platform_INSTAGRAM
       (App.loadingUpdate false Platform_TWITTER
          (App.loadingUpdate false Platform_LINKEDIN
             (Some (App.withImageLoading true <$> App.newResults content)))))
  = Some (App.withImageLoading false <$> App.newResults content).
Proof. reflexivity. Qed.

(** C6 as stated fails when the flag is set while the text is awaited.  In
    [lockedThenAnswered] an image request of the first generation failed
    with the 403 during the second text request; after the second text
    has arrived, and with no image request of the second generation ever
    made, every post of the second result set has its loading flag
    false. *)
Lemma C6_counterexample :
  let w := lockedThenAnswered in
  App.results (App.state w)
  = Some (App.withImageLoading false <$> App.newResults (answer "second")) /\
  (forall q, exists post,
      App.postOf w (Spec.value q) = Some post /\ imageLoading post = Some false) /\
  map (fun call => fst (fst call)) (App.imageCalls (App.log w)) = [1; 2; 3; 4] /\
  App.imageCalls (App.log w) = App.imageCalls (App.log firstBatch).
Proof.
  cbv zeta. split; [vm_compute; reflexivity |].
  split; [| split; vm_compute; reflexivity].
  intros q. destruct q; eexists; (split; [vm_compute; reflexivity | reflexivity]).
Qed.

(** C6, amended.  When the text arrives, the new result set has one post
    per platform (under the keys LINKEDIN, TWITTER, INSTAGRAM and, for
    Facebook, "undefined"); it is installed, and the next state update, a
    single one, sets the loading flag of all four posts, before anything
    else happens.  If the flag is clear then, the four image calls follow
    and the result set stays all-loading until a request settles.  If the
    flag is set then (by a failed image request of an earlier cycle), no
    call is made and the four loading flags are cleared again at once. *)
Theorem C6_all_loading_before_calls (w : App.World) (id : nat) (config : ImageConfig)
    (content : App.Content) :
  App.pending w !! id = Some (App.AwaitText config) ->
  let w' := App.step w (App.Resolve id (App.TextResponse content)) in
  let fresh := App.newResults content in
  let allLoading := App.withImageLoading true <$> fresh in
  let n := App.nextId w in
  let call k q :=
    App.CallImage k (Spec.value q)
      (Service.imageRequest (Some (App.draft_imagePrompt (Spec.draft content q)))
         (Spec.value q) config) in
  (dom allLoading = ({["LINKEDIN"; "TWITTER"; "INSTAGRAM"; "undefined"]} : gset string) /\
   forall q, allLoading !! ToPropertyKey (Spec.value q)
             = Some (App.withImageLoading true
                       (App.newPost (Spec.draft content q) (Spec.value q)))) /\
  (exists rest,
      App.log w'
      = App.log w ++ App.SetResults (Some fresh) :: App.SetResults (Some allLoading) :: rest /\
      (App.permissionErrorRef (App.state w) = false ->
         rest = [call n Spec.LinkedIn; call (S n) Spec.Twitter;
                 call (S (S n)) Spec.Instagram; call (S (S (S n))) Spec.Facebook]) /\
      (App.permissionErrorRef (App.state w) = true -> App.imageCalls rest = [])) /\
  (App.permissionErrorRef (App.state w) = false ->
     App.results (App.state w') = Some allLoading /\
     App.pending w'
     = <[S (S (S n)) := App.AwaitImage (App.cycle w) Platform_FACEBOOK]>
         (<[S (S n) := App.AwaitImage (App.cycle w) Platform_INSTAGRAM]>
            (<[S n := App.AwaitImage (App.cycle w) Platform_TWITTER]>
               (<[n := App.AwaitImage (App.cycle w) Platform_LINKEDIN]>
                  (delete id (App.pending w)))))) /\
  (App.permissionErrorRef (App.state w) = true ->
     App.results (App.state w') = Some (App.withImageLoading false <$> fresh) /\
     App.pending w' = delete id (App.pending w)).
Proof.
  intros Hid. cbv zeta. cbn [App.step]. unfold App.settle. rewrite Hid.
  split; [| split; [| split]].
  - split; [reflexivity | apply allLoading_lookup].
  - destruct (App.permissionErrorRef (App.state w)) eqn:Hf.
    + rewrite onTextResolved_set by exact Hf. eexists. split; [| split].
      * cbn -[App.newResults fmap App.loadingUpdate]. rewrite <- !app_assoc. reflexivity.
      * discriminate.
      * reflexivity.
    + rewrite onTextResolved_clear by exact Hf. eexists. split; [| split].
      * cbn -[App.newResults fmap Service.imageRequest Spec.value].
        rewrite <- !app_assoc. reflexivity.
      * reflexivity.
      * discriminate.
  - intros Hf. rewrite onTextResolved_clear by exact Hf. split; reflexivity.
  - intros Hf. rewrite onTextResolved_set by exact Hf. split; [| reflexivity].
    cbn -[App.newResults fmap App.loadingUpdate]. apply allCleared.
Qed.

(** C6, amended, at the first text answer of the scenario (request 0 of a
    component whose flag is clear). *)
Lemma C6_witness :
  let w := App.run (App.initial false) [App.TypeIdea coffee; App.ClickGenerate] in
  App.results (App.state (App.step w (App.Resolve 0 (App.TextResponse (answer "first")))))
  = Some (App.withImageLoading true <$> App.newResults (answer "first")).
Proof.
  cbv zeta.
  assert (Hid : App.pending (App.run (App.initial false) [App.TypeIdea coffee; App.ClickGenerate])
                  !! 0 = Some (App.AwaitText (mkConfig AUTO Size1K)))
    by (vm_compute; reflexivity).
  assert (Hflag : App.permissionErrorRef
                    (App.state (App.run (App.initial false)
                                  [App.TypeIdea coffee; App.ClickGenerate])) = false)
    by (vm_compute; reflexivity).
  exact (proj1 (proj1 (proj2 (proj2 (C6_all_loading_before_calls _ 0 _ (answer "first") Hid)))
                  Hflag)).
Defined.

(** * The fourth card *)

Lemma unmounted_step (w : App.World) (e : App.Event) :
  App.crashed w = true ->
  App.crashed (Live.step w e) = true /\
  App.results (App.state (Live.step w e)) = App.results (App.state w) /\
  App.hasKey (App.state (Live.step w e)) = App.hasKey (App.state w).
Proof.
  intros Hc. unfold Live.step. rewrite Hc. destruct e; auto.
Qed.

Lemma unmounted_run (events : list App.Event) :
  forall w,
    App.crashed w = true ->
    App.crashed (Live.run w events) = true /\
    App.results (App.state (Live.run w events)) = App.results (App.state w).
Proof.
  induction events as [|e events IH]; intros w Hc; [auto |].
  destruct (unmounted_step w e Hc) as (Hc' & Hr & _).
  destruct (IH (Live.step w e) Hc') as (Hc'' & Hr'').
  change (Live.run w (e :: events)) with (Live.run (Live.step w e) events).
  split; [exact Hc'' | congruence].
Qed.

(** C7, which the program does not keep.  Let the main screen be mounted
    and the image request of the fourth platform be in flight, its post
    holding [undefined] for platform, as [handleGenerate] stores it.  When
    that request succeeds with a data URL, the updater stores the image and
    clears the loading flag, and the render that follows throws; the tree
    is unmounted, and whatever settles afterwards, the result set stays as
    it was then.  And whichever platform's request is rejected with a value
    that has no display string while the flag is clear, the error handler
    throws: the loading flag of that platform is not cleared, and the
    promise of the batch is rejected. *)
Theorem C7_fourth_image_unmounts (w : App.World) (id batch : nat)
    (post : GeneratedPost) (url : string) :
  App.crashed w = false ->
  App.hasKey (App.state w) = true ->
  App.pending w !! id = Some (App.AwaitImage batch Platform_FACEBOOK) ->
  App.postOf w Platform_FACEBOOK = Some post ->
  platform post = Platform_FACEBOOK ->
  url <> "" ->
  let arrived := Live.step w (App.Resolve id (App.ImageResponse url)) in
  App.postOf arrived Platform_FACEBOOK
  = Some (mkPost (text post) (imagePrompt post) (hashtags post) None (Some url) (Some false)) /\
  Live.renderThrows arrived = true /\
  App.crashed arrived = true /\
  (forall events,
      App.crashed (Live.run arrived events) = true /\
      App.results (App.state (Live.run arrived events)) = App.results (App.state arrived)) /\
  (forall v id' batch' P error,
      App.pending v !! id' = Some (App.AwaitImage batch' P) ->
      App.permissionErrorRef (App.state v) = false ->
      App.isPermissionError error = None ->
      let v' := App.step v (App.Reject id' error) in
      App.results (App.state v') = App.results (App.state v) /\
      App.batchPromise batch' v' = Some App.Rejected).
Proof.
  intros Hc Hk Hid Hpost Hplat Hurl. cbv zeta.
  unfold App.postOf in Hpost.
  destruct (App.results (App.state w)) as [prev |] eqn:Hprev; [| discriminate Hpost].
  cbn [mbind option_bind] in Hpost.
  set (w' := App.step w (App.Resolve id (App.ImageResponse url))).
  assert (Hw' : w' = App.taskSettled batch App.Fulfilled
                       (App.setResults (App.imageUpdate url Platform_FACEBOOK)
                          (App.removePending id w))).
  { unfold w'. cbn [App.step]. unfold App.settle. rewrite Hid. reflexivity. }
  assert (Hres : App.results (App.state w')
                 = Some (<[ToPropertyKey Platform_FACEBOOK := App.withImage url post]> prev)).
  { rewrite Hw'. cbn [App.taskSettled App.setResults App.emit App.withState App.state
                      App.results App.removePending]. rewrite Hprev.
    cbn [App.imageUpdate]. rewrite Hpost. reflexivity. }
  assert (Hkey : App.hasKey (App.state w') = true).
  { rewrite Hw'. exact Hk. }
  assert (Hcr : App.crashed w' = false).
  { rewrite Hw'. exact Hc. }
  assert (Hstored : App.postOf w' Platform_FACEBOOK
                    = Some (mkPost (text post) (imagePrompt post) (hashtags post) None
                              (Some url) (Some false))).
  { unfold App.postOf. rewrite Hres. cbn [mbind option_bind].
    rewrite lookup_insert_eq. unfold App.withImage. rewrite Hplat. reflexivity. }
  assert (Hthrows : Live.renderThrows w' = true).
  { unfold Live.renderThrows. rewrite Hkey, Hres. cbn [andb].
    apply existsb_exists. exists Platform_FACEBOOK. split.
    - unfold App.platforms. cbn [In]. tauto.
    - unfold Card.cardImageArea. rewrite Hstored.
      unfold App.isImageLoading. rewrite Hres, lookup_insert_eq.
      cbn [App.withImage imageLoading Card.imageArea imageUrl platform].
      destruct (Js.truthy url) eqn:Ht; [reflexivity |].
      apply truthy_empty in Ht. contradiction. }
  assert (Harrived : Live.step w (App.Resolve id (App.ImageResponse url)) = App.crash w').
  { unfold Live.step. rewrite Hc. cbv zeta. fold w'. rewrite Hthrows, orb_true_r.
    reflexivity. }
  rewrite Harrived.
  split; [exact Hstored |]. split; [exact Hthrows |]. split; [reflexivity |]. split.
  - intros events. apply unmounted_run. reflexivity.
  - intros v id' batch' P error Hid' Hflag Herr. cbv zeta. cbn [App.step].
    unfold App.settle. rewrite Hid'. unfold App.onImageRejected, App.taskFailed.
    cbn [App.removePending App.state]. rewrite Hflag. cbn [negb].
    unfold App.handleApiError. rewrite Herr. cbn [App.handlerThrew].
    split; [reflexivity |].
    unfold App.batchPromise. cbn [App.taskSettled App.promises App.removePending].
    rewrite lookup_insert_eq.
    change (default [] (Some (default [] (App.promises v !! batch') ++ [App.Rejected])))
      with (default [] (App.promises v !! batch') ++ [App.Rejected]).
    rewrite existsb_app. cbn [existsb]. rewrite orb_true_r. reflexivity.
Qed.

(** The failing input.  The idea is typed, the button clicked and the text
    answered; the LinkedIn request fails with a network error, which is no
    permission error; then the image of the fourth platform arrives.  The
    render throws and the tree is unmounted: the Twitter and Instagram
    images that arrive afterwards are dropped, and in the last state the
    component had, their posts are loading and have no image. *)
Lemma C7_witness :
  let w := Live.run (App.initial false)
             [ App.TypeIdea coffee; App.ClickGenerate;
               App.Resolve 0 (App.TextResponse (answer "first"));
               App.Reject 1 networkError ] in
  let arrived := Live.step w (App.Resolve 4 (App.ImageResponse (imageOf Spec.Facebook))) in
  let final := Live.run arrived
                 [ App.Resolve 2 (App.ImageResponse (imageOf Spec.Twitter));
                   App.Resolve 3 (App.ImageResponse (imageOf Spec.Instagram)) ] in
  App.isPermissionError networkError = Some false /\
  App.crashed w = false /\
  App.crashed arrived = true /\
  App.crashed final = true /\
  App.postOf final Platform_LINKEDIN
  = Some (mkPost (Some "post for LinkedIn, first") (Some "image for LinkedIn, first") None
            (Some "LINKEDIN") None (Some false)) /\
  App.postOf final Platform_TWITTER
  = Some (mkPost (Some "post for Twitter, first") (Some "image for Twitter, first") None
            (Some "TWITTER") None (Some true)) /\
  App.postOf final Platform_INSTAGRAM
  = Some (mkPost (Some "post for Instagram, first") (Some "image for Instagram, first")
            (Some ["coffee"; "#launch"]) (Some "INSTAGRAM") None (Some true)).
Proof.
  cbv zeta.
  assert (Herr : App.isPermissionError networkError = Some false) by (vm_compute; reflexivity).
  assert (Hfacts :
    let w := Live.run (App.initial false)
               [ App.TypeIdea coffee; App.ClickGenerate;
                 App.Resolve 0 (App.TextResponse (answer "first"));
                 App.Reject 1 networkError ] in
    App.crashed w = false /\
    App.hasKey (App.state w) = true /\
    App.pending w !! 4 = Some (App.AwaitImage 1 Platform_FACEBOOK) /\
    App.postOf w Platform_FACEBOOK
    = Some (mkPost (Some "post for Facebook, first") (Some "image for Facebook, first") None
              None None (Some true)) /\
    App.postOf w Platform_LINKEDIN
    = Some (mkPost (Some "post for LinkedIn, first") (Some "image for LinkedIn, first") None
              (Some "LINKEDIN") None (Some false)) /\
    App.postOf w Platform_TWITTER
    = Some (mkPost (Some "post for Twitter, first") (Some "image for Twitter, first") None
              (Some "TWITTER") None (Some true)) /\
    App.postOf w Platform_INSTAGRAM
    = Some (mkPost (Some "post for Instagram, first") (Some "image for Instagram, first")
              (Some ["coffee"; "#launch"]) (Some "INSTAGRAM") None (Some true)))
    by (vm_compute; repeat split; reflexivity).
  cbv zeta in Hfacts. revert Hfacts.
  generalize (Live.run (App.initial false)
                [ App.TypeIdea coffee; App.ClickGenerate;
                  App.Resolve 0 (App.TextResponse (answer "first"));
                  App.Reject 1 networkError ]).
  intros w (Hc & Hk & Hid & Hfb & Hli & Htw & Hig).
  assert (Hurl : imageOf Spec.Facebook <> "") by discriminate.
  destruct (C7_fourth_image_unmounts w 4 1 _ (imageOf Spec.Facebook) Hc Hk Hid Hfb eq_refl Hurl)
    as (_ & _ & Hcrashed & Hfrozen & _).
  destruct (Hfrozen [ App.Resolve 2 (App.ImageResponse (imageOf Spec.Twitter));
                      App.Resolve 3 (App.ImageResponse (imageOf Spec.Instagram)) ])
    as (Hfinal & Hres).
  split; [exact Herr |]. split; [exact Hc |]. split; [exact Hcrashed |].
  split; [exact Hfinal |].
  unfold App.postOf in *. rewrite Hres.
  assert (Hother : forall Q,
             ToPropertyKey Platform_FACEBOOK <> ToPropertyKey Q ->
             App.results (App.state (Live.step w
               (App.Resolve 4 (App.ImageResponse (imageOf Spec.Facebook)))))
             ≫= (fun r => r !! ToPropertyKey Q)
             = App.results (App.state w) ≫= (fun r => r !! ToPropertyKey Q)).
  { intros Q HQ. unfold Live.step. rewrite Hc. cbv zeta.
    assert (Hr : App.results (App.state (App.step w (App.Resolve 4
                   (App.ImageResponse (imageOf Spec.Facebook)))))
                 = App.imageUpdate (imageOf Spec.Facebook) Platform_FACEBOOK
                     (App.results (App.state w))).
    { cbn [App.step]. unfold App.settle. rewrite Hid. reflexivity. }
    destruct (_ || _); cbn [App.crash App.state]; rewrite Hr;
      apply imageUpdate_other; exact HQ. }
  rewrite !Hother by discriminate. auto.
Defined.

(** * Further properties of the application component *)

(** ** Alerts and the permission flag *)

Lemma alerts_app (l1 l2 : list App.Effect) :
  App.alerts (l1 ++ l2) = App.alerts l1 ++ App.alerts l2.
Proof. unfold App.alerts. apply omap_app. Qed.

Lemma textCalls_app (l1 l2 : list App.Effect) :
  App.textCalls (l1 ++ l2) = App.textCalls l1 ++ App.textCalls l2.
Proof. unfold App.textCalls. apply omap_app. Qed.

Lemma keySelections_app (l1 l2 : list App.Effect) :
  App.keySelections (l1 ++ l2) = App.keySelections l1 ++ App.keySelections l2.
Proof. unfold App.keySelections. apply omap_app. Qed.

(** What is observed of a world besides its result set and its requests in
    flight: the key state, the flag and the alerts. *)
Ltac observe :=
  cbn [App.state App.log App.pending App.hasKey App.permissionErrorRef App.results
       App.isGeneratingText App.aistudio App.nextId App.cycle App.crashed
       App.afterHandler App.handlerThrew App.taskSettled App.setResults App.emit
       App.withState App.removePending App.setIsGeneratingText App.setHasKey
       App.setPermissionErrorRef App.suspend App.callImage App.newPromises
       App.nextCycle negb];
  rewrite ?alerts_app, ?imageCalls_app, ?textCalls_app, ?keySelections_app;
  cbn [App.alerts App.imageCalls App.textCalls App.keySelections omap list_omap
       mbind option_bind app];
  rewrite ?app_nil_r.

(** With the flag set, the handler does nothing of its own: the caller goes
    on (or, when the error has no display string, is left). *)
Lemma handleApiError_flag_set (error : Thrown) (r : App.Resume) (w : App.World) :
  App.permissionErrorRef (App.state w) = true ->
  App.handleApiError error r w
  = match App.isPermissionError error with
    | None => App.handlerThrew r w
    | Some _ => App.afterHandler r w
    end.
Proof.
  intros Hf. unfold App.handleApiError. rewrite Hf.
  destruct (App.isPermissionError error) as [[|] |]; reflexivity.
Qed.

Lemma afterHandler_quiet (r : App.Resume) (w : App.World) :
  App.permissionErrorRef (App.state w) = true ->
  let w' := App.afterHandler r w in
  App.alerts (App.log w') = App.alerts (App.log w) /\
  App.imageCalls (App.log w') = App.imageCalls (App.log w) /\
  App.permissionErrorRef (App.state w') = true /\
  App.hasKey (App.state w') = App.hasKey (App.state w).
Proof.
  intros Hf. destruct r; cbv zeta; cbn [App.afterHandler]; rewrite ?Hf; observe; auto.
Qed.

Lemma handlerThrew_quiet (r : App.Resume) (w : App.World) :
  let w' := App.handlerThrew r w in
  App.alerts (App.log w') = App.alerts (App.log w) /\
  App.imageCalls (App.log w') = App.imageCalls (App.log w) /\
  App.permissionErrorRef (App.state w') = App.permissionErrorRef (App.state w) /\
  App.hasKey (App.state w') = App.hasKey (App.state w).
Proof. destruct r; cbv zeta; observe; auto. Qed.

Lemma clearing_silent (batch : nat) (ps : list PlatformValue) :
  forall w,
    let w' := fold_left (fun w p => App.taskSettled batch App.Fulfilled
                                      (App.setResults (App.loadingUpdate false p) w)) ps w in
    App.alerts (App.log w') = App.alerts (App.log w) /\
    App.permissionErrorRef (App.state w') = App.permissionErrorRef (App.state w) /\
    App.hasKey (App.state w') = App.hasKey (App.state w).
Proof.
  induction ps as [|p ps IH]; intros w; simpl; [auto |].
  destruct (IH (App.taskSettled batch App.Fulfilled
                  (App.setResults (App.loadingUpdate false p) w))) as (Ha & Hf & Hk).
  cbv zeta in *. rewrite Ha, Hf, Hk. observe. auto.
Qed.

Lemma installing_quiet (f g : option GenerationResult -> option GenerationResult)
    (batch : nat) (w : App.World) :
  let w' := App.newPromises batch (App.setResults f (App.setResults g w)) in
  App.alerts (App.log w') = App.alerts (App.log w) /\
  App.imageCalls (App.log w') = App.imageCalls (App.log w) /\
  App.permissionErrorRef (App.state w') = App.permissionErrorRef (App.state w) /\
  App.hasKey (App.state w') = App.hasKey (App.state w).
Proof. cbv zeta. observe. auto. Qed.

Lemma setIsGeneratingText_quiet (b : bool) (w : App.World) :
  let w' := App.setIsGeneratingText b w in
  App.alerts (App.log w') = App.alerts (App.log w) /\
  App.imageCalls (App.log w') = App.imageCalls (App.log w) /\
  App.permissionErrorRef (App.state w') = App.permissionErrorRef (App.state w) /\
  App.hasKey (App.state w') = App.hasKey (App.state w).
Proof. cbv zeta. observe. auto. Qed.

Lemma onTextResolved_quiet (w : App.World) (config : ImageConfig) (content : App.Content) :
  App.permissionErrorRef (App.state w) = true ->
  let w' := App.onTextResolved config content w in
  App.alerts (App.log w') = App.alerts (App.log w) /\
  App.imageCalls (App.log w') = App.imageCalls (App.log w) /\
  App.permissionErrorRef (App.state w') = true /\
  App.hasKey (App.state w') = App.hasKey (App.state w).
Proof.
  intros Hf. rewrite onTextResolved_set by exact Hf.
  match goal with
  | |- context [App.newPromises ?b (App.setResults ?f (App.setResults ?g w))] =>
      pose proof (installing_quiet f g b w) as H0;
      pose proof (clearing_silent (App.cycle w) App.platforms
                    (App.newPromises b (App.setResults f (App.setResults g w)))) as H1;
      pose proof (clearing_quiet (App.cycle w) App.platforms
                    (App.newPromises b (App.setResults f (App.setResults g w)))) as H2;
      generalize dependent (App.newPromises b (App.setResults f (App.setResults g w)))
  end.
  intros base H0 H1 H2.
  generalize dependent
    (fold_left (fun w' p => App.taskSettled (App.cycle w) App.Fulfilled
                              (App.setResults (App.loadingUpdate false p) w'))
       App.platforms base).
  intros final H1 H2.
  pose proof (setIsGeneratingText_quiet false final) as H3.
  cbv zeta in *.
  destruct H0 as (Ha0 & Hc0 & Hf0 & Hk0). destruct H1 as (Ha1 & Hf1 & Hk1).
  destruct H2 as (Hc2 & _). destruct H3 as (Ha3 & Hc3 & Hf3 & Hk3).
  repeat split; congruence.
Qed.

(** Once the flag is set, the settling of a text or image request shows no
    alert, calls no image service, and leaves the flag and the key state
    as they are. *)
Theorem no_alert_while_flag_set (w : App.World) (id : nat) (answer : App.Response + Thrown) :
  App.permissionErrorRef (App.state w) = true ->
  (forall r, App.pending w !! id <> Some (App.AwaitKey r)) ->
  let w' := App.settle id answer w in
  App.alerts (App.log w') = App.alerts (App.log w) /\
  App.imageCalls (App.log w') = App.imageCalls (App.log w) /\
  App.permissionErrorRef (App.state w') = true /\
  App.hasKey (App.state w') = App.hasKey (App.state w).
Proof.
  intros Hf Hkey. cbv zeta. unfold App.settle.
  destruct (App.pending w !! id) as [[config | batch p | p | r] |] eqn:Hid;
    [| | | exfalso; apply (Hkey r); reflexivity | auto].
  - destruct answer as [[content | url |] | error]; auto.
    + apply (onTextResolved_quiet (App.removePending id w) config content Hf).
    + unfold App.onTextRejected. rewrite handleApiError_flag_set by exact Hf.
      destruct (App.isPermissionError error).
      * apply (afterHandler_quiet App.ResumeGenerate (App.removePending id w) Hf).
      * destruct (handlerThrew_quiet App.ResumeGenerate (App.removePending id w))
          as (Ha & Hc & Hf' & Hk). cbv zeta in *. rewrite Ha, Hc, Hf', Hk. auto.
  - destruct answer as [[content | url |] | error]; auto.
    + unfold App.onImageResolved. observe. auto.
    + unfold App.onImageRejected, App.taskFailed. cbn [App.removePending App.state].
      rewrite Hf. cbn [negb].
      apply (afterHandler_quiet (App.ResumeTask batch p) (App.removePending id w) Hf).
  - destruct answer as [[content | url |] | error]; auto.
    + unfold App.onRegenerateResolved. observe. auto.
    + unfold App.onRegenerateRejected. rewrite handleApiError_flag_set by exact Hf.
      destruct (App.isPermissionError error).
      * apply (afterHandler_quiet (App.ResumeRegenerate p) (App.removePending id w) Hf).
      * destruct (handlerThrew_quiet (App.ResumeRegenerate p) (App.removePending id w))
          as (Ha & Hc & Hf' & Hk). cbv zeta in *. rewrite Ha, Hc, Hf', Hk. auto.
Qed.

(** In the first batch after the 403 of its LinkedIn request, a second 403
    (of the Twitter request) shows no further alert. *)
Lemma no_alert_while_flag_set_witness :
  App.alerts (App.log (App.settle 2 (inr error403) firstBatchLocked))
  = App.alerts (App.log firstBatchLocked).
Proof.
  assert (Hflag : App.permissionErrorRef (App.state firstBatchLocked) = true)
    by (vm_compute; reflexivity).
  assert (Hkey : forall r, App.pending firstBatchLocked !! 2 <> Some (App.AwaitKey r)).
  { intros r. vm_compute. discriminate. }
  exact (proj1 (no_alert_while_flag_set firstBatchLocked 2 (inr error403) Hflag Hkey)).
Defined.

(** ** A failed text generation *)

(** When the text request fails with the flag clear: the result set and the
    service calls stay as they are.  An error that is no permission error
    shows the text-failure alert, once, and ends the generation.  A
    permission error sets the flag, takes the key away and shows the
    permission alert only; with [window.aistudio] the key selection is
    opened and the generation stays in progress until that settles.  An
    error without display string ends the generation without any alert. *)
Theorem text_failure (w : App.World) (id : nat) (config : ImageConfig) (error : Thrown) :
  App.pending w !! id = Some (App.AwaitText config) ->
  App.permissionErrorRef (App.state w) = false ->
  let w' := App.step w (App.Reject id error) in
  App.results (App.state w') = App.results (App.state w) /\
  App.imageCalls (App.log w') = App.imageCalls (App.log w) /\
  App.textCalls (App.log w') = App.textCalls (App.log w) /\
  match App.isPermissionError error with
  | Some false =>
      App.alerts (App.log w') = App.alerts (App.log w) ++ [App.TextFailedAlert] /\
      App.isGeneratingText (App.state w') = false /\
      App.hasKey (App.state w') = App.hasKey (App.state w) /\
      App.permissionErrorRef (App.state w') = false /\
      App.pending w' = delete id (App.pending w)
  | Some true =>
      App.alerts (App.log w') = App.alerts (App.log w) ++ [App.PermissionAlert] /\
      App.hasKey (App.state w') = false /\
      App.permissionErrorRef (App.state w') = true /\
      if App.aistudio w
      then App.isGeneratingText (App.state w') = App.isGeneratingText (App.state w) /\
           App.keySelections (App.log w') = App.keySelections (App.log w) ++ [App.nextId w] /\
           App.pending w'
           = <[App.nextId w := App.AwaitKey App.ResumeGenerate]> (delete id (App.pending w))
      else App.isGeneratingText (App.state w') = false /\
           App.pending w' = delete id (App.pending w)
  | None =>
      App.alerts (App.log w') = App.alerts (App.log w) /\
      App.isGeneratingText (App.state w') = false /\
      App.hasKey (App.state w') = App.hasKey (App.state w) /\
      App.permissionErrorRef (App.state w') = false /\
      App.pending w' = delete id (App.pending w)
  end.
Proof.
  intros Hid Hf. cbv zeta. cbn [App.step]. unfold App.settle. rewrite Hid.
  unfold App.onTextRejected, App.handleApiError.
  cbn [App.removePending App.state]. rewrite Hf. cbn [negb].
  destruct (App.isPermissionError error) as [[|] |].
  - destruct (App.aistudio w) eqn:Ha; observe; rewrite ?Ha; observe; auto 10.
  - observe. rewrite Hf. observe. auto 10.
  - observe. auto 10.
Qed.

(** The text request of the scenario fails with a network error: one
    text-failure alert, and the button is enabled again. *)
Lemma text_failure_witness :
  let w' := App.step textRequested (App.Reject 0 networkError) in
  App.alerts (App.log w') = [App.TextFailedAlert] /\
  App.isGeneratingText (App.state w') = false.
Proof.
  cbv zeta.
  assert (Hid : App.pending textRequested !! 0 = Some (App.AwaitText (mkConfig AUTO Size1K)))
    by (vm_compute; reflexivity).
  assert (Hflag : App.permissionErrorRef (App.state textRequested) = false)
    by (vm_compute; reflexivity).
  pose proof (text_failure textRequested 0 _ networkError Hid Hflag) as H.
  cbv zeta in H. destruct H as (_ & _ & _ & H).
  change (App.isPermissionError networkError) with (Some false) in H.
  destruct H as (Ha & Hg & _). split; [exact Ha | exact Hg].
Defined.

(** ** The key selection *)

(** When a key selection settles, the function [r] that awaited it goes
    on.  If a key was selected, the key is back and the flag is clear, so a
    failed text generation now shows its text-failure alert.  If the
    selection was cancelled, key and flag stay as they are, and a failed
    text generation shows its text-failure alert exactly when the flag is
    clear by then (another selection has been answered in the meantime).
    A task or a regeneration clears its loading flag only now. *)
Theorem key_selection_settles (w : App.World) (id : nat) (r : App.Resume) :
  App.pending w !! id = Some (App.AwaitKey r) ->
  (let w' := App.step w (App.Resolve id App.KeyResponse) in
   App.hasKey (App.state w') = true /\
   App.permissionErrorRef (App.state w') = false /\
   App.results (App.state w') = App.resultsAfterHandler r (App.results (App.state w)) /\
   App.alerts (App.log w')
   = App.alerts (App.log w)
     ++ match r with App.ResumeGenerate => [App.TextFailedAlert] | _ => [] end /\
   App.pending w' = delete id (App.pending w)) /\
  (forall error,
      let w' := App.step w (App.Reject id error) in
      App.hasKey (App.state w') = App.hasKey (App.state w) /\
      App.permissionErrorRef (App.state w') = App.permissionErrorRef (App.state w) /\
      App.results (App.state w') = App.resultsAfterHandler r (App.results (App.state w)) /\
      App.alerts (App.log w')
      = App.alerts (App.log w)
        ++ match r with
           | App.ResumeGenerate =>
               if App.permissionErrorRef (App.state w) then [] else [App.TextFailedAlert]
           | _ => []
           end /\
      App.pending w' = delete id (App.pending w)) /\
  (r = App.ResumeGenerate ->
   forall answer, App.isGeneratingText (App.state (App.settle id answer w))
                  = match answer with
                    | inl App.KeyResponse | inr _ => false
                    | inl _ => App.isGeneratingText (App.state w)
                    end) /\
  (forall batch p,
      r = App.ResumeTask batch p \/ r = App.ResumeRegenerate p ->
      App.isImageLoading (App.step w (App.Resolve id App.KeyResponse)) p = false /\
      forall error, App.isImageLoading (App.step w (App.Reject id error)) p = false).
Proof.
  intros Hid. cbv zeta. cbn [App.step]. unfold App.settle. rewrite Hid.
  unfold App.onKeySelected, App.onKeyCancelled. split; [| split; [| split]].
  - destruct r; observe; auto 10.
  - intros error.
    destruct r; destruct (App.permissionErrorRef (App.state w)) eqn:Hf;
      observe; rewrite ?Hf; observe; auto 10.
  - intros ->. intros [[content | url |] | error]; observe; try reflexivity;
      try (destruct (negb _); reflexivity).
  - assert (Hclear : forall u p,
               App.isImageLoading (App.setResults (App.loadingUpdate false p) u) p = false).
    { intros u p. unfold App.isImageLoading.
      cbn [App.setResults App.emit App.withState App.state App.results].
      destruct (App.results (App.state u)) as [prev |]; [| reflexivity].
      cbn [App.loadingUpdate]. rewrite lookup_insert_eq. reflexivity. }
    intros batch p [-> | ->]; cbn [App.afterHandler]; split; try intros error;
      first [apply (Hclear _ p)
            | exact (Hclear (App.setPermissionErrorRef false
                               (App.setHasKey true (App.removePending id w))) p)
            | exact (Hclear (App.removePending id w) p)].
Qed.

(** With [window.aistudio]: the text request fails with the 403 and the
    selector opens (request 1) behind the key screen; the selector is opened
    again from that screen (request 2) and a key is selected there, which
    clears the flag; then the first selection is cancelled, and the text
    generation that awaited it shows the text-failure alert. *)
Lemma key_selection_settles_witness :
  let w := App.run lockedWithSelector [ App.ClickSelectKey; App.Resolve 2 App.KeyResponse ] in
  let w' := App.step w (App.Reject 1 networkError) in
  App.hasKey (App.state lockedWithSelector) = false /\
  App.permissionErrorRef (App.state w) = false /\
  App.alerts (App.log w) = [App.PermissionAlert] /\
  App.alerts (App.log w') = [App.PermissionAlert; App.TextFailedAlert] /\
  App.isGeneratingText (App.state w') = false.
Proof.
  cbv zeta. split; [vm_compute; reflexivity |].
  assert (Hw :
    let w := App.run lockedWithSelector
               [ App.ClickSelectKey; App.Resolve 2 App.KeyResponse ] in
    App.pending w !! 1 = Some (App.AwaitKey App.ResumeGenerate) /\
    App.permissionErrorRef (App.state w) = false /\
    App.alerts (App.log w) = [App.PermissionAlert])
    by (vm_compute; repeat split; reflexivity).
  cbv zeta in Hw. revert Hw.
  generalize (App.run lockedWithSelector
                [ App.ClickSelectKey; App.Resolve 2 App.KeyResponse ]).
  intros w (Hid & Hf & Ha).
  destruct (key_selection_settles w 1 _ Hid) as (_ & Hcancel & Hgen & _).
  destruct (Hcancel networkError) as (_ & _ & _ & Halerts & _).
  split; [exact Hf |]. split; [exact Ha |]. split.
  - rewrite Halerts, Hf, Ha. reflexivity.
  - exact (Hgen eq_refl (inr networkError)).
Defined.

(** ** Regenerating: the call *)

(** [handleRegenerateImage] does nothing without a result set.  With one,
    it clears the flag and marks the platform's post as loading; if the
    platform has a post, exactly one image call follows, with that post's
    prompt and the current settings; if it has none, no call is made, no
    alert is shown, and the entry made for the platform stops loading. *)
Theorem regenerate_call (w : App.World) (P : PlatformValue) :
  (App.results (App.state w) = None -> App.handleRegenerateImage P w = w) /\
  (forall prev post,
      App.results (App.state w) = Some prev ->
      prev !! ToPropertyKey P = Some post ->
      let w' := App.handleRegenerateImage P w in
      App.permissionErrorRef (App.state w') = false /\
      App.results (App.state w')
      = Some (<[ToPropertyKey P := App.withImageLoading true post]> prev) /\
      App.imageCalls (App.log w')
      = App.imageCalls (App.log w)
        ++ [(App.nextId w, P, Service.imageRequest (imagePrompt post) P (App.currentConfig w))] /\
      App.pending w' = <[App.nextId w := App.AwaitRegenerate P]> (App.pending w) /\
      App.alerts (App.log w') = App.alerts (App.log w)) /\
  (forall prev,
      App.results (App.state w) = Some prev ->
      prev !! ToPropertyKey P = None ->
      let w' := App.handleRegenerateImage P w in
      App.permissionErrorRef (App.state w') = false /\
      App.postOf w' P = Some (mkPost None None None None None (Some false)) /\
      App.imageCalls (App.log w') = App.imageCalls (App.log w) /\
      App.pending w' = App.pending w /\
      App.alerts (App.log w') = App.alerts (App.log w)).
Proof.
  split; [| split].
  - intros H. unfold App.handleRegenerateImage. rewrite H. reflexivity.
  - intros prev post Hprev Hpost. cbv zeta. unfold App.handleRegenerateImage.
    rewrite Hprev, Hpost. observe. rewrite Hprev. cbn [App.loadingUpdate]. rewrite Hpost.
    cbn [App.spread]. auto 10.
  - intros prev Hprev Hpost. cbv zeta. unfold App.handleRegenerateImage.
    rewrite Hprev, Hpost. unfold App.handleApiError.
    change (App.isPermissionError App.readOfUndefined) with (Some false).
    observe. unfold App.postOf. observe. rewrite Hprev. cbn [App.loadingUpdate].
    rewrite Hpost. cbn [App.spread mbind option_bind].
    rewrite !lookup_insert_eq. auto 10.
Qed.

(** Regenerating the Twitter image in the first batch calls the image
    service once more, as request 5, with the Twitter prompt. *)
Lemma regenerate_call_witness :
  App.imageCalls (App.log (App.handleRegenerateImage Platform_TWITTER firstBatch))
  = App.imageCalls (App.log firstBatch)
    ++ [(5, Platform_TWITTER,
         Service.imageRequest (Some "image for Twitter, first") Platform_TWITTER
           (mkConfig AUTO Size1K))].
Proof.
  assert (Hprev : App.results (App.state firstBatch)
                  = Some (App.withImageLoading true <$> App.newResults (answer "first")))
    by (vm_compute; reflexivity).
  assert (Hpost : (App.withImageLoading true <$> App.newResults (answer "first"))
                  !! ToPropertyKey Platform_TWITTER
                  = Some (App.withImageLoading true
                            (App.newPost (App.twitter (answer "first")) Platform_TWITTER)))
    by (vm_compute; reflexivity).
  destruct (regenerate_call firstBatch Platform_TWITTER) as (_ & H & _).
  exact (proj1 (proj2 (proj2 (H _ _ Hprev Hpost)))).
Defined.

(** * Further properties of the service module *)

(** ** The ratio sent is always a supported one *)

(** Whatever the platform value (one of the enum, [undefined], or anything
    else) and whatever the setting, the aspect ratio put into the request is
    one of the five the API supports, and the table maps it to itself. *)
Theorem ratio_sent_is_supported (platform : PlatformValue) (config : ImageConfig)
    (prompt : option string) :
  exists r,
    In r [R1_1; R3_4; R4_3; R9_16; R16_9] /\
    Service.req_aspectRatio (Service.imageRequest prompt platform config)
    = Service.RatioString (AspectRatio_literal r) /\
    Service.safeRatio (AspectRatio_literal r) = Service.RatioString (AspectRatio_literal r).
Proof.
  unfold Service.imageRequest, Service.apiRatio, Service.resolveRatio.
  cbn [Service.req_aspectRatio].
  destruct (aspectRatio config) as [| r].
  - unfold Service.autoRatio.
    repeat match goal with
           | |- context [bool_decide ?P] => destruct (bool_decide P)
           end;
      first [ exists R16_9; simpl; now auto 10
            | exists R1_1; simpl; now auto 10
            | exists R4_3; simpl; now auto 10 ].
  - exists (Spec.mapRatio r). rewrite safeRatio_literal.
    destruct r; simpl; auto 10.
Qed.

(** ** The image of an answer *)

Lemma firstImage_some (parts : list Gemini.Part) (url : string) :
  Gemini.firstImage parts = Some url
  <-> exists before part blob after,
        parts = before ++ part :: after /\
        Forall (fun p => Gemini.inlineData p = None) before /\
        Gemini.inlineData part = Some blob /\
        url = Gemini.dataUrl blob.
Proof.
  induction parts as [|p parts IH]; simpl.
  - split; [discriminate |]. intros (before & part & blob & after & H & _).
    destruct before; discriminate H.
  - destruct (Gemini.inlineData p) as [blob |] eqn:Hp.
    + split.
      * intros [= <-]. exists [], p, blob, parts. auto.
      * intros (before & part & blob' & after & H & Hb & Hpart & ->).
        destruct before as [|p' before]; simpl in H; injection H as -> ->.
        -- congruence.
        -- apply Forall_cons in Hb as [Hb _]. congruence.
    + rewrite IH. split.
      * intros (before & part & blob & after & -> & Hb & Hpart & ->).
        exists (p :: before), part, blob, after. repeat split; auto.
      * intros (before & part & blob & after & H & Hb & Hpart & ->).
        destruct before as [|p' before]; simpl in H; injection H as -> ->.
        -- congruence.
        -- apply Forall_cons in Hb as [_ Hb]. exists before, part, blob, after. auto.
Qed.

Lemma firstImage_none (parts : list Gemini.Part) :
  Gemini.firstImage parts = None <-> Forall (fun p => Gemini.inlineData p = None) parts.
Proof.
  induction parts as [|p parts IH]; simpl.
  - split; [constructor | reflexivity].
  - destruct (Gemini.inlineData p) eqn:Hp.
    + split; [discriminate |]. intros H. apply Forall_cons in H as [H _]. congruence.
    + rewrite IH. split; [intros H; constructor; assumption |].
      intros H. apply Forall_cons in H as [_ H]. exact H.
Qed.

(** [generateImageForPlatform] gives an image exactly when there is a key,
    the request is answered, and some part of the first candidate carries
    inline data; the image is the data URL of the first such part, whatever
    follows it. *)
Theorem image_is_first_inline_part (apiKey : option string)
    (generateContent : Service.ImageRequest -> Gemini.Response + Thrown)
    (prompt : option string) (platform : PlatformValue) (config : ImageConfig)
    (url : string) :
  Gemini.generateImageForPlatform apiKey generateContent prompt platform config = inl url
  <-> (exists key, apiKey = Some key /\ key <> "") /\
      exists response before part blob after,
        generateContent (Service.imageRequest prompt platform config) = inl response /\
        Gemini.firstParts response = before ++ part :: after /\
        Forall (fun p => Gemini.inlineData p = None) before /\
        Gemini.inlineData part = Some blob /\
        url = "data:" +:+ Gemini.interpolate (Gemini.mimeType blob)
              +:+ ";base64," +:+ Gemini.interpolate (Gemini.data blob).
Proof.
  unfold Gemini.generateImageForPlatform, Gemini.getClient. split.
  - destruct apiKey as [key |]; [| discriminate].
    destruct (Js.truthy key) eqn:Hkey; [| discriminate].
    destruct (generateContent _) as [response | error] eqn:Hg; [| discriminate].
    destruct (Gemini.firstImage _) as [url' |] eqn:Himg; [| discriminate].
    intros [= <-]. apply firstImage_some in Himg as (before & part & blob & after & H).
    split.
    + exists key. split; [reflexivity |]. intros ->. discriminate Hkey.
    + exists response, before, part, blob, after. tauto.
  - intros ((key & -> & Hkey) & response & before & part & blob & after
            & Hg & Hparts & Hb & Hpart & ->).
    destruct (Js.truthy key) eqn:Ht; [| apply truthy_empty in Ht; contradiction].
    rewrite Hg.
    assert (Himg : Gemini.firstImage (Gemini.firstParts response) = Some (Gemini.dataUrl blob)).
    { apply firstImage_some. exists before, part, blob, after. auto. }
    rewrite Himg. reflexivity.
Qed.

(** ** The service's own errors *)

(** The errors the service module throws itself (no key, no text, no
    image) are no permission errors: when one of its two functions fails
    with a permission error, that error came from the request (or, for the
    text, from [JSON.parse]). *)
Theorem permission_errors_come_from_the_request :
  (forall apiKey generateContent prompt platform config error,
      Gemini.generateImageForPlatform apiKey generateContent prompt platform config
      = inr error ->
      App.isPermissionError error = Some true ->
      generateContent (Service.imageRequest prompt platform config) = inr error) /\
  (forall apiKey generateContent parse idea tone error,
      Gemini.generatePostContent apiKey generateContent parse idea tone = inr error ->
      App.isPermissionError error = Some true ->
      generateContent (Gemini.prompt idea tone) = inr error \/
      exists text, text <> "" /\ parse text = inr error).
Proof.
  split.
  - intros apiKey generateContent prompt platform config error.
    unfold Gemini.generateImageForPlatform, Gemini.getClient.
    destruct apiKey as [key |];
      [destruct (Js.truthy key) |]; try (intros [= <-]; discriminate).
    destruct (generateContent _) as [response | error'].
    + destruct (Gemini.firstImage _); [discriminate |]. intros [= <-]. discriminate.
    + intros [= <-] _. reflexivity.
  - intros apiKey generateContent parse idea tone error.
    unfold Gemini.generatePostContent, Gemini.getClient.
    destruct apiKey as [key |];
      [destruct (Js.truthy key) |]; try (intros [= <-]; discriminate).
    destruct (generateContent _) as [response | error'].
    + destruct (Gemini.response_text response) as [text |];
        [| intros [= <-]; discriminate].
      destruct (Js.truthy text) eqn:Ht; [| intros [= <-]; discriminate].
      intros H _. right. exists text. split; [| exact H].
      intros ->. discriminate Ht.
    + intros [= <-] _. left. reflexivity.
Qed.

(** * Further properties of the card component *)

(** ** Hashtags keep their "#" *)

Lemma startsWith_hash_tagOf (input : string) :
  Js.startsWith "#" (PostCard.tagOf input) = true.
Proof.
  unfold PostCard.tagOf.
  destruct (Js.startsWith "#" (Js.trim input)) eqn:H; [exact H | reflexivity].
Qed.

Lemma filterIndex_Forall {A : Type} (P : A -> Prop) (keep : nat -> bool) (l : list A) :
  forall i, Forall P l -> Forall P (PostCard.filterIndex keep i l).
Proof.
  induction l as [|x l IH]; intros i H; simpl; [constructor |].
  apply Forall_cons in H as [Hx H].
  destruct (keep i); [constructor; [exact Hx |] |]; apply IH; exact H.
Qed.

(** Every tag of the editable list starts with "#": after the list has
    been loaded from a post, and after every [addHashtag] and
    [removeHashtag] on a list of which it holds. *)
Theorem hashtags_start_with_hash (toLowerCase : string -> string)
    (post : GeneratedPost) (st : PostCard.State) (i : nat) :
  let hashed tags := Forall (fun t => Js.startsWith "#" t = true) tags in
  hashed (PostCard.editableHashtags (PostCard.syncHashtags post st)) /\
  (hashed (PostCard.editableHashtags st) ->
   hashed (PostCard.editableHashtags (PostCard.addHashtag toLowerCase st)) /\
   hashed (PostCard.editableHashtags (PostCard.removeHashtag i st))).
Proof.
  cbv zeta. split.
  - unfold PostCard.syncHashtags. cbn [PostCard.editableHashtags].
    destruct (bool_decide _); [| constructor].
    destruct (hashtags post) as [hs |]; [| constructor].
    apply Forall_map. apply Forall_forall. intros t _. cbn beta.
    destruct (Js.startsWith "#" t) eqn:H; [exact H | reflexivity].
  - intros H. split.
    + unfold PostCard.addHashtag. destruct (negb _); [exact H |].
      cbn [PostCard.editableHashtags]. destruct (negb _); [| exact H].
      apply Forall_app. split; [exact H |].
      constructor; [apply startsWith_hash_tagOf | constructor].
    + unfold PostCard.removeHashtag. cbn [PostCard.editableHashtags].
      apply filterIndex_Forall. exact H.
Qed.

(** Loading the hashtags "coffee" and "#launch" of an Instagram post gives
    "#coffee" and "#launch"; adding "  Beans " keeps every tag hashed. *)
Lemma hashtags_start_with_hash_witness :
  let post := mkPost (Some "caption") (Some "prompt") (Some ["coffee"; "#launch"])
                Platform_INSTAGRAM None None in
  let st := PostCard.syncHashtags post (PostCard.mkState [] "  Beans ") in
  PostCard.editableHashtags st = ["#coffee"; "#launch"] /\
  Forall (fun t => Js.startsWith "#" t = true)
    (PostCard.editableHashtags (PostCard.addHashtag PostCard.toLowerCaseAscii st)).
Proof.
  cbv zeta. split; [reflexivity |].
  pose (post := mkPost (Some "caption") (Some "prompt") (Some ["coffee"; "#launch"])
                  Platform_INSTAGRAM None None).
  destruct (hashtags_start_with_hash PostCard.toLowerCaseAscii post
              (PostCard.syncHashtags post (PostCard.mkState [] "  Beans ")) 0)
    as [Hsync Hkeep].
  apply Hkeep.
  apply (proj1 (hashtags_start_with_hash PostCard.toLowerCaseAscii post
                  (PostCard.mkState [] "  Beans ") 0)).
Defined.

(** ** No duplicates are added *)

Lemma filterIndex_sublist {A : Type} (keep : nat -> bool) (l : list A) :
  forall i, PostCard.filterIndex keep i l `sublist_of` l.
Proof.
  induction l as [|x l IH]; intros i; simpl; [constructor |].
  destruct (keep i); [apply sublist_skip | apply sublist_cons]; apply IH.
Qed.

Lemma filterIndex_map {A B : Type} (f : A -> B) (keep : nat -> bool) (l : list A) :
  forall i, map f (PostCard.filterIndex keep i l) = PostCard.filterIndex keep i (map f l).
Proof.
  induction l as [|x l IH]; intros i; simpl; [reflexivity |].
  destruct (keep i); simpl; rewrite IH; reflexivity.
Qed.

(** [addHashtag] and [removeHashtag] keep a list free of tags that are
    equal under [toLowerCase]; and adding the same input a second time
    changes nothing. *)
Theorem hashtags_stay_distinct (toLowerCase : string -> string)
    (st : PostCard.State) (i : nat) :
  let distinct tags := NoDup (map toLowerCase tags) in
  (distinct (PostCard.editableHashtags st) ->
   distinct (PostCard.editableHashtags (PostCard.addHashtag toLowerCase st)) /\
   distinct (PostCard.editableHashtags (PostCard.removeHashtag i st))) /\
  (let once := PostCard.addHashtag toLowerCase st in
   PostCard.editableHashtags
     (PostCard.addHashtag toLowerCase
        (PostCard.mkState (PostCard.editableHashtags once) (PostCard.hashtagInput st)))
   = PostCard.editableHashtags once).
Proof.
  cbv zeta. split.
  - intros H. split.
    + unfold PostCard.addHashtag. destruct (negb (Js.truthy _)); [exact H |].
      cbn [PostCard.editableHashtags].
      destruct (existsb _ _) eqn:E; cbn [negb]; [exact H |].
      rewrite map_app. apply NoDup_app. split; [exact H |]. split.
      * intros x Hx Hx'. apply list_elem_of_In in Hx'. destruct Hx' as [Hx' | []].
        subst x. apply list_elem_of_In, in_map_iff in Hx as (t & Ht & Hin).
        assert (Hex : existsb (fun t => String.eqb (toLowerCase t)
                                          (toLowerCase (PostCard.tagOf (PostCard.hashtagInput st))))
                        (PostCard.editableHashtags st) = true).
        { apply existsb_same. exists t. auto. }
        congruence.
      * apply NoDup_singleton.
    + unfold PostCard.removeHashtag. cbn [PostCard.editableHashtags].
      apply (sublist_NoDup _ (map toLowerCase (PostCard.editableHashtags st))); [exact H |].
      rewrite filterIndex_map. apply filterIndex_sublist.
  - unfold PostCard.addHashtag at 1 3. cbn [PostCard.hashtagInput PostCard.editableHashtags].
    destruct (negb (Js.truthy (Js.trim (PostCard.hashtagInput st)))) eqn:Ht.
    + unfold PostCard.addHashtag. rewrite Ht. reflexivity.
    + unfold PostCard.addHashtag. rewrite Ht. cbn [PostCard.editableHashtags].
      destruct (existsb _ (PostCard.editableHashtags st)) eqn:E; cbn [negb].
      * rewrite E. reflexivity.
      * rewrite existsb_app. cbn [existsb]. rewrite String.eqb_refl.
        rewrite orb_true_r. reflexivity.
Qed.

(** From the list "#coffee": adding "  Coffee " adds nothing, and adding
    "beans" twice adds it once. *)
Lemma hashtags_stay_distinct_witness :
  let lower := PostCard.toLowerCaseAscii in
  let st := PostCard.mkState ["#coffee"] "  Coffee " in
  PostCard.editableHashtags (PostCard.addHashtag lower st) = ["#coffee"] /\
  NoDup (map lower (PostCard.editableHashtags (PostCard.addHashtag lower st))).
Proof.
  cbv zeta. split; [reflexivity |].
  apply (hashtags_stay_distinct PostCard.toLowerCaseAscii
           (PostCard.mkState ["#coffee"] "  Coffee ") 0).
  cbn. apply NoDup_singleton.
Defined.

(** ** Removing *)

(** [removeHashtag] at an index past the end changes nothing; at an index
    of the list it makes the list one shorter; and removing the index at
    which [addHashtag] has just put a new tag gives back the list. *)
Theorem remove_hashtag_bounds (toLowerCase : string -> string)
    (tags : list string) (input : string) (i : nat) :
  (length tags <= i ->
   PostCard.editableHashtags (PostCard.removeHashtag i (PostCard.mkState tags input)) = tags) /\
  (i < length tags ->
   length (PostCard.editableHashtags (PostCard.removeHashtag i (PostCard.mkState tags input)))
   = length tags - 1) /\
  (let added := PostCard.addHashtag toLowerCase (PostCard.mkState tags input) in
   PostCard.editableHashtags added <> tags ->
   PostCard.editableHashtags (PostCard.removeHashtag (length tags) added) = tags).
Proof.
  assert (Hremove : forall l k,
             PostCard.editableHashtags (PostCard.removeHashtag k (PostCard.mkState l input))
             = take k l ++ drop (S k) l).
  { intros l k. apply (filterIndex_remove l 0 k). }
  split; [| split].
  - intros H. rewrite Hremove. rewrite take_ge, drop_ge by lia. apply app_nil_r.
  - intros H. rewrite Hremove. rewrite length_app, length_take, length_drop. lia.
  - cbv zeta. unfold PostCard.addHashtag. cbn [PostCard.hashtagInput PostCard.editableHashtags].
    destruct (negb (Js.truthy _)); [intros H; contradiction |].
    destruct (negb (existsb _ _)); cbn [PostCard.editableHashtags]; [| intros H; contradiction].
    intros _. unfold PostCard.removeHashtag. cbn [PostCard.editableHashtags].
    rewrite (filterIndex_remove _ 0 (length tags)).
    rewrite take_app_length. rewrite drop_ge by (rewrite length_app; simpl; lia).
    apply app_nil_r.
Qed.

(** Removing index 5 of three tags changes nothing; adding "beans" and
    removing index 3 gives the three tags back. *)
Lemma remove_hashtag_bounds_witness :
  let tags := ["#a"; "#b"; "#c"] in
  PostCard.editableHashtags (PostCard.removeHashtag 5 (PostCard.mkState tags "")) = tags /\
  PostCard.editableHashtags
    (PostCard.removeHashtag 3
       (PostCard.addHashtag PostCard.toLowerCaseAscii (PostCard.mkState tags "beans"))) = tags.
Proof.
  cbv zeta.
  destruct (remove_hashtag_bounds PostCard.toLowerCaseAscii ["#a"; "#b"; "#c"] "" 5)
    as (Hpast & _ & _).
  destruct (remove_hashtag_bounds PostCard.toLowerCaseAscii ["#a"; "#b"; "#c"] "beans" 0)
    as (_ & _ & Hback).
  split.
  - apply Hpast. simpl. lia.
  - apply Hback. intros H. vm_compute in H. discriminate H.
Defined.

(** ** The text that is copied and shared *)

Lemma append_cons (x : ascii) (a b : string) : String x a +:+ b = String x (a +:+ b).
Proof. reflexivity. Qed.

Lemma append_assoc (a b c : string) : (a +:+ b) +:+ c = a +:+ (b +:+ c).
Proof.
  induction a as [|x a IH]; [reflexivity |].
  rewrite !append_cons. f_equal. exact IH.
Qed.

Lemma append_empty_r (a : string) : a +:+ "" = a.
Proof.
  induction a as [|x a IH]; [reflexivity |].
  rewrite append_cons. f_equal. exact IH.
Qed.

Lemma startsWith_append (p s : string) : Js.startsWith p (p +:+ s) = true.
Proof.
  induction p as [|c p IH]; [reflexivity |].
  rewrite append_cons. cbn [Js.startsWith]. rewrite Ascii.eqb_refl. exact IH.
Qed.

Lemma includes_unfold (needle s : string) :
  Js.includes needle s
  = Js.startsWith needle s ||
    match s with
    | EmptyString => false
    | String _ rest => Js.includes needle rest
    end.
Proof. destruct s; reflexivity. Qed.

Lemma includes_inside (needle a b : string) : Js.includes needle (a +:+ needle +:+ b) = true.
Proof.
  induction a as [|c a IH].
  - change ("" +:+ needle +:+ b) with (needle +:+ b).
    rewrite includes_unfold, startsWith_append. reflexivity.
  - rewrite append_cons, includes_unfold. cbn iota. rewrite IH. apply orb_true_r.
Qed.

Lemma concat_inside (sep t : string) (l : list string) :
  In t l -> exists a b, String.concat sep l = a +:+ t +:+ b.
Proof.
  induction l as [|x l IH]; intros H; [destruct H |].
  destruct H as [-> | H].
  - destruct l as [|y l]; cbn [String.concat].
    + exists "", "". rewrite append_empty_r. reflexivity.
    + exists "", (sep +:+ String.concat sep (y :: l)). reflexivity.
  - destruct (IH H) as (a & b & Hab).
    destruct l as [|y l]; [destruct H |]. cbn [String.concat] in *.
    exists (x +:+ sep +:+ a), b. rewrite Hab. rewrite !append_assoc. reflexivity.
Qed.

(** The text of an Instagram card that is copied or shared starts with the
    post's text and contains every tag of the editable list; the text of any
    other card is the post's text, whatever the list holds. *)
Theorem copied_text (post : GeneratedPost) (tags : list string) :
  (platform post = Platform_INSTAGRAM ->
   exists s,
     Card.getTextContent post tags = Some s /\
     Js.startsWith (Gemini.interpolate (text post)) s = true /\
     forall t, In t tags -> Js.includes t s = true) /\
  (platform post <> Platform_INSTAGRAM -> Card.getTextContent post tags = text post) /\
  Card.copyToClipboard post tags = [Card.ClipboardWrite (Card.getTextContent post tags)].
Proof.
  unfold Card.getTextContent. split; [| split; [| reflexivity]].
  - intros H. rewrite bool_decide_eq_true_2 by exact H. eexists. split; [reflexivity |].
    split.
    + apply startsWith_append.
    + intros t Ht. destruct (concat_inside " " t tags Ht) as (a & b & Hab).
      rewrite Hab.
      replace (Gemini.interpolate (text post) +:+ Card.newline +:+ Card.newline
               +:+ a +:+ t +:+ b)
        with ((Gemini.interpolate (text post) +:+ Card.newline +:+ Card.newline +:+ a)
              +:+ t +:+ b)
        by (rewrite !append_assoc; reflexivity).
      apply includes_inside.
  - intros H. rewrite bool_decide_eq_false_2 by exact H. reflexivity.
Qed.

(** The copied text of an Instagram post with two tags contains "#launch". *)
Lemma copied_text_witness :
  exists s,
    Card.getTextContent
      (mkPost (Some "caption") (Some "prompt") None Platform_INSTAGRAM None None)
      ["#coffee"; "#launch"] = Some s /\
    Js.includes "#launch" s = true.
Proof.
  destruct (proj1 (copied_text
                     (mkPost (Some "caption") (Some "prompt") None Platform_INSTAGRAM None None)
                     ["#coffee"; "#launch"]) eq_refl) as (s & Hs & _ & Htags).
  exists s. split; [exact Hs |]. apply Htags. right. left. reflexivity.
Defined.

(** ** Sharing *)

Lemma shares_app (l1 l2 : list Card.Effect) :
  Card.shares (l1 ++ l2) = Card.shares l1 ++ Card.shares l2.
Proof. unfold Card.shares. apply omap_app. Qed.

(** Where [navigator.share] exists, [handleShare] shares exactly once, the
    text of the card under the card's title, whatever happens to the image:
    the image is fetched only when the post has one that is not loading,
    and a file goes with the share only when the fetch succeeded and
    [canShare] said yes; a failed share is logged unless it was aborted;
    nothing is alerted or copied.  Where [navigator.share] does not exist,
    the text is copied after an alert and nothing is fetched or shared. *)
Theorem share_flow (browser : Card.Browser) (post : GeneratedPost) (tags : list string) :
  let effects := Card.handleShare browser post tags in
  (Card.hasShare browser = true ->
   (exists withFile,
       Card.shares effects
       = [(Card.shareTitle post, Card.getTextContent post tags, withFile)] /\
       (withFile = true
        <-> is_Some (Card.imageReady post) /\
            Card.imageFetched browser = true /\
            Card.canShare browser = Card.CanShareAnswers true)) /\
   (forall url, In (Card.Fetch url) effects <-> Card.imageReady post = Some url) /\
   (In Card.LogError effects <-> Card.shareOutcome browser = Card.ShareFailed) /\
   ~ In Card.AlertShareUnsupported effects /\
   (forall text, ~ In (Card.ClipboardWrite text) effects)) /\
  (Card.hasShare browser = false ->
   effects = [Card.AlertShareUnsupported;
              Card.ClipboardWrite (Card.getTextContent post tags)]).
Proof.
  cbv zeta. unfold Card.handleShare. split.
  - intros ->.
    destruct (Card.imageReady post) as [url |] eqn:Hready;
      destruct (Card.imageFetched browser) eqn:Hfetch;
      destruct (Card.canShare browser) as [| [|] |] eqn:Hcan;
      destruct (Card.shareOutcome browser) eqn:Hout;
      cbn [fst snd app];
      (split; [eexists; split; [reflexivity |]; split;
                 [intros H; try discriminate H; repeat split; eauto
                 | intros (Hs & Hf & Hc); try discriminate; try (destruct Hs; discriminate);
                   reflexivity]
              |]);
      (split; [intros u; simpl; split;
                 [intros H; repeat (destruct H as [H | H]; try discriminate H); try contradiction;
                  try (injection H as ->; reflexivity)
                 | intros H; try discriminate H; try (injection H as ->; left; reflexivity)]
              |]);
      (split; [simpl; split;
                 [intros H; repeat (destruct H as [H | H]; try discriminate H);
                  try contradiction; reflexivity
                 | intros H; try discriminate H; tauto]
              |]);
      (split; [simpl; intros H; repeat (destruct H as [H | H]; try discriminate H);
               contradiction
              | intros t; simpl; intros H;
                repeat (destruct H as [H | H]; try discriminate H); contradiction]).
  - intros ->. reflexivity.
Qed.
(** * What every world the program reaches has in common *)

(** ** The result set is never half filled *)

Lemma shows_update (f : GeneratedPost -> GeneratedPost) (content : App.Content)
    (r : GenerationResult) (p : PlatformValue) :
  (forall t i h pl u l, exists u' l', f (mkPost t i h pl u l) = mkPost t i h pl u' l') ->
  Reach.Shows content r ->
  Reach.Shows content (<[ToPropertyKey p := f (App.spread (r !! ToPropertyKey p))]> r).
Proof.
  intros Hf H q.
  destruct (decide (ToPropertyKey p = ToPropertyKey (Spec.value q))) as [e | ne].
  - rewrite e, lookup_insert_eq. destruct (H q) as (u & l & Hq). rewrite Hq.
    cbn [App.spread].
    destruct (Hf (Some (App.draft_text (Spec.draft content q)))
                (Some (App.draft_imagePrompt (Spec.draft content q)))
                (App.draft_hashtags (Spec.draft content q)) (Spec.value q) u l)
      as (u' & l' & E).
    exists u', l'. rewrite E. reflexivity.
  - rewrite lookup_insert_ne by exact ne. exact (H q).
Qed.

Lemma withImageLoading_fields (b : bool) :
  forall t i h pl u l,
    exists u' l', App.withImageLoading b (mkPost t i h pl u l) = mkPost t i h pl u' l'.
Proof. intros. eexists _, _. reflexivity. Qed.

Lemma withImage_fields (url : string) :
  forall t i h pl u l,
    exists u' l', App.withImage url (mkPost t i h pl u l) = mkPost t i h pl u' l'.
Proof. intros. eexists _, _. reflexivity. Qed.

Lemma newResults_shows (content : App.Content) : Reach.Shows content (App.newResults content).
Proof. intros q. rewrite newResults_lookup. eexists _, _. reflexivity. Qed.

Lemma markLoading_shows (content : App.Content) (r : GenerationResult)
    (q : Spec.PlatformName) :
  Reach.Shows content r ->
  exists r', App.markLoading (Some r) (Spec.value q) = Some r' /\ Reach.Shows content r'.
Proof.
  intros H. destruct (H q) as (u & l & Hq). unfold App.markLoading. rewrite Hq.
  eexists. split; [reflexivity |].
  pose proof (shows_update (App.withImageLoading true) content r (Spec.value q)
                (withImageLoading_fields true) H) as H'.
  rewrite Hq in H'. exact H'.
Qed.

Lemma loadingIndicators_shows (content : App.Content) (r : GenerationResult) :
  Reach.Shows content r ->
  exists r', App.loadingIndicators r = Some r' /\ Reach.Shows content r'.
Proof.
  intros H. unfold App.loadingIndicators. rewrite platforms_eq. cbn [map fold_left].
  destruct (markLoading_shows content r Spec.LinkedIn H) as (r1 & -> & H1).
  destruct (markLoading_shows content r1 Spec.Twitter H1) as (r2 & -> & H2).
  destruct (markLoading_shows content r2 Spec.Instagram H2) as (r3 & -> & H3).
  exact (markLoading_shows content r3 Spec.Facebook H3).
Qed.

Section Completeness.

Variable answers : App.Content -> Prop.

Lemma complete_eq (w w' : App.World) :
  App.crashed w' = App.crashed w ->
  App.results (App.state w') = App.results (App.state w) ->
  Reach.Complete answers w -> Reach.Complete answers w'.
Proof. unfold Reach.Complete. intros -> ->. tauto. Qed.

Lemma complete_keep (f : option GenerationResult -> option GenerationResult)
    (w : App.World) :
  f None = None ->
  (forall content r, Reach.Shows content r ->
                     exists r', f (Some r) = Some r' /\ Reach.Shows content r') ->
  Reach.Complete answers w -> Reach.Complete answers (App.setResults f w).
Proof.
  intros Hn Hf [Hc Hr]. split; [exact Hc |].
  change (App.results (App.state (App.setResults f w))) with (f (App.results (App.state w))).
  destruct (App.results (App.state w)) as [r |].
  - destruct (Hr r eq_refl) as (content & Ha & Hs).
    destruct (Hf content r Hs) as (r' & -> & Hs'). intros ? [= <-]. eauto.
  - rewrite Hn. discriminate.
Qed.

Lemma complete_loadingUpdate (b : bool) (p : PlatformValue) (w : App.World) :
  Reach.Complete answers w ->
  Reach.Complete answers (App.setResults (App.loadingUpdate b p) w).
Proof.
  apply complete_keep; [reflexivity |]. intros content r H.
  eexists. split; [reflexivity |]. apply shows_update; [apply withImageLoading_fields | exact H].
Qed.

Lemma complete_imageUpdate (url : string) (p : PlatformValue) (w : App.World) :
  Reach.Complete answers w ->
  Reach.Complete answers (App.setResults (App.imageUpdate url p) w).
Proof.
  apply complete_keep; [reflexivity |]. intros content r H.
  eexists. split; [reflexivity |]. apply shows_update; [apply withImage_fields | exact H].
Qed.

Lemma complete_none (w : App.World) :
  App.crashed w = false -> App.results (App.state w) = None -> Reach.Complete answers w.
Proof. intros Hc Hr. split; [exact Hc |]. rewrite Hr. discriminate. Qed.

Lemma complete_setIsGeneratingText (b : bool) (w : App.World) :
  Reach.Complete answers w -> Reach.Complete answers (App.setIsGeneratingText b w).
Proof. intros H. exact H. Qed.

Lemma complete_installed (content : App.Content) (r0 : GenerationResult) (w : App.World) :
  App.crashed w = false ->
  answers content ->
  Reach.Shows content r0 ->
  Reach.Complete answers (App.setResults (fun _ => Some r0) w).
Proof.
  intros Hc Ha Hs. split; [exact Hc |]. intros r Hr.
  change (Some r0 = Some r) in Hr. injection Hr as <-. eauto.
Qed.

Lemma complete_afterHandler (r : App.Resume) (w : App.World) :
  Reach.Complete answers w -> Reach.Complete answers (App.afterHandler r w).
Proof.
  intros H. destruct r as [| batch p | p |]; cbn [App.afterHandler].
  - apply (complete_eq w); [destruct (negb _); reflexivity .. | exact H].
  - apply (complete_eq (App.setResults (App.loadingUpdate false p) w));
      [reflexivity .. |]. apply complete_loadingUpdate. exact H.
  - apply complete_loadingUpdate. exact H.
  - exact H.
Qed.

Lemma complete_handlerThrew (r : App.Resume) (w : App.World) :
  Reach.Complete answers w -> Reach.Complete answers (App.handlerThrew r w).
Proof. intros H. destruct r; exact H. Qed.

Lemma complete_handleApiError (error : Thrown) (r : App.Resume) (w : App.World) :
  Reach.Complete answers w -> Reach.Complete answers (App.handleApiError error r w).
Proof.
  intros H. unfold App.handleApiError.
  destruct (App.isPermissionError error) as [[|] |].
  - destruct (negb (App.permissionErrorRef (App.state w))).
    + cbv zeta.
      assert (H1 : Reach.Complete answers
                     (App.emit (App.Alert App.PermissionAlert)
                        (App.setHasKey false (App.setPermissionErrorRef true w))))
        by exact H.
      revert H1.
      generalize (App.emit (App.Alert App.PermissionAlert)
                    (App.setHasKey false (App.setPermissionErrorRef true w))).
      intros w1 H1. destruct (App.aistudio w1); [exact H1 |].
      apply complete_afterHandler. exact H1.
    + apply complete_afterHandler. exact H.
  - apply complete_afterHandler. exact H.
  - apply complete_handlerThrew. exact H.
Qed.

Lemma complete_taskFailed (batch : nat) (p : PlatformValue) (error : Thrown)
    (w : App.World) :
  Reach.Complete answers w -> Reach.Complete answers (App.taskFailed batch p error w).
Proof.
  intros H. unfold App.taskFailed. destruct (negb _).
  - apply complete_handleApiError. exact H.
  - apply complete_afterHandler. exact H.
Qed.

Lemma complete_startTask (batch : nat) (config : ImageConfig) (cur : GenerationResult)
    (w : App.World) (p : PlatformValue) :
  Reach.Complete answers w -> Reach.Complete answers (App.startTask batch config cur w p).
Proof.
  intros H. unfold App.startTask. destruct (App.permissionErrorRef (App.state w)).
  - apply (complete_afterHandler (App.ResumeTask batch p)). exact H.
  - destruct (cur !! ToPropertyKey p); [exact H |]. apply complete_taskFailed. exact H.
Qed.

Lemma complete_tasks (batch : nat) (config : ImageConfig) (cur : GenerationResult)
    (ps : list PlatformValue) :
  forall w, Reach.Complete answers w ->
            Reach.Complete answers (fold_left (App.startTask batch config cur) ps w).
Proof.
  induction ps as [|p ps IH]; intros w H; [exact H |].
  apply IH. apply complete_startTask. exact H.
Qed.

Lemma complete_setLoadingIndicators (w : App.World) :
  Reach.Complete answers w -> Reach.Complete answers (App.setLoadingIndicators w).
Proof.
  intros [Hc Hr]. unfold App.setLoadingIndicators.
  destruct (App.results (App.state w)) as [prev |] eqn:E.
  - destruct (Hr prev eq_refl) as (content & Ha & Hs).
    destruct (loadingIndicators_shows content prev Hs) as (next & -> & Hn).
    split; [exact Hc |]. intros r [= <-]. eauto.
  - apply complete_none; [exact Hc | reflexivity].
Qed.

Lemma complete_generateAllImages (config : ImageConfig) (cur : GenerationResult)
    (w : App.World) :
  Reach.Complete answers w -> Reach.Complete answers (App.generateAllImages config cur w).
Proof.
  intros H. unfold App.generateAllImages. cbv zeta. apply complete_tasks.
  apply (complete_eq (App.setLoadingIndicators w)); [reflexivity .. |].
  apply complete_setLoadingIndicators. exact H.
Qed.

Lemma complete_onTextResolved (config : ImageConfig) (content : App.Content)
    (w : App.World) :
  answers content ->
  Reach.Complete answers w -> Reach.Complete answers (App.onTextResolved config content w).
Proof.
  intros Ha [Hc _]. unfold App.onTextResolved. cbv zeta.
  apply complete_setIsGeneratingText. apply complete_generateAllImages.
  apply (complete_installed content); [exact Hc | exact Ha | apply newResults_shows].
Qed.

Lemma complete_handleGenerate (w : App.World) :
  Reach.Complete answers w -> Reach.Complete answers (App.handleGenerate w).
Proof.
  intros H. unfold App.handleGenerate. destruct (negb _); [exact H |].
  apply complete_none; [exact (proj1 H) | reflexivity].
Qed.

Lemma complete_handleRegenerateImage (p : PlatformValue) (w : App.World) :
  Reach.Complete answers w -> Reach.Complete answers (App.handleRegenerateImage p w).
Proof.
  intros H. unfold App.handleRegenerateImage.
  destruct (App.results (App.state w)) as [prev |] eqn:E; [| exact H]. cbv zeta.
  assert (H1 : Reach.Complete answers
                 (App.setResults (App.loadingUpdate true p)
                    (App.setPermissionErrorRef false w))).
  { apply complete_loadingUpdate. exact H. }
  destruct (prev !! ToPropertyKey p); [exact H1 |].
  apply complete_handleApiError. exact H1.
Qed.

Lemma complete_settle (id : nat) (answer : App.Response + Thrown) (w : App.World) :
  (forall content, answer = inl (App.TextResponse content) -> answers content) ->
  Reach.Complete answers w -> Reach.Complete answers (App.settle id answer w).
Proof.
  intros Ha H. unfold App.settle.
  assert (H0 : Reach.Complete answers (App.removePending id w)) by exact H.
  destruct (App.pending w !! id) as [[config | batch p | p | r] |];
    destruct answer as [[content | url |] | error]; try exact H.
  - apply complete_onTextResolved; [apply Ha; reflexivity | exact H0].
  - apply complete_handleApiError. exact H0.
  - apply (complete_eq (App.setResults (App.imageUpdate url p) (App.removePending id w)));
      [reflexivity .. |]. apply complete_imageUpdate. exact H0.
  - apply complete_taskFailed. exact H0.
  - apply complete_imageUpdate. exact H0.
  - apply complete_handleApiError. exact H0.
  - apply (complete_afterHandler r). exact H0.
  - apply (complete_afterHandler r). exact H0.
Qed.

Lemma complete_step (w : App.World) (e : App.Event) :
  (forall id content, e = App.Resolve id (App.TextResponse content) -> answers content) ->
  Reach.Complete answers w -> Reach.Complete answers (App.step w e).
Proof.
  intros Ha H. destruct e; cbn [App.step].
  - destruct (App.hasKey _); exact H.
  - destruct (App.hasKey _); exact H.
  - destruct (App.hasKey _); exact H.
  - destruct (App.hasKey _); exact H.
  - destruct (_ && _); [apply complete_handleGenerate |]; exact H.
  - destruct (_ && _); [apply complete_handleRegenerateImage |]; exact H.
  - destruct (App.hasKey _); [exact H |]. unfold App.handleSelectKey.
    destruct (App.aistudio w); exact H.
  - apply complete_settle; [| exact H]. intros content [= ->]. exact (Ha id content eq_refl).
  - apply complete_settle; [| exact H]. intros content E. discriminate E.
Qed.

Lemma complete_run (events : list App.Event) :
  forall w,
    (forall id content, In (App.Resolve id (App.TextResponse content)) events ->
                        answers content) ->
    Reach.Complete answers w -> Reach.Complete answers (App.run w events).
Proof.
  induction events as [|e events IH]; intros w Ha H; [exact H |].
  apply IH.
  - intros id content Hin. apply (Ha id content). right. exact Hin.
  - apply complete_step; [| exact H]. intros id content ->. apply (Ha id content).
    left. reflexivity.
Qed.

End Completeness.

(** From the mounted component, with a key or without: whatever the user
    does and however the requests end, in whatever order, no exception
    escapes from the updater of [generateAllImages],
    and the result set is either empty or holds, under each of the four
    keys, a post with the text, image prompt and hashtags of one and the
    same text answer and with the platform value of that key. *)
Theorem results_stay_complete (withAistudio key : bool) (events : list App.Event) :
  let w := App.run (Reach.mounted withAistudio key) events in
  App.crashed w = false /\
  (App.results (App.state w) = None \/
   exists id content,
     In (App.Resolve id (App.TextResponse content)) events /\
     forall q : Spec.PlatformName,
       exists post,
         App.postOf w (Spec.value q) = Some post /\
         text post = Some (App.draft_text (Spec.draft content q)) /\
         imagePrompt post = Some (App.draft_imagePrompt (Spec.draft content q)) /\
         hashtags post = App.draft_hashtags (Spec.draft content q) /\
         platform post = Spec.value q).
Proof.
  cbv zeta.
  pose proof (complete_run
                (fun content => exists id, In (App.Resolve id (App.TextResponse content)) events)
                events (Reach.mounted withAistudio key)) as H.
  destruct H as [Hc Hr].
  - intros id content Hin. exists id. exact Hin.
  - apply complete_none; reflexivity.
  - split; [exact Hc |]. unfold App.postOf.
    destruct (App.results (App.state (App.run (Reach.mounted withAistudio key) events)))
      as [r |]; [right | left; reflexivity].
    destruct (Hr r eq_refl) as (content & (id & Hin) & Hs).
    exists id, content. split; [exact Hin |]. intros q.
    destruct (Hs q) as (u & l & Hq). eexists. split; [exact Hq |]. repeat split.
Qed.

(** ** What the cards show *)

(** In every world the program reaches from the mounted component, while
    there is a result set: each of the four cards gets a post; the LinkedIn, Twitter and Instagram
    cards always render, and offer a finished image for download under the
    name made of the lower-cased member string; rendering the fourth card,
    whose post has [undefined] for platform, throws exactly when the post
    has an image that is not loading, where the download name reads
    [post.platform.toLowerCase()]. *)
Theorem card_image_area (toLowerCase : string -> string) (withAistudio key : bool)
    (events : list App.Event) (q : Spec.PlatformName) :
  let w := App.run (Reach.mounted withAistudio key) events in
  App.results (App.state w) <> None ->
  exists post,
    App.postOf w (Spec.value q) = Some post /\
    match Card.cardImageArea toLowerCase w (Spec.value q) with
    | Some Card.Spinner => imageLoading post = Some true
    | Some (Card.Picture src download) =>
        imageLoading post <> Some true /\ imageUrl post = Some src /\ src <> "" /\
        exists name,
          In (name, name) Platform /\ Spec.value q = Some name /\
          download = "gemini-" +:+ toLowerCase name +:+ ".png"
    | Some Card.Placeholder =>
        imageLoading post <> Some true /\ (imageUrl post = None \/ imageUrl post = Some "")
    | None =>
        q = Spec.Facebook /\ imageLoading post <> Some true /\
        exists url, imageUrl post = Some url /\ url <> ""
    end.
Proof.
  cbv zeta. intros Hsome.
  destruct (complete_run (fun _ => True) events (Reach.mounted withAistudio key)) as [_ Hr].
  { intros; exact I. }
  { apply complete_none; reflexivity. }
  unfold Card.cardImageArea, App.postOf, App.isImageLoading.
  destruct (App.results (App.state (App.run (Reach.mounted withAistudio key) events)))
    as [r |]; [clear Hsome | contradiction].
  destruct (Hr r eq_refl) as (content & _ & Hs). destruct (Hs q) as (u & l & Hq).
  cbn [mbind option_bind]. rewrite Hq. eexists. split; [reflexivity |].
  cbn [imageLoading].
  destruct l as [[|] |]; [reflexivity | |];
    (destruct u as [url |];
     [destruct (Js.truthy url) eqn:Ht;
      [assert (Hurl : url <> "") by (intros ->; discriminate Ht);
       destruct q
      | apply truthy_empty in Ht as ->]
     |]);
    cbn [Card.imageArea imageLoading imageUrl platform Spec.value Platform_LINKEDIN
           Platform_TWITTER Platform_INSTAGRAM Platform_FACEBOOK Platform_member];
    rewrite ?Ht; cbn [Js.truthy].
  all: try (split; [discriminate |]; split; [reflexivity |]; split; [exact Hurl |];
            eexists; split; [| split; reflexivity]; cbn; tauto).
  all: try (split; [reflexivity |]; split; [discriminate |]; eauto; fail).
  all: try (split; [discriminate | right; reflexivity]).
  all: try (split; [discriminate | left; reflexivity]).
Qed.

(** After the image of the fourth platform has arrived, rendering its card
    throws. *)
Lemma card_image_area_witness :
  let w := App.run (Reach.mounted false true)
             [ App.TypeIdea coffee; App.ClickGenerate;
               App.Resolve 0 (App.TextResponse (answer "first"));
               App.Resolve 4 (App.ImageResponse (imageOf Spec.Facebook)) ] in
  Card.cardImageArea PostCard.toLowerCaseAscii w (Spec.value Spec.Facebook) = None /\
  exists post url,
    App.postOf w (Spec.value Spec.Facebook) = Some post /\
    imageUrl post = Some url /\ url <> "".
Proof.
  cbv zeta.
  assert (Hnone :
    Card.cardImageArea PostCard.toLowerCaseAscii
      (App.run (Reach.mounted false true)
         [ App.TypeIdea coffee; App.ClickGenerate;
           App.Resolve 0 (App.TextResponse (answer "first"));
           App.Resolve 4 (App.ImageResponse (imageOf Spec.Facebook)) ])
      (Spec.value Spec.Facebook) = None) by (vm_compute; reflexivity).
  assert (Hsome :
    App.results (App.state
      (App.run (Reach.mounted false true)
         [ App.TypeIdea coffee; App.ClickGenerate;
           App.Resolve 0 (App.TextResponse (answer "first"));
           App.Resolve 4 (App.ImageResponse (imageOf Spec.Facebook)) ])) <> None).
  { assert (Hb : bool_decide
                   (is_Some
                      (App.results (App.state
                         (App.run (Reach.mounted false true)
                            [ App.TypeIdea coffee; App.ClickGenerate;
                              App.Resolve 0 (App.TextResponse (answer "first"));
                              App.Resolve 4 (App.ImageResponse (imageOf Spec.Facebook)) ]))))
                 = true) by (vm_compute; reflexivity).
    apply bool_decide_eq_true_1 in Hb. intros E. rewrite E in Hb.
    destruct Hb as [r Hr]. discriminate Hr. }
  pose proof (card_image_area PostCard.toLowerCaseAscii false true
                [ App.TypeIdea coffee; App.ClickGenerate;
                  App.Resolve 0 (App.TextResponse (answer "first"));
                  App.Resolve 4 (App.ImageResponse (imageOf Spec.Facebook)) ]
                Spec.Facebook) as H.
  cbv zeta in H.
  revert Hnone Hsome H.
  generalize (App.run (Reach.mounted false true)
                [ App.TypeIdea coffee; App.ClickGenerate;
                  App.Resolve 0 (App.TextResponse (answer "first"));
                  App.Resolve 4 (App.ImageResponse (imageOf Spec.Facebook)) ]).
  intros w Hnone Hsome H.
  destruct (H Hsome) as (post & Hpost & Harea).
  split; [exact Hnone |]. rewrite Hnone in Harea.
  destruct Harea as (_ & _ & url & Hurl & Hne).
  exists post, url. auto.
Defined.

(** ** One text generation at a time *)

Lemma quiet_refl (w : App.World) : Reach.Quiet w w.
Proof. apply Reach.quiet_same; reflexivity. Qed.

Lemma quiet_trans (w w1 w2 : App.World) :
  Reach.Quiet w w1 -> Reach.Quiet w1 w2 -> Reach.Quiet w w2.
Proof.
  intros H1 H2. induction H2 as [w2 Hg Hp Hn | a w2 w3 H2 IH Ha Hg Hp Hn].
  - destruct H1 as [w1 Hg1 Hp1 Hn1 | a w0 w1 H0 Ha Hg1 Hp1 Hn1].
    + apply Reach.quiet_same; congruence.
    + apply (Reach.quiet_suspend w a w0); [exact H0 | exact Ha | congruence ..].
  - apply (Reach.quiet_suspend w a w2); [exact IH | exact Ha | exact Hg | exact Hp | exact Hn].
Qed.

Lemma quiet_flag (w w' : App.World) :
  Reach.Quiet w w' ->
  App.isGeneratingText (App.state w') = App.isGeneratingText (App.state w).
Proof. induction 1; congruence. Qed.

Lemma quiet_added (a : App.Await) (w w' : App.World) :
  Reach.generating a = false ->
  App.isGeneratingText (App.state w') = App.isGeneratingText (App.state w) ->
  App.pending w' = <[App.nextId w := a]> (App.pending w) ->
  App.nextId w' = S (App.nextId w) ->
  Reach.Quiet w w'.
Proof. intros Ha Hg Hp Hn. exact (Reach.quiet_suspend w a w w' (quiet_refl w) Ha Hg Hp Hn). Qed.

Lemma flow_eq (busy : bool) (w w' : App.World) :
  App.pending w' = App.pending w -> App.nextId w' = App.nextId w ->
  Reach.Flow busy w -> Reach.Flow busy w'.
Proof.
  intros Hp Hn [Hf Ho Hb]. split.
  - rewrite Hp, Hn. exact Hf.
  - rewrite Hp. exact Ho.
  - rewrite Hp. exact Hb.
Qed.

Lemma flow_added (busy : bool) (a : App.Await) (w w' : App.World) :
  Reach.generating a = false ->
  App.pending w' = <[App.nextId w := a]> (App.pending w) ->
  App.nextId w' = S (App.nextId w) ->
  Reach.Flow busy w -> Reach.Flow busy w'.
Proof.
  intros Ha Hp Hn [Hf Ho Hb]. split.
  - intros id b. rewrite Hp, Hn. intros [[<- _] | [_ H]]%lookup_insert_Some; [lia |].
    apply Hf in H. lia.
  - intros id id' b b'. rewrite Hp.
    intros [[_ <-] | [_ H]]%lookup_insert_Some Hg
           [[_ <-] | [_ H']]%lookup_insert_Some Hg'; try congruence.
    exact (Ho id id' b b' H Hg H' Hg').
  - rewrite Hb, Hp. split.
    + intros (id & b & H & Hg). exists id, b. split; [| exact Hg].
      rewrite lookup_insert_ne; [exact H |]. apply Hf in H. lia.
    + intros (id & b & [[_ <-] | [_ H]]%lookup_insert_Some & Hg); [congruence |].
      exists id, b. auto.
Qed.

Lemma flow_quiet (busy : bool) (w w' : App.World) :
  Reach.Quiet w w' -> Reach.Flow busy w -> Reach.Flow busy w'.
Proof.
  intros H Hw. induction H as [w' _ Hp Hn | a w1 w' _ IH Ha _ Hp Hn].
  - exact (flow_eq busy w w' Hp Hn Hw).
  - exact (flow_added busy a w1 w' Ha Hp Hn IH).
Qed.

(** A text generation starts waiting where none was. *)
Lemma flow_started (a : App.Await) (w w' : App.World) :
  Reach.generating a = true ->
  App.pending w' = <[App.nextId w := a]> (App.pending w) ->
  App.nextId w' = S (App.nextId w) ->
  Reach.Flow false w -> Reach.Flow true w'.
Proof.
  intros Ha Hp Hn [Hf Ho Hb].
  assert (Hnone : forall id b, App.pending w !! id = Some b -> Reach.generating b = false).
  { intros id b H. destruct (Reach.generating b) eqn:Hg; [| reflexivity].
    symmetry. apply Hb. eauto. }
  split.
  - intros id b. rewrite Hp, Hn. intros [[<- _] | [_ H]]%lookup_insert_Some; [lia |].
    apply Hf in H. lia.
  - intros id id' b b'. rewrite Hp.
    intros [[<- <-] | [_ H]]%lookup_insert_Some Hg
           [[<- <-] | [_ H']]%lookup_insert_Some Hg'; try reflexivity.
    + apply Hnone in H'. congruence.
    + apply Hnone in H. congruence.
    + apply Hnone in H. congruence.
  - split; [intros _ | reflexivity]. exists (App.nextId w), a.
    rewrite Hp, lookup_insert_eq. auto.
Qed.

(** The await of the text generation is over. *)
Lemma flow_finished (busy : bool) (id : nat) (a : App.Await) (w : App.World) :
  App.pending w !! id = Some a -> Reach.generating a = true ->
  Reach.Flow busy w -> busy = true /\ Reach.Flow false (App.removePending id w).
Proof.
  intros H Hg [Hf Ho Hb]. split; [apply Hb; eauto |]. split.
  - intros id' b. cbn [App.pending App.removePending App.nextId].
    intros [_ H']%lookup_delete_Some. exact (Hf id' b H').
  - intros id1 id2 b1 b2. cbn [App.pending App.removePending].
    intros [_ H1]%lookup_delete_Some Hg1 [_ H2]%lookup_delete_Some Hg2.
    exact (Ho id1 id2 b1 b2 H1 Hg1 H2 Hg2).
  - split; [discriminate |]. cbn [App.pending App.removePending].
    intros (id' & b & [Hne H']%lookup_delete_Some & Hg'). exfalso. apply Hne.
    exact (Ho id id' a b H Hg H' Hg').
Qed.

(** Another await is over. *)
Lemma flow_settled (busy : bool) (id : nat) (a : App.Await) (w : App.World) :
  App.pending w !! id = Some a -> Reach.generating a = false ->
  Reach.Flow busy w -> Reach.Flow busy (App.removePending id w).
Proof.
  intros H Hg [Hf Ho Hb]. split.
  - intros id' b. cbn [App.pending App.removePending App.nextId].
    intros [_ H']%lookup_delete_Some. exact (Hf id' b H').
  - intros id1 id2 b1 b2. cbn [App.pending App.removePending].
    intros [_ H1]%lookup_delete_Some Hg1 [_ H2]%lookup_delete_Some Hg2.
    exact (Ho id1 id2 b1 b2 H1 Hg1 H2 Hg2).
  - rewrite Hb. cbn [App.pending App.removePending]. split.
    + intros (id' & b & H' & Hg'). exists id', b. split; [| exact Hg'].
      apply lookup_delete_Some. split; [| exact H']. intros <-. congruence.
    + intros (id' & b & [_ H']%lookup_delete_Some & Hg'). eauto.
Qed.

Lemma quiet_afterHandler (r : App.Resume) (w : App.World) :
  r <> App.ResumeGenerate -> Reach.Quiet w (App.afterHandler r w).
Proof. intros Hr. destruct r; [contradiction | ..]; apply Reach.quiet_same; reflexivity. Qed.

Lemma quiet_handlerThrew (r : App.Resume) (w : App.World) :
  r <> App.ResumeGenerate -> Reach.Quiet w (App.handlerThrew r w).
Proof. intros Hr. destruct r; [contradiction | ..]; apply Reach.quiet_same; reflexivity. Qed.

Lemma quiet_handleApiError (error : Thrown) (r : App.Resume) (w : App.World) :
  r <> App.ResumeGenerate -> Reach.Quiet w (App.handleApiError error r w).
Proof.
  intros Hr. unfold App.handleApiError.
  destruct (App.isPermissionError error) as [[|] |].
  - destruct (negb (App.permissionErrorRef (App.state w))).
    + cbv zeta.
      assert (H1 : Reach.Quiet w
                     (App.emit (App.Alert App.PermissionAlert)
                        (App.setHasKey false (App.setPermissionErrorRef true w))))
        by (apply Reach.quiet_same; reflexivity).
      revert H1.
      generalize (App.emit (App.Alert App.PermissionAlert)
                    (App.setHasKey false (App.setPermissionErrorRef true w))).
      intros w1 H1. destruct (App.aistudio w1).
      * apply (quiet_trans w w1); [exact H1 |].
        apply (quiet_added (App.AwaitKey r)); [destruct r; [contradiction | ..] | ..];
          reflexivity.
      * apply (quiet_trans w w1); [exact H1 |]. apply quiet_afterHandler. exact Hr.
    + apply quiet_afterHandler. exact Hr.
  - apply quiet_afterHandler. exact Hr.
  - apply quiet_handlerThrew. exact Hr.
Qed.

Lemma quiet_callImage (a : App.Await) (prompt : option string) (p : PlatformValue)
    (config : ImageConfig) (w : App.World) :
  Reach.generating a = false -> Reach.Quiet w (App.callImage a prompt p config w).
Proof. intros Ha. apply (quiet_added a); [exact Ha | reflexivity ..]. Qed.

Lemma quiet_taskFailed (batch : nat) (p : PlatformValue) (error : Thrown) (w : App.World) :
  Reach.Quiet w (App.taskFailed batch p error w).
Proof.
  unfold App.taskFailed. destruct (negb _).
  - apply quiet_handleApiError. discriminate.
  - apply quiet_afterHandler. discriminate.
Qed.

Lemma quiet_startTask (batch : nat) (config : ImageConfig) (cur : GenerationResult)
    (w : App.World) (p : PlatformValue) :
  Reach.Quiet w (App.startTask batch config cur w p).
Proof.
  unfold App.startTask. destruct (App.permissionErrorRef (App.state w)).
  - apply Reach.quiet_same; reflexivity.
  - destruct (cur !! ToPropertyKey p).
    + apply quiet_callImage. reflexivity.
    + apply quiet_taskFailed.
Qed.

Lemma quiet_tasks (batch : nat) (config : ImageConfig) (cur : GenerationResult)
    (ps : list PlatformValue) :
  forall w, Reach.Quiet w (fold_left (App.startTask batch config cur) ps w).
Proof.
  induction ps as [|p ps IH]; intros w; [apply quiet_refl |].
  exact (quiet_trans _ _ _ (quiet_startTask batch config cur w p) (IH _)).
Qed.

Lemma quiet_setResults (f : option GenerationResult -> option GenerationResult)
    (w : App.World) :
  Reach.Quiet w (App.setResults f w).
Proof. apply Reach.quiet_same; reflexivity. Qed.

Lemma quiet_setLoadingIndicators (w : App.World) : Reach.Quiet w (App.setLoadingIndicators w).
Proof.
  unfold App.setLoadingIndicators. destruct (App.results (App.state w)) as [prev |].
  - destruct (App.loadingIndicators prev); [apply quiet_setResults |].
    apply Reach.quiet_same; reflexivity.
  - apply quiet_setResults.
Qed.

Lemma quiet_newPromises (batch : nat) (w : App.World) : Reach.Quiet w (App.newPromises batch w).
Proof. apply Reach.quiet_same; reflexivity. Qed.

Lemma quiet_generateAllImages (config : ImageConfig) (cur : GenerationResult)
    (w : App.World) :
  Reach.Quiet w (App.generateAllImages config cur w).
Proof.
  unfold App.generateAllImages. cbv zeta.
  eapply quiet_trans; [apply quiet_setLoadingIndicators |].
  eapply quiet_trans; [apply quiet_newPromises |]. apply quiet_tasks.
Qed.

Lemma quiet_handleRegenerateImage (p : PlatformValue) (w : App.World) :
  Reach.Quiet w (App.handleRegenerateImage p w).
Proof.
  unfold App.handleRegenerateImage.
  destruct (App.results (App.state w)) as [prev |]; [| apply quiet_refl]. cbv zeta.
  assert (H1 : Reach.Quiet w (App.setResults (App.loadingUpdate true p)
                                (App.setPermissionErrorRef false w)))
    by (apply Reach.quiet_same; reflexivity).
  destruct (prev !! ToPropertyKey p).
  - eapply quiet_trans; [exact H1 |]. apply quiet_callImage. reflexivity.
  - eapply quiet_trans; [exact H1 |]. apply quiet_handleApiError. discriminate.
Qed.

(** The invariant: the flag [isGeneratingText] tells whether the text
    generation awaits something. *)
Lemma flow_calm (w w' : App.World) :
  Reach.Quiet w w' ->
  Reach.Flow (App.isGeneratingText (App.state w)) w ->
  Reach.Flow (App.isGeneratingText (App.state w')) w'.
Proof. intros H Hw. rewrite (quiet_flag w w' H). exact (flow_quiet _ w w' H Hw). Qed.

Lemma flow_idle (w : App.World) :
  Reach.Flow false w ->
  Reach.Flow (App.isGeneratingText (App.state (App.setIsGeneratingText false w)))
    (App.setIsGeneratingText false w).
Proof. intros H. apply (flow_eq false w); [reflexivity .. | exact H]. Qed.

Lemma flow_afterGenerate (w : App.World) :
  Reach.Flow false w ->
  Reach.Flow (App.isGeneratingText (App.state (App.afterHandler App.ResumeGenerate w)))
    (App.afterHandler App.ResumeGenerate w).
Proof.
  intros H. cbn [App.afterHandler].
  destruct (negb _); (apply (flow_eq false w); [reflexivity .. | exact H]).
Qed.

Lemma flow_generateFailed (error : Thrown) (w : App.World) :
  App.isGeneratingText (App.state w) = true ->
  Reach.Flow false w ->
  Reach.Flow (App.isGeneratingText (App.state (App.handleApiError error App.ResumeGenerate w)))
    (App.handleApiError error App.ResumeGenerate w).
Proof.
  intros Hg H. unfold App.handleApiError.
  destruct (App.isPermissionError error) as [[|] |].
  - destruct (negb (App.permissionErrorRef (App.state w))).
    + cbv zeta.
      assert (H1 : Reach.Flow false
                     (App.emit (App.Alert App.PermissionAlert)
                        (App.setHasKey false (App.setPermissionErrorRef true w))))
        by (apply (flow_eq false w); [reflexivity .. | exact H]).
      assert (Hg1 : App.isGeneratingText
                      (App.state (App.emit (App.Alert App.PermissionAlert)
                                    (App.setHasKey false (App.setPermissionErrorRef true w))))
                    = true) by exact Hg.
      revert H1 Hg1.
      generalize (App.emit (App.Alert App.PermissionAlert)
                    (App.setHasKey false (App.setPermissionErrorRef true w))).
      intros w1 H1 Hg1. destruct (App.aistudio w1).
      * cbn [App.suspend App.emit App.state App.isGeneratingText]. rewrite Hg1.
        apply (flow_started (App.AwaitKey App.ResumeGenerate) w1); [reflexivity .. | exact H1].
      * apply flow_afterGenerate. exact H1.
    + apply flow_afterGenerate. exact H.
  - apply flow_afterGenerate. exact H.
  - apply (flow_eq false w); [reflexivity .. | exact H].
Qed.

Lemma flow_handleGenerate (w : App.World) :
  App.isGeneratingText (App.state w) = false ->
  Reach.Flow false w ->
  Reach.Flow (App.isGeneratingText (App.state (App.handleGenerate w))) (App.handleGenerate w).
Proof.
  intros Hg H. unfold App.handleGenerate. destruct (negb _); [rewrite Hg; exact H |].
  cbv zeta. apply (flow_started (App.AwaitText (App.currentConfig w)) w);
    [reflexivity .. | exact H].
Qed.

Lemma flow_onTextResolved (config : ImageConfig) (content : App.Content) (w : App.World) :
  Reach.Flow false w ->
  Reach.Flow (App.isGeneratingText (App.state (App.onTextResolved config content w)))
    (App.onTextResolved config content w).
Proof.
  intros H. unfold App.onTextResolved. cbv zeta. apply flow_idle.
  eapply flow_quiet; [| exact H].
  eapply quiet_trans; [apply quiet_setResults |]. apply quiet_generateAllImages.
Qed.

Lemma flow_settle (id : nat) (answer : App.Response + Thrown) (w : App.World) :
  Reach.Flow (App.isGeneratingText (App.state w)) w ->
  Reach.Flow (App.isGeneratingText (App.state (App.settle id answer w)))
    (App.settle id answer w).
Proof.
  intros H. unfold App.settle.
  destruct (App.pending w !! id) as [a |] eqn:Hid; [| exact H].
  destruct (Reach.generating a) eqn:Hg.
  - destruct (flow_finished _ id a w Hid Hg H) as [Hbusy H0].
    assert (Hbusy0 : App.isGeneratingText (App.state (App.removePending id w)) = true)
      by exact Hbusy.
    destruct a as [config | batch p | p | [| batch p | p |]]; try discriminate Hg;
      destruct answer as [[content | url |] | error]; try exact H.
    + apply flow_onTextResolved. exact H0.
    + apply flow_generateFailed; [exact Hbusy0 | exact H0].
    + apply flow_afterGenerate.
      apply (flow_eq false (App.removePending id w)); [reflexivity .. | exact H0].
    + apply flow_afterGenerate. exact H0.
  - pose proof (flow_settled _ id a w Hid Hg H) as H0.
    change (App.isGeneratingText (App.state w))
      with (App.isGeneratingText (App.state (App.removePending id w))) in H0.
    destruct a as [config | batch p | p | r]; try discriminate Hg;
      destruct answer as [[content | url |] | error]; try exact H;
      (eapply flow_calm; [| exact H0]).
    + apply Reach.quiet_same; reflexivity.
    + apply quiet_taskFailed.
    + apply quiet_setResults.
    + apply quiet_handleApiError. discriminate.
    + unfold App.onKeySelected.
      eapply quiet_trans; [| apply quiet_afterHandler; intros ->; discriminate Hg].
      apply Reach.quiet_same; reflexivity.
    + apply quiet_afterHandler. intros ->. discriminate Hg.
Qed.

Lemma flow_step (w : App.World) (e : App.Event) :
  Reach.Flow (App.isGeneratingText (App.state w)) w ->
  Reach.Flow (App.isGeneratingText (App.state (App.step w e))) (App.step w e).
Proof.
  intros H. destruct e; cbn [App.step].
  - destruct (App.hasKey _); [| exact H]. eapply flow_calm; [| exact H].
    apply Reach.quiet_same; reflexivity.
  - destruct (App.hasKey _); [| exact H]. eapply flow_calm; [| exact H].
    apply Reach.quiet_same; reflexivity.
  - destruct (App.hasKey _); [| exact H]. eapply flow_calm; [| exact H].
    apply Reach.quiet_same; reflexivity.
  - destruct (App.hasKey _); [| exact H]. eapply flow_calm; [| exact H].
    apply Reach.quiet_same; reflexivity.
  - destruct (App.hasKey _); [| exact H].
    destruct (App.isGeneratingText (App.state w)) eqn:Hg; cbn [negb andb];
      [rewrite Hg; exact H |].
    destruct (Js.truthy _); [| rewrite Hg; exact H].
    apply flow_handleGenerate; [exact Hg | exact H].
  - destruct (_ && _); [| exact H]. eapply flow_calm; [| exact H].
    apply quiet_handleRegenerateImage.
  - destruct (App.hasKey _); [exact H |]. unfold App.handleSelectKey.
    destruct (App.aistudio w); [| exact H]. eapply flow_calm; [| exact H].
    apply (quiet_added (App.AwaitKey App.ResumeSelectKey)); reflexivity.
  - apply flow_settle. exact H.
  - apply flow_settle. exact H.
Qed.

Lemma flow_run (events : list App.Event) :
  forall w,
    Reach.Flow (App.isGeneratingText (App.state w)) w ->
    Reach.Flow (App.isGeneratingText (App.state (App.run w events))) (App.run w events).
Proof.
  induction events as [|e events IH]; intros w H; [exact H |].
  apply IH. apply flow_step. exact H.
Qed.

(** From the mounted component, with a key or without, whatever the user
    does and however the requests end: the generate button is disabled by
    [isGeneratingText] exactly while the text
    generation awaits its text request, or the key selection that the
    failure of that request opened; never do two such awaits exist at a
    time; and every request in flight has a number below the next one. *)
Theorem one_generation_in_flight (withAistudio key : bool) (events : list App.Event) :
  let w := App.run (Reach.mounted withAistudio key) events in
  (App.isGeneratingText (App.state w) = true
   <-> exists id a, App.pending w !! id = Some a /\
                    (a = App.AwaitKey App.ResumeGenerate \/ exists config, a = App.AwaitText config)) /\
  (forall id id' a a',
      App.pending w !! id = Some a -> Reach.generating a = true ->
      App.pending w !! id' = Some a' -> Reach.generating a' = true -> id = id') /\
  (forall id a, App.pending w !! id = Some a -> id < App.nextId w).
Proof.
  cbv zeta.
  destruct (flow_run events (Reach.mounted withAistudio key)) as [Hf Ho Hb].
  { split; cbn [Reach.mounted App.pending App.state App.isGeneratingText].
    - intros id a H. rewrite lookup_empty in H. discriminate H.
    - intros id id' a a' H. rewrite lookup_empty in H. discriminate H.
    - split; [discriminate |]. intros (id & a & H & _). rewrite lookup_empty in H.
      discriminate H. }
  split; [| split; [exact Ho | exact Hf]].
  rewrite Hb. split.
  - intros (id & a & H & Hg). exists id, a. split; [exact H |].
    destruct a as [config | | | []]; try discriminate Hg; eauto.
  - intros (id & a & H & [-> | [config ->]]); exists id; eauto.
Qed.

(** ** A spinner has a request behind it *)

Lemma backed_weaken (K K' : list string) (w : App.World) :
  (forall k, In k K -> In k K') -> Reach.Backed K w -> Reach.Backed K' w.
Proof.
  intros HK [Hf Hl]. split; [exact Hf |]. intros k Hk.
  destruct (Hl k Hk) as [H | H]; [left; apply HK; exact H | right; exact H].
Qed.

Lemma backed_eq (K : list string) (w w' : App.World) :
  App.results (App.state w') = App.results (App.state w) ->
  App.pending w' = App.pending w ->
  App.nextId w' = App.nextId w ->
  Reach.Backed K w -> Reach.Backed K w'.
Proof.
  unfold Reach.Backed, Reach.Awaited, Reach.loadingAt. intros -> -> ->. tauto.
Qed.

(** No post is loading in a result set that is empty or new. *)
Lemma backed_fresh (K K' : list string) (w w' : App.World) :
  (forall k, Reach.loadingAt w' k = false) ->
  App.pending w' = App.pending w ->
  App.nextId w' = App.nextId w ->
  Reach.Backed K w -> Reach.Backed K' w'.
Proof.
  intros Hl Hp Hn [Hf _]. split.
  - rewrite Hp, Hn. exact Hf.
  - intros k Hk. rewrite Hl in Hk. discriminate Hk.
Qed.

Lemma loadingAt_update (g : GeneratedPost -> GeneratedPost) (b : bool) (p : PlatformValue)
    (w w' : App.World) (k : string) :
  (forall post, imageLoading (g post) = Some b) ->
  App.results (App.state w')
  = match App.results (App.state w) with
    | None => None
    | Some prev =>
        Some (<[ToPropertyKey p := g (App.spread (prev !! ToPropertyKey p))]> prev)
    end ->
  Reach.loadingAt w' k = true ->
  (k = ToPropertyKey p /\ b = true) \/ (k <> ToPropertyKey p /\ Reach.loadingAt w k = true).
Proof.
  intros Hg Hr. unfold Reach.loadingAt. rewrite Hr.
  destruct (App.results (App.state w)) as [prev |]; [| discriminate].
  destruct (decide (k = ToPropertyKey p)) as [-> | Hne].
  - rewrite lookup_insert_eq, Hg. intros ->. left. auto.
  - rewrite lookup_insert_ne by congruence. intros H. right. auto.
Qed.

(** The loading flag of a post is cleared, or its image stored. *)
Lemma backed_cleared (g : GeneratedPost -> GeneratedPost) (K : list string)
    (p : PlatformValue) (w w' : App.World) :
  (forall post, imageLoading (g post) = Some false) ->
  App.results (App.state w')
  = match App.results (App.state w) with
    | None => None
    | Some prev =>
        Some (<[ToPropertyKey p := g (App.spread (prev !! ToPropertyKey p))]> prev)
    end ->
  App.pending w' = App.pending w ->
  App.nextId w' = App.nextId w ->
  Reach.Backed (ToPropertyKey p :: K) w -> Reach.Backed K w'.
Proof.
  intros Hg Hr Hp Hn [Hf Hl]. split.
  - rewrite Hp, Hn. exact Hf.
  - intros k Hk.
    destruct (loadingAt_update g false p w w' k Hg Hr Hk) as [[_ H] | [Hne H]];
      [discriminate H |].
    destruct (Hl k H) as [[E | Hin] | Ha].
    + congruence.
    + left. exact Hin.
    + right. unfold Reach.Awaited. rewrite Hp. exact Ha.
Qed.

(** The loading flag of a post is set. *)
Lemma backed_marked (K : list string) (p : PlatformValue) (w w' : App.World) :
  App.results (App.state w') = App.loadingUpdate true p (App.results (App.state w)) ->
  App.pending w' = App.pending w ->
  App.nextId w' = App.nextId w ->
  Reach.Backed K w -> Reach.Backed (ToPropertyKey p :: K) w'.
Proof.
  intros Hr Hp Hn [Hf Hl]. split.
  - rewrite Hp, Hn. exact Hf.
  - intros k Hk.
    destruct (loadingAt_update (App.withImageLoading true) true p w w' k
                (fun _ => eq_refl) Hr Hk) as [[-> _] | [Hne H]].
    + left. left. reflexivity.
    + destruct (Hl k H) as [Hin | Ha].
      * left. right. exact Hin.
      * right. unfold Reach.Awaited. rewrite Hp. exact Ha.
Qed.

(** An [await] begins. *)
Lemma backed_suspended (K : list string) (a : App.Await) (w w' : App.World) :
  App.results (App.state w') = App.results (App.state w) ->
  App.pending w' = <[App.nextId w := a]> (App.pending w) ->
  App.nextId w' = S (App.nextId w) ->
  Reach.Backed (Reach.keysOf a ++ K) w -> Reach.Backed K w'.
Proof.
  intros Hr Hp Hn [Hf Hl]. split.
  - intros id b. rewrite Hp, Hn. intros [[<- _] | [_ H]]%lookup_insert_Some; [lia |].
    apply Hf in H. lia.
  - intros k Hk. unfold Reach.loadingAt in Hk. rewrite Hr in Hk.
    destruct (Hl k Hk) as [Hin | (id & b & H & Hb)].
    + apply in_app_or in Hin as [Hin | Hin]; [| left; exact Hin].
      right. exists (App.nextId w), a. rewrite Hp, lookup_insert_eq. split; [reflexivity |].
      unfold Reach.keysOf in Hin. destruct (Reach.awaitedKey a) as [k' |]; [| destruct Hin].
      destruct Hin as [-> | []]. reflexivity.
    + right. exists id, b. rewrite Hp. split; [| exact Hb].
      rewrite lookup_insert_ne; [exact H |]. apply Hf in H. lia.
Qed.

(** An [await] is over. *)
Lemma backed_removed (K : list string) (id : nat) (a : App.Await) (w : App.World) :
  App.pending w !! id = Some a ->
  Reach.Backed K w -> Reach.Backed (Reach.keysOf a ++ K) (App.removePending id w).
Proof.
  intros Hid [Hf Hl]. split.
  - intros id' b. cbn [App.pending App.removePending App.nextId].
    intros [_ H]%lookup_delete_Some. exact (Hf id' b H).
  - intros k Hk. destruct (Hl k Hk) as [Hin | (id' & b & H & Hb)].
    + left. apply in_or_app. right. exact Hin.
    + destruct (decide (id' = id)) as [-> | Hne].
      * left. apply in_or_app. left. unfold Reach.keysOf.
        assert (b = a) as -> by congruence. rewrite Hb. left. reflexivity.
      * right. exists id', b. split; [| exact Hb]. cbn [App.pending App.removePending].
        apply lookup_delete_Some. auto.
Qed.

Lemma backed_afterHandler (K : list string) (r : App.Resume) (w : App.World) :
  Reach.Backed (Reach.keysOf (App.AwaitKey r) ++ K) w ->
  Reach.Backed K (App.afterHandler r w).
Proof.
  intros H. destruct r as [| batch p | p |]; cbn [App.afterHandler].
  - apply (backed_eq K w); [destruct (negb _); reflexivity .. | exact H].
  - apply (backed_cleared (App.withImageLoading false) K p w);
      [reflexivity .. | exact H].
  - apply (backed_cleared (App.withImageLoading false) K p w);
      [reflexivity .. | exact H].
  - exact H.
Qed.

Lemma backed_handleApiError (K : list string) (error : Thrown) (r : App.Resume)
    (w : App.World) :
  App.isPermissionError error <> None ->
  Reach.Backed (Reach.keysOf (App.AwaitKey r) ++ K) w ->
  Reach.Backed K (App.handleApiError error r w).
Proof.
  intros Hc H. unfold App.handleApiError.
  destruct (App.isPermissionError error) as [[|] |]; [| | contradiction].
  - destruct (negb (App.permissionErrorRef (App.state w))).
    + cbv zeta.
      assert (H1 : Reach.Backed (Reach.keysOf (App.AwaitKey r) ++ K)
                     (App.emit (App.Alert App.PermissionAlert)
                        (App.setHasKey false (App.setPermissionErrorRef true w))))
        by exact H.
      revert H1.
      generalize (App.emit (App.Alert App.PermissionAlert)
                    (App.setHasKey false (App.setPermissionErrorRef true w))).
      intros w1 H1. destruct (App.aistudio w1).
      * apply (backed_suspended K (App.AwaitKey r) w1); [reflexivity .. | exact H1].
      * apply backed_afterHandler. exact H1.
    + apply backed_afterHandler. exact H.
  - apply backed_afterHandler. exact H.
Qed.

Lemma backed_taskFailed (K : list string) (batch : nat) (p : PlatformValue)
    (error : Thrown) (w : App.World) :
  App.isPermissionError error <> None ->
  Reach.Backed (ToPropertyKey p :: K) w ->
  Reach.Backed K (App.taskFailed batch p error w).
Proof.
  intros Hc H. unfold App.taskFailed. destruct (negb _).
  - apply backed_handleApiError; [exact Hc | exact H].
  - apply (backed_afterHandler K (App.ResumeTask batch p)). exact H.
Qed.

Lemma readOfUndefined_classified : App.isPermissionError App.readOfUndefined <> None.
Proof. vm_compute. discriminate. Qed.

Lemma backed_startTask (K : list string) (batch : nat) (config : ImageConfig)
    (cur : GenerationResult) (w : App.World) (p : PlatformValue) :
  Reach.Backed (ToPropertyKey p :: K) w ->
  Reach.Backed K (App.startTask batch config cur w p).
Proof.
  intros H. unfold App.startTask. destruct (App.permissionErrorRef (App.state w)).
  - apply (backed_afterHandler K (App.ResumeTask batch p)). exact H.
  - destruct (cur !! ToPropertyKey p).
    + apply (backed_suspended K (App.AwaitImage batch p) w); [reflexivity .. | exact H].
    + apply backed_taskFailed; [exact readOfUndefined_classified | exact H].
Qed.

Lemma backed_tasks (K : list string) (batch : nat) (config : ImageConfig)
    (cur : GenerationResult) (ps : list PlatformValue) :
  forall w,
    Reach.Backed (map ToPropertyKey ps ++ K) w ->
    Reach.Backed K (fold_left (App.startTask batch config cur) ps w).
Proof.
  induction ps as [|p ps IH]; intros w H; [exact H |].
  cbn [fold_left]. apply IH. apply backed_startTask.
  apply (backed_weaken (map ToPropertyKey (p :: ps) ++ K)); [| exact H].
  intros k. cbn [map app In]. rewrite !in_app_iff. cbn [In]. tauto.
Qed.

Lemma markLoading_loading (r r' : GenerationResult) (p : PlatformValue) (k : string)
    (post : GeneratedPost) :
  App.markLoading (Some r) p = Some r' ->
  r' !! k = Some post -> imageLoading post = Some true ->
  k = ToPropertyKey p \/ r !! k = Some post.
Proof.
  unfold App.markLoading. destruct (r !! ToPropertyKey p) as [old |]; [| discriminate].
  intros [= <-]. destruct (decide (k = ToPropertyKey p)) as [-> | Hne]; [auto |].
  rewrite lookup_insert_ne by congruence. auto.
Qed.

Lemma loadingIndicators_loading (r r' : GenerationResult) (k : string)
    (post : GeneratedPost) :
  App.loadingIndicators r = Some r' ->
  r' !! k = Some post -> imageLoading post = Some true ->
  In k (map ToPropertyKey App.platforms) \/ r !! k = Some post.
Proof.
  unfold App.loadingIndicators, App.platforms. cbn [fold_left map].
  destruct (App.markLoading (Some r) Platform_LINKEDIN) as [r1 |] eqn:E1;
    [| discriminate].
  destruct (App.markLoading (Some r1) Platform_TWITTER) as [r2 |] eqn:E2;
    [| discriminate].
  destruct (App.markLoading (Some r2) Platform_INSTAGRAM) as [r3 |] eqn:E3;
    [| discriminate].
  intros E4 Hk Hl.
  destruct (markLoading_loading r3 r' _ k post E4 Hk Hl) as [-> | H3]; [cbn [In]; tauto |].
  destruct (markLoading_loading r2 r3 _ k post E3 H3 Hl) as [-> | H2]; [cbn [In]; tauto |].
  destruct (markLoading_loading r1 r2 _ k post E2 H2 Hl) as [-> | H1]; [cbn [In]; tauto |].
  destruct (markLoading_loading r r1 _ k post E1 H1 Hl) as [-> | H0]; [cbn [In]; tauto |].
  right. exact H0.
Qed.

Lemma backed_setLoadingIndicators (K : list string) (w : App.World) :
  Reach.Backed K w ->
  Reach.Backed (map ToPropertyKey App.platforms ++ K) (App.setLoadingIndicators w).
Proof.
  intros H. unfold App.setLoadingIndicators.
  assert (Hw : Reach.Backed (map ToPropertyKey App.platforms ++ K) w).
  { apply (backed_weaken K); [| exact H]. intros k Hk. apply in_or_app. auto. }
  destruct (App.results (App.state w)) as [prev |] eqn:E.
  - destruct (App.loadingIndicators prev) as [next |] eqn:En; [| exact Hw].
    destruct H as [Hf Hl]. split; [exact Hf |]. intros k.
    unfold Reach.loadingAt.
    change (App.results (App.state (App.setResults (fun _ => Some next) w)))
      with (Some next).
    cbv beta iota.
    destruct (next !! k) as [post |] eqn:Hk; [| discriminate].
    destruct (imageLoading post) as [[|] |] eqn:Hp; try discriminate. intros _.
    destruct (loadingIndicators_loading prev next k post En Hk Hp) as [Hin | H0].
    + left. apply in_or_app. auto.
    + destruct (Hl k) as [Hin | Ha].
      * unfold Reach.loadingAt. rewrite E, H0, Hp. reflexivity.
      * left. apply in_or_app. auto.
      * right. exact Ha.
  - apply (backed_fresh K _ w); [| reflexivity .. | exact H]. intros k. reflexivity.
Qed.

Lemma backed_generateAllImages (K : list string) (config : ImageConfig)
    (cur : GenerationResult) (w : App.World) :
  Reach.Backed K w -> Reach.Backed K (App.generateAllImages config cur w).
Proof.
  intros H. unfold App.generateAllImages. cbv zeta. apply backed_tasks.
  apply (backed_eq _ (App.setLoadingIndicators w)); [reflexivity .. |].
  apply backed_setLoadingIndicators. exact H.
Qed.

Lemma newPost_idle (d : App.Draft) (p : PlatformValue) : imageLoading (App.newPost d p) = None.
Proof. reflexivity. Qed.

Lemma newResults_idle (content : App.Content) (k : string) (post : GeneratedPost) :
  App.newResults content !! k = Some post -> imageLoading post = None.
Proof.
  unfold App.newResults.
  intros [[_ <-] | [_ H]]%lookup_insert_Some; [reflexivity |]. revert H.
  intros [[_ <-] | [_ H]]%lookup_insert_Some; [reflexivity |]. revert H.
  intros [[_ <-] | [_ H]]%lookup_insert_Some; [reflexivity |]. revert H.
  intros [[_ <-] | [_ H]]%lookup_insert_Some; [reflexivity |].
  rewrite lookup_empty in H. discriminate H.
Qed.

Lemma backed_installed (K : list string) (r0 : GenerationResult) (w : App.World) :
  (forall k post, r0 !! k = Some post -> imageLoading post = None) ->
  Reach.Backed K w ->
  Reach.Backed K (App.setResults (fun _ => Some r0) w).
Proof.
  intros H0 H. apply (backed_fresh K K w); [| reflexivity .. | exact H].
  intros k. unfold Reach.loadingAt.
  change (App.results (App.state (App.setResults (fun _ => Some r0) w))) with (Some r0).
  cbv beta iota.
  destruct (r0 !! k) as [post |] eqn:Hk; [| reflexivity].
  rewrite (H0 k post Hk). reflexivity.
Qed.

Lemma backed_setIsGeneratingText (K : list string) (b : bool) (w : App.World) :
  Reach.Backed K w -> Reach.Backed K (App.setIsGeneratingText b w).
Proof. intros H. exact H. Qed.

Lemma backed_onTextResolved (K : list string) (config : ImageConfig)
    (content : App.Content) (w : App.World) :
  Reach.Backed K w -> Reach.Backed K (App.onTextResolved config content w).
Proof.
  intros H. unfold App.onTextResolved. cbv zeta.
  apply backed_setIsGeneratingText. apply backed_generateAllImages.
  apply backed_installed; [apply newResults_idle | exact H].
Qed.

Lemma backed_handleGenerate (K : list string) (w : App.World) :
  Reach.Backed K w -> Reach.Backed K (App.handleGenerate w).
Proof.
  intros H. unfold App.handleGenerate. destruct (negb _); [exact H |]. cbv zeta.
  apply (backed_suspended K (App.AwaitText (App.currentConfig w))
           (App.nextCycle (App.setPermissionErrorRef false
              (App.setResults (fun _ => None) (App.setIsGeneratingText true w)))));
    [reflexivity .. |].
  apply (backed_fresh K _ w); [| reflexivity .. | exact H]. intros k. reflexivity.
Qed.

Lemma backed_handleRegenerateImage (K : list string) (p : PlatformValue) (w : App.World) :
  Reach.Backed K w -> Reach.Backed K (App.handleRegenerateImage p w).
Proof.
  intros H. unfold App.handleRegenerateImage.
  destruct (App.results (App.state w)) as [prev |] eqn:E; [| exact H]. cbv zeta.
  assert (H1 : Reach.Backed (ToPropertyKey p :: K)
                 (App.setResults (App.loadingUpdate true p)
                    (App.setPermissionErrorRef false w))).
  { apply (backed_marked K p w); [reflexivity .. | exact H]. }
  destruct (prev !! ToPropertyKey p).
  - apply (backed_suspended K (App.AwaitRegenerate p)
             (App.setResults (App.loadingUpdate true p) (App.setPermissionErrorRef false w)));
      [reflexivity .. | exact H1].
  - apply backed_handleApiError; [exact readOfUndefined_classified | exact H1].
Qed.

Lemma backed_settle (id : nat) (answer : App.Response + Thrown) (w : App.World) :
  (forall error, answer = inr error -> App.isPermissionError error <> None) ->
  Reach.Backed [] w -> Reach.Backed [] (App.settle id answer w).
Proof.
  intros Hc H. unfold App.settle.
  destruct (App.pending w !! id) as [a |] eqn:Hid; [| exact H].
  pose proof (backed_removed [] id a w Hid H) as H0.
  destruct a as [config | batch p | p | r];
    destruct answer as [[content | url |] | error]; try exact H.
  - apply backed_onTextResolved. exact H0.
  - apply backed_handleApiError; [apply Hc; reflexivity | exact H0].
  - apply (backed_cleared (App.withImage url) [] p (App.removePending id w));
      [reflexivity .. | exact H0].
  - apply backed_taskFailed; [apply Hc; reflexivity | exact H0].
  - apply (backed_cleared (App.withImage url) [] p (App.removePending id w));
      [reflexivity .. | exact H0].
  - apply backed_handleApiError; [apply Hc; reflexivity | exact H0].
  - apply backed_afterHandler. exact H0.
  - apply backed_afterHandler. exact H0.
Qed.

Lemma backed_step (w : App.World) (e : App.Event) :
  (forall id error, e = App.Reject id error -> App.isPermissionError error <> None) ->
  Reach.Backed [] w -> Reach.Backed [] (App.step w e).
Proof.
  intros Hc H. destruct e; cbn [App.step].
  - destruct (App.hasKey _); exact H.
  - destruct (App.hasKey _); exact H.
  - destruct (App.hasKey _); exact H.
  - destruct (App.hasKey _); exact H.
  - destruct (_ && _); [apply backed_handleGenerate |]; exact H.
  - destruct (_ && _); [apply backed_handleRegenerateImage |]; exact H.
  - destruct (App.hasKey _); [exact H |]. unfold App.handleSelectKey.
    destruct (App.aistudio w); [| exact H].
    apply (backed_suspended [] (App.AwaitKey App.ResumeSelectKey) w);
      [reflexivity .. | exact H].
  - apply backed_settle; [| exact H]. intros error E. discriminate E.
  - apply backed_settle; [| exact H]. intros error' [= <-]. exact (Hc id error eq_refl).
Qed.

Lemma backed_run (events : list App.Event) :
  forall w,
    (forall id error, In (App.Reject id error) events ->
                      App.isPermissionError error <> None) ->
    Reach.Backed [] w -> Reach.Backed [] (App.run w events).
Proof.
  induction events as [|e events IH]; intros w Hc H; [exact H |].
  apply IH.
  - intros id error Hin. apply (Hc id error). right. exact Hin.
  - apply backed_step; [| exact H]. intros id error ->. apply (Hc id error).
    left. reflexivity.
Qed.

(** From the mounted component, as long as every thrown value has a display
    string (so that [handleApiError] itself does not throw): whenever a card
    shows the spinner, something is in flight for its post, either an image
    request or the key selection opened when one failed.  In particular no
    spinner is left when nothing is in flight. *)
Theorem spinner_has_a_request (withAistudio key : bool) (events : list App.Event)
    (platform : PlatformValue) :
  (forall id error, In (App.Reject id error) events ->
                    App.isPermissionError error <> None) ->
  let w := App.run (Reach.mounted withAistudio key) events in
  App.isImageLoading w platform = true ->
  exists id a,
    App.pending w !! id = Some a /\
    ((exists batch p, ToPropertyKey p = ToPropertyKey platform /\
                      (a = App.AwaitImage batch p \/
                       a = App.AwaitKey (App.ResumeTask batch p))) \/
     (exists p, ToPropertyKey p = ToPropertyKey platform /\
                (a = App.AwaitRegenerate p \/ a = App.AwaitKey (App.ResumeRegenerate p)))).
Proof.
  intros Hc. cbv zeta. intros Hl.
  destruct (backed_run events (Reach.mounted withAistudio key) Hc) as [_ Hb].
  { split.
    - intros id a H. cbn [Reach.mounted App.pending] in H. rewrite lookup_empty in H.
      discriminate H.
    - intros k Hk. discriminate Hk. }
  destruct (Hb (ToPropertyKey platform) Hl) as [[] | (id & a & H & Ha)].
  exists id, a. split; [exact H |].
  destruct a as [config | batch p | p | [| batch p | p |]];
    cbn [Reach.awaitedKey] in Ha; try discriminate Ha;
    injection Ha as Ha.
  - left. exists batch, p. auto.
  - right. exists p. auto.
  - left. exists batch, p. auto.
  - right. exists p. auto.
Qed.

(** After a generation whose LinkedIn request failed with a network error,
    the Twitter card shows the spinner, and its request is in flight. *)
Lemma spinner_has_a_request_witness :
  let w := App.run (Reach.mounted false true)
             [ App.TypeIdea coffee; App.ClickGenerate;
               App.Resolve 0 (App.TextResponse (answer "first"));
               App.Reject 1 networkError ] in
  App.isImageLoading w Platform_TWITTER = true /\
  exists id a, App.pending w !! id = Some a /\ Reach.awaitedKey a = Some "TWITTER".
Proof.
  cbv zeta.
  assert (Hl : App.isImageLoading
                 (App.run (Reach.mounted false true)
                    [ App.TypeIdea coffee; App.ClickGenerate;
                      App.Resolve 0 (App.TextResponse (answer "first"));
                      App.Reject 1 networkError ])
                 Platform_TWITTER = true) by (vm_compute; reflexivity).
  assert (Hc : forall id error,
             In (App.Reject id error)
                [ App.TypeIdea coffee; App.ClickGenerate;
                  App.Resolve 0 (App.TextResponse (answer "first"));
                  App.Reject 1 networkError ] ->
             App.isPermissionError error <> None).
  { intros id error [H | [H | [H | [H | []]]]]; try discriminate H.
    injection H as _ <-. vm_compute. discriminate. }
  pose proof (spinner_has_a_request false true _ Platform_TWITTER Hc) as H.
  cbv zeta in H. revert Hl H.
  generalize (App.run (Reach.mounted false true)
                [ App.TypeIdea coffee; App.ClickGenerate;
                  App.Resolve 0 (App.TextResponse (answer "first"));
                  App.Reject 1 networkError ]).
  intros w Hl H. split; [exact Hl |].
  destruct (H Hl) as (id & a & Hid & Ha). exists id, a. split; [exact Hid |].
  destruct Ha as [(batch & p & Hp & [-> | ->]) | (p & Hp & [-> | ->])];
    cbn [Reach.awaitedKey]; rewrite Hp; reflexivity.
Defined.

(** ** The display string of a thrown value *)

Lemma errorMessage_value_other (v : Json.Value) :
  (forall s, v <> Json.Str s) ->
  App.errorMessage (ThrownValue v)
  = match Json.stringify v with
    | Json.Text t => Some t
    | Json.NoValue => None
    | Json.Throws => Some "Unknown error"
    end.
Proof. intros Hv. destruct v; try reflexivity. exfalso. exact (Hv s eq_refl). Qed.

(** [handleApiError] has no display string, so that its [includes] test
    throws out of the handler, exactly when the thrown value is neither a
    string nor an [Error] and [JSON.stringify] answers [undefined] for it,
    as it does for [undefined] and for a function.  Where [JSON.stringify]
    throws, the display string is "Unknown error", which is no permission
    error.  The display string of an [Error] starts with its message, and
    that of a thrown string is the string. *)
Theorem display_string (error : Thrown) :
  (App.isPermissionError error = None
   <-> exists v, error = ThrownValue v /\ Json.stringify v = Json.NoValue) /\
  App.isPermissionError (ThrownValue Json.Undefined) = None /\
  App.isPermissionError (ThrownValue Json.Function) = None /\
  (forall v,
      error = ThrownValue v -> Json.stringify v = Json.Throws ->
      App.errorMessage error = Some "Unknown error" /\
      App.isPermissionError error = Some false) /\
  (forall message response,
      error = ThrownError message response ->
      exists s, App.errorMessage error = Some s /\ Js.startsWith message s = true) /\
  (forall s, error = ThrownValue (Json.Str s) -> App.errorMessage error = Some s).
Proof.
  assert (Hstr : forall v c, Json.stringify v = c -> (forall t, c <> Json.Text t) ->
                             forall s, v <> Json.Str s).
  { intros v c Hv Hc s ->. exact (Hc _ (eq_sym Hv)). }
  split; [| split; [reflexivity | split; [reflexivity | split; [| split]]]].
  - unfold App.isPermissionError. split.
    + destruct (App.errorMessage error) as [s |] eqn:E; [discriminate |]. intros _.
      destruct error as [message response | v].
      * cbn [App.errorMessage] in E.
        destruct (Json.truthy response); [destruct (Json.stringify response) |];
          discriminate E.
      * exists v. split; [reflexivity |].
        destruct (Json.stringify v) as [t | |] eqn:Hv; [| reflexivity |].
        -- destruct v; try discriminate E;
             unfold App.errorMessage in E; rewrite Hv in E; discriminate E.
        -- rewrite errorMessage_value_other in E.
           ++ rewrite Hv in E. discriminate E.
           ++ apply (Hstr v _ Hv). discriminate.
    + intros (v & -> & Hv). rewrite errorMessage_value_other.
      * rewrite Hv. reflexivity.
      * apply (Hstr v _ Hv). discriminate.
  - intros v -> Hv. unfold App.isPermissionError. rewrite errorMessage_value_other.
    + rewrite Hv. split; reflexivity.
    + apply (Hstr v _ Hv). discriminate.
  - intros message response ->. cbn [App.errorMessage].
    destruct (Json.truthy response); [destruct (Json.stringify response) |];
      eexists; (split; [reflexivity |]);
      try apply startsWith_append.
    all: rewrite <- (append_empty_r message) at 2; apply startsWith_append.
  - intros s ->. reflexivity.
Qed.

(** ** The key screen *)

Lemma keyed_same (w w' : App.World) :
  App.hasKey (App.state w') = App.hasKey (App.state w) ->
  App.permissionErrorRef (App.state w') = App.permissionErrorRef (App.state w) ->
  App.log w' = App.log w ->
  Reach.Keyed w -> Reach.Keyed w'.
Proof. unfold Reach.Keyed. intros -> -> ->. tauto. Qed.

Lemma keyed_more (l : list App.Effect) (w w' : App.World) :
  App.hasKey (App.state w') = App.hasKey (App.state w) ->
  App.permissionErrorRef (App.state w') = App.permissionErrorRef (App.state w) ->
  App.log w' = App.log w ++ l ->
  Reach.Keyed w -> Reach.Keyed w'.
Proof.
  unfold Reach.Keyed. intros -> -> ->. intros [H | [H1 H2]]; [left; exact H | right].
  split; [exact H1 |]. apply in_or_app. left. exact H2.
Qed.

Lemma keyed_main (w w' : App.World) :
  App.hasKey (App.state w) = true ->
  App.hasKey (App.state w') = App.hasKey (App.state w) ->
  Reach.Keyed w'.
Proof. intros H E. left. congruence. Qed.

Lemma keyed_afterHandler (r : App.Resume) (w : App.World) :
  Reach.Keyed w -> Reach.Keyed (App.afterHandler r w).
Proof.
  intros H. destruct r as [| batch p | p |]; cbn [App.afterHandler].
  - destruct (negb _).
    + apply (keyed_more [App.Alert App.TextFailedAlert] w); [reflexivity .. | exact H].
    + apply (keyed_same w); [reflexivity .. | exact H].
  - eapply (keyed_more _ w); [reflexivity .. | exact H].
  - eapply (keyed_more _ w); [reflexivity .. | exact H].
  - exact H.
Qed.

Lemma keyed_handlerThrew (r : App.Resume) (w : App.World) :
  Reach.Keyed w -> Reach.Keyed (App.handlerThrew r w).
Proof. intros H. destruct r; exact H. Qed.

Lemma keyed_handleApiError (error : Thrown) (r : App.Resume) (w : App.World) :
  Reach.Keyed w -> Reach.Keyed (App.handleApiError error r w).
Proof.
  intros H. unfold App.handleApiError.
  destruct (App.isPermissionError error) as [[|] |].
  - destruct (negb (App.permissionErrorRef (App.state w))).
    + cbv zeta.
      assert (H1 : Reach.Keyed
                     (App.emit (App.Alert App.PermissionAlert)
                        (App.setHasKey false (App.setPermissionErrorRef true w)))).
      { right. split; [reflexivity |]. cbn [App.log App.emit]. apply in_or_app.
        right. left. reflexivity. }
      revert H1.
      generalize (App.emit (App.Alert App.PermissionAlert)
                    (App.setHasKey false (App.setPermissionErrorRef true w))).
      intros w1 H1. destruct (App.aistudio w1).
      * eapply (keyed_more _ w1); [reflexivity .. | exact H1].
      * apply keyed_afterHandler. exact H1.
    + apply keyed_afterHandler. exact H.
  - apply keyed_afterHandler. exact H.
  - apply keyed_handlerThrew. exact H.
Qed.

Lemma keyed_taskFailed (batch : nat) (p : PlatformValue) (error : Thrown) (w : App.World) :
  Reach.Keyed w -> Reach.Keyed (App.taskFailed batch p error w).
Proof.
  intros H. unfold App.taskFailed. destruct (negb _).
  - apply keyed_handleApiError. exact H.
  - apply keyed_afterHandler. exact H.
Qed.

Lemma keyed_startTask (batch : nat) (config : ImageConfig) (cur : GenerationResult)
    (w : App.World) (p : PlatformValue) :
  Reach.Keyed w -> Reach.Keyed (App.startTask batch config cur w p).
Proof.
  intros H. unfold App.startTask. destruct (App.permissionErrorRef (App.state w)).
  - apply (keyed_afterHandler (App.ResumeTask batch p)). exact H.
  - destruct (cur !! ToPropertyKey p).
    + eapply (keyed_more _ w); [reflexivity .. | exact H].
    + apply keyed_taskFailed. exact H.
Qed.

Lemma keyed_tasks (batch : nat) (config : ImageConfig) (cur : GenerationResult)
    (ps : list PlatformValue) :
  forall w, Reach.Keyed w -> Reach.Keyed (fold_left (App.startTask batch config cur) ps w).
Proof.
  induction ps as [|p ps IH]; intros w H; [exact H |].
  apply IH. apply keyed_startTask. exact H.
Qed.

Lemma keyed_setResults (f : option GenerationResult -> option GenerationResult)
    (w : App.World) :
  Reach.Keyed w -> Reach.Keyed (App.setResults f w).
Proof. intros H. eapply (keyed_more _ w); [reflexivity .. | exact H]. Qed.

Lemma keyed_generateAllImages (config : ImageConfig) (cur : GenerationResult)
    (w : App.World) :
  Reach.Keyed w -> Reach.Keyed (App.generateAllImages config cur w).
Proof.
  intros H. unfold App.generateAllImages. cbv zeta. apply keyed_tasks.
  apply (keyed_same (App.setLoadingIndicators w)); [reflexivity .. |].
  unfold App.setLoadingIndicators. destruct (App.results (App.state w)) as [prev |].
  - destruct (App.loadingIndicators prev); [apply keyed_setResults |]; exact H.
  - apply keyed_setResults. exact H.
Qed.

Lemma keyed_setIsGeneratingText (b : bool) (w : App.World) :
  Reach.Keyed w -> Reach.Keyed (App.setIsGeneratingText b w).
Proof. intros H. exact H. Qed.

Lemma keyed_onTextResolved (config : ImageConfig) (content : App.Content) (w : App.World) :
  Reach.Keyed w -> Reach.Keyed (App.onTextResolved config content w).
Proof.
  intros H. unfold App.onTextResolved. cbv zeta.
  apply keyed_setIsGeneratingText. apply keyed_generateAllImages.
  apply keyed_setResults. exact H.
Qed.

Lemma keyed_handleGenerate (w : App.World) :
  App.hasKey (App.state w) = true -> Reach.Keyed (App.handleGenerate w).
Proof.
  intros H. unfold App.handleGenerate. destruct (negb _); [left; exact H |].
  left. exact H.
Qed.

Lemma keyed_handleRegenerateImage (p : PlatformValue) (w : App.World) :
  App.hasKey (App.state w) = true -> Reach.Keyed (App.handleRegenerateImage p w).
Proof.
  intros H. unfold App.handleRegenerateImage.
  destruct (App.results (App.state w)) as [prev |]; [| left; exact H]. cbv zeta.
  destruct (prev !! ToPropertyKey p); [left; exact H |].
  apply keyed_handleApiError. left. exact H.
Qed.

Lemma keyed_settle (id : nat) (answer : App.Response + Thrown) (w : App.World) :
  Reach.Keyed w -> Reach.Keyed (App.settle id answer w).
Proof.
  intros H. unfold App.settle.
  assert (H0 : Reach.Keyed (App.removePending id w)) by exact H.
  destruct (App.pending w !! id) as [[config | batch p | p | r] |];
    destruct answer as [[content | url |] | error]; try exact H.
  - apply keyed_onTextResolved. exact H0.
  - apply keyed_handleApiError. exact H0.
  - eapply (keyed_more _ (App.removePending id w)); [reflexivity .. | exact H0].
  - apply keyed_taskFailed. exact H0.
  - apply keyed_setResults. exact H0.
  - apply keyed_handleApiError. exact H0.
  - unfold App.onKeySelected. apply keyed_afterHandler. left. reflexivity.
  - apply (keyed_afterHandler r). exact H0.
Qed.

Lemma keyed_step (w : App.World) (e : App.Event) :
  Reach.Keyed w -> Reach.Keyed (App.step w e).
Proof.
  intros H. destruct e; cbn [App.step].
  - destruct (App.hasKey _); exact H.
  - destruct (App.hasKey _); exact H.
  - destruct (App.hasKey _); exact H.
  - destruct (App.hasKey _); exact H.
  - destruct (App.hasKey (App.state w)) eqn:Hk; [| exact H].
    destruct (_ && _); [apply keyed_handleGenerate; exact Hk | exact H].
  - destruct (App.hasKey (App.state w)) eqn:Hk; [| exact H].
    destruct (_ && _); [apply keyed_handleRegenerateImage; exact Hk | exact H].
  - destruct (App.hasKey _); [exact H |]. unfold App.handleSelectKey.
    destruct (App.aistudio w); [| exact H].
    eapply (keyed_more _ w); [reflexivity .. | exact H].
  - apply keyed_settle. exact H.
  - apply keyed_settle. exact H.
Qed.

Lemma keyed_run (events : list App.Event) :
  forall w, Reach.Keyed w -> Reach.Keyed (App.run w events).
Proof.
  induction events as [|e events IH]; intros w H; [exact H |].
  apply IH. apply keyed_step. exact H.
Qed.

Lemma alerts_In (t : App.AlertText) (l : list App.Effect) :
  In (App.Alert t) l -> In t (App.alerts l).
Proof.
  induction l as [|e l IH]; intros H; [destruct H |].
  change (e :: l) with ([e] ++ l). rewrite alerts_app. apply in_or_app.
  destruct H as [-> | H]; [left; left; reflexivity | right; apply IH; exact H].
Qed.

(** For a component that was mounted with a key: whenever the key screen
    is shown instead of the main screen, the permission flag is set and the
    permission alert has been shown. *)
Theorem key_screen_follows_the_alert (withAistudio : bool) (events : list App.Event) :
  let w := App.run (Reach.mounted withAistudio true) events in
  App.hasKey (App.state w) = false ->
  App.permissionErrorRef (App.state w) = true /\
  In App.PermissionAlert (App.alerts (App.log w)).
Proof.
  cbv zeta. intros Hk.
  destruct (keyed_run events (Reach.mounted withAistudio true)) as [H | [Hf Ha]].
  - left. reflexivity.
  - congruence.
  - split; [exact Hf |]. apply alerts_In. exact Ha.
Qed.

(** The text request fails with the 403 where there is no key selector:
    the key screen is shown, the flag is set, the alert has been shown. *)
Lemma key_screen_follows_the_alert_witness :
  let w := App.run (Reach.mounted false true)
             [ App.TypeIdea coffee; App.ClickGenerate; App.Reject 0 error403 ] in
  App.hasKey (App.state w) = false /\
  App.permissionErrorRef (App.state w) = true /\
  In App.PermissionAlert (App.alerts (App.log w)).
Proof.
  cbv zeta.
  assert (Hk : App.hasKey (App.state
                 (App.run (Reach.mounted false true)
                    [ App.TypeIdea coffee; App.ClickGenerate; App.Reject 0 error403 ]))
               = false) by (vm_compute; reflexivity).
  split; [exact Hk |].
  exact (key_screen_follows_the_alert false
           [ App.TypeIdea coffee; App.ClickGenerate; App.Reject 0 error403 ] Hk).
Defined.

(** ** The settings of a generation are those of the click *)

Lemma settings_frame (picks : list App.Event) :
  forall w,
    forallb Reach.setting picks = true ->
    let w' := App.run w picks in
    App.pending w' = App.pending w /\
    App.nextId w' = App.nextId w /\
    App.cycle w' = App.cycle w /\
    App.log w' = App.log w /\
    App.permissionErrorRef (App.state w') = App.permissionErrorRef (App.state w).
Proof.
  induction picks as [|e picks IH]; intros w H; [cbv zeta; auto |].
  cbn [forallb] in H. apply andb_prop in H as [He H].
  specialize (IH (App.step w e) H). cbv zeta in *.
  change (App.run w (e :: picks)) with (App.run (App.step w e) picks).
  destruct IH as (Hp & Hn & Hc & Hl & Hf). rewrite Hp, Hn, Hc, Hl, Hf.
  destruct e; try discriminate He; cbn [App.step]; destruct (App.hasKey _); auto.
Qed.

Lemma installing_calls (f g : option GenerationResult -> option GenerationResult)
    (batch : nat) (w : App.World) :
  let w' := App.newPromises batch (App.setResults f (App.setResults g w)) in
  App.imageCalls (App.log w') = App.imageCalls (App.log w) /\
  App.textCalls (App.log w') = App.textCalls (App.log w) /\
  App.nextId w' = App.nextId w.
Proof. cbv zeta. observe. auto. Qed.

Lemma calls_of_batch (batch : nat) (config : ImageConfig) (content : App.Content)
    (base : App.World) :
  let request q :=
    Service.imageRequest (Some (App.draft_imagePrompt (Spec.draft content q)))
      (Spec.value q) config in
  let w' := fold_left (fun w' q =>
                         App.callImage (App.AwaitImage batch (Spec.value q))
                           (Some (App.draft_imagePrompt (Spec.draft content q)))
                           (Spec.value q) config w')
              [Spec.LinkedIn; Spec.Twitter; Spec.Instagram; Spec.Facebook] base in
  App.imageCalls (App.log w')
  = App.imageCalls (App.log base)
    ++ map (fun q => (App.nextId base + Spec.index q, Spec.value q, request q))
         [Spec.LinkedIn; Spec.Twitter; Spec.Instagram; Spec.Facebook] /\
  App.textCalls (App.log w') = App.textCalls (App.log base).
Proof.
  cbv zeta. cbn [fold_left map Spec.index]. observe.
  rewrite <- !app_assoc. cbn [app].
  rewrite Nat.add_0_r, !Nat.add_succ_r, Nat.add_0_r. auto.
Qed.

(** A click on the generate button calls the text service once, with the
    idea and the tone as they are at the click; and when the text arrives,
    the four image requests carry the size and the aspect-ratio setting of
    the click, whatever has been typed or picked in between. *)
Theorem settings_of_the_click (w : App.World) (picks : list App.Event)
    (content : App.Content) :
  App.hasKey (App.state w) = true ->
  App.isGeneratingText (App.state w) = false ->
  Js.truthy (Js.trim (App.idea (App.state w))) = true ->
  forallb Reach.setting picks = true ->
  let n := App.nextId w in
  let w' := App.run w (App.ClickGenerate :: picks
                         ++ [App.Resolve n (App.TextResponse content)]) in
  App.textCalls (App.log w')
  = App.textCalls (App.log w) ++ [(n, App.idea (App.state w), App.tone (App.state w))] /\
  App.imageCalls (App.log w')
  = App.imageCalls (App.log w)
    ++ map (fun q => (S n + Spec.index q, Spec.value q,
                      Service.imageRequest
                        (Some (App.draft_imagePrompt (Spec.draft content q)))
                        (Spec.value q) (App.currentConfig w)))
         [Spec.LinkedIn; Spec.Twitter; Spec.Instagram; Spec.Facebook].
Proof.
  intros Hk Hg Hi Hpicks. cbv zeta.
  change (App.run w (App.ClickGenerate :: picks
                       ++ [App.Resolve (App.nextId w) (App.TextResponse content)]))
    with (fold_left App.step
            (picks ++ [App.Resolve (App.nextId w) (App.TextResponse content)])
            (App.step w App.ClickGenerate)).
  rewrite fold_left_app. cbn [fold_left].
  change (fold_left App.step picks (App.step w App.ClickGenerate))
    with (App.run (App.step w App.ClickGenerate) picks).
  assert (Hclick :
    let w1 := App.step w App.ClickGenerate in
    App.pending w1 !! App.nextId w = Some (App.AwaitText (App.currentConfig w)) /\
    App.nextId w1 = S (App.nextId w) /\
    App.permissionErrorRef (App.state w1) = false /\
    App.textCalls (App.log w1)
    = App.textCalls (App.log w)
      ++ [(App.nextId w, App.idea (App.state w), App.tone (App.state w))] /\
    App.imageCalls (App.log w1) = App.imageCalls (App.log w)).
  { cbv zeta. cbn [App.step]. rewrite Hk, Hg, Hi. cbn [andb negb].
    unfold App.handleGenerate. rewrite Hi. cbn [negb]. cbv zeta.
    split; [apply lookup_insert_eq |]. observe. auto. }
  cbv zeta in Hclick. revert Hclick.
  generalize (App.step w App.ClickGenerate). intros w1 (Hp1 & Hn1 & Hf1 & Ht1 & Hc1).
  destruct (settings_frame picks w1 Hpicks) as (Hp2 & Hn2 & _ & Hl2 & Hf2).
  cbv zeta in *. revert Hp2 Hn2 Hl2 Hf2.
  generalize (App.run w1 picks). intros w2 Hp2 Hn2 Hl2 Hf2.
  cbn [App.step]. unfold App.settle. rewrite Hp2, Hp1.
  assert (Hf0 : App.permissionErrorRef (App.state (App.removePending (App.nextId w) w2))
                = false) by (cbn [App.removePending App.state]; congruence).
  rewrite (onTextResolved_clear _ _ _ Hf0).
  assert (Hn0 : App.nextId (App.removePending (App.nextId w) w2) = S (App.nextId w))
    by (cbn [App.removePending App.nextId]; congruence).
  assert (Hl0 : App.log (App.removePending (App.nextId w) w2) = App.log w1)
    by (cbn [App.removePending App.log]; congruence).
  revert Hn0 Hl0. generalize (App.removePending (App.nextId w) w2). intros w0 Hn0 Hl0.
  match goal with
  | |- context [App.newPromises ?b (App.setResults ?f (App.setResults ?g w0))] =>
      pose proof (installing_calls f g b w0) as H1;
      pose proof (calls_of_batch (App.cycle w0) (App.currentConfig w) content
                    (App.newPromises b (App.setResults f (App.setResults g w0)))) as H2;
      revert H1 H2;
      generalize (App.newPromises b (App.setResults f (App.setResults g w0)))
  end.
  intros base H1 H2. cbv zeta in H1, H2.
  destruct H1 as (Hc & Ht & Hn). destruct H2 as (Hc' & Ht').
  revert Hc' Ht'.
  generalize (fold_left
                (fun w' q =>
                   App.callImage (App.AwaitImage (App.cycle w0) (Spec.value q))
                     (Some (App.draft_imagePrompt (Spec.draft content q)))
                     (Spec.value q) (App.currentConfig w) w')
                [Spec.LinkedIn; Spec.Twitter; Spec.Instagram; Spec.Facebook] base).
  intros final Hc' Ht'.
  change (App.log (App.setIsGeneratingText false final)) with (App.log final).
  rewrite Ht', Ht, Hc', Hc, Hn, Hn0, Hl0, Ht1, Hc1. auto.
Qed.

(** The size is changed to 4K while the text is awaited: the image requests
    are those of the size 1K that was set at the click. *)
Lemma settings_of_the_click_witness :
  let w := App.run (App.initial false) [ App.TypeIdea coffee ] in
  let w' := App.run w [ App.ClickGenerate; App.PickImageSize Size4K;
                        App.Resolve 0 (App.TextResponse (answer "first")) ] in
  App.imageSize (App.state w') = Size4K /\
  map (fun c => Service.req_imageSize (snd c)) (App.imageCalls (App.log w'))
  = [Size1K; Size1K; Size1K; Size1K].
Proof.
  cbv zeta. split; [vm_compute; reflexivity |].
  assert (Hk : App.hasKey (App.state (App.run (App.initial false) [ App.TypeIdea coffee ]))
               = true) by reflexivity.
  assert (Hg : App.isGeneratingText
                 (App.state (App.run (App.initial false) [ App.TypeIdea coffee ])) = false)
    by reflexivity.
  assert (Hi : Js.truthy (Js.trim (App.idea
                 (App.state (App.run (App.initial false) [ App.TypeIdea coffee ])))) = true)
    by (vm_compute; reflexivity).
  destruct (settings_of_the_click
              (App.run (App.initial false) [ App.TypeIdea coffee ])
              [ App.PickImageSize Size4K ] (answer "first") Hk Hg Hi eq_refl)
    as [_ Hcalls].
  change (App.nextId (App.run (App.initial false) [ App.TypeIdea coffee ])) with 0 in Hcalls.
  cbn [app] in Hcalls. rewrite Hcalls. reflexivity.
Defined.

(** ** Without a key *)

Lemma locked_step (w : App.World) (e : App.Event) :
  (forall id, e <> App.Resolve id App.KeyResponse) ->
  Reach.Locked w -> Reach.Locked (App.step w e).
Proof.
  intros He H. pose proof H as (Hk & Hr & Hp & Ht & Hi & Ha).
  destruct e; cbn [App.step]; rewrite ?Hk; cbn [andb]; try exact H.
  - unfold App.handleSelectKey. destruct (App.aistudio w); [| exact H].
    repeat split; try assumption.
    + intros id a. cbn [App.pending App.suspend App.emit].
      intros [[_ <-] | [_ H']]%lookup_insert_Some; [reflexivity | exact (Hp id a H')].
    + observe. exact Ht.
    + observe. exact Hi.
    + observe. exact Ha.
  - unfold App.settle. destruct (App.pending w !! id) as [a |] eqn:Hid; [| exact H].
    rewrite (Hp id a Hid).
    destruct response; try exact H. exfalso. exact (He id eq_refl).
  - unfold App.settle. destruct (App.pending w !! id) as [a |] eqn:Hid; [| exact H].
    rewrite (Hp id a Hid). unfold App.onKeyCancelled. cbn [App.afterHandler].
    repeat split; try assumption.
    intros id' a'. cbn [App.pending App.removePending].
    intros [_ H']%lookup_delete_Some. exact (Hp id' a' H').
Qed.

Lemma locked_run (events : list App.Event) :
  forall w,
    (forall id, ~ In (App.Resolve id App.KeyResponse) events) ->
    Reach.Locked w -> Reach.Locked (App.run w events).
Proof.
  induction events as [|e events IH]; intros w He H; [exact H |].
  apply IH.
  - intros id Hin. apply (He id). right. exact Hin.
  - apply locked_step; [| exact H]. intros id ->. apply (He id). left. reflexivity.
Qed.

Lemma keyless_step (e : App.Event) :
  App.step (Reach.mounted false false) e = Reach.mounted false false.
Proof.
  destruct e; try reflexivity; cbn [App.step]; unfold App.settle;
    cbn [Reach.mounted App.pending]; rewrite lookup_empty; reflexivity.
Qed.

(** A component mounted without a key shows the key screen.  Where
    [window.aistudio] does not exist, nothing the user does changes
    anything: there is no way past that screen.  Where it exists, the
    screen stays, and no service is called and nothing is alerted, until a
    key selection is answered. *)
Theorem stuck_on_the_key_screen (withAistudio : bool) (events : list App.Event) :
  let w := App.run (Reach.mounted withAistudio false) events in
  (withAistudio = false -> w = Reach.mounted false false) /\
  ((forall id, ~ In (App.Resolve id App.KeyResponse) events) ->
   App.hasKey (App.state w) = false /\
   App.results (App.state w) = None /\
   App.textCalls (App.log w) = [] /\
   App.imageCalls (App.log w) = [] /\
   App.alerts (App.log w) = []).
Proof.
  cbv zeta. split.
  - intros ->. induction events as [|e events IH]; [reflexivity |].
    change (App.run (Reach.mounted false false) (e :: events))
      with (App.run (App.step (Reach.mounted false false) e) events).
    rewrite keyless_step. exact IH.
  - intros He.
    destruct (locked_run events (Reach.mounted withAistudio false) He)
      as (Hk & Hr & _ & Ht & Hi & Ha); [| auto].
    repeat split. intros id a H. cbn [Reach.mounted App.pending] in H.
    rewrite lookup_empty in H. discriminate H.
Qed.

(** With [window.aistudio]: the selector is opened twice and cancelled
    once, and an idea is typed in vain; the key screen stays. *)
Lemma stuck_on_the_key_screen_witness :
  let w := App.run (Reach.mounted true false)
             [ App.ClickSelectKey; App.Reject 0 networkError; App.TypeIdea coffee;
               App.ClickGenerate; App.ClickSelectKey ] in
  App.hasKey (App.state w) = false /\ App.textCalls (App.log w) = [].
Proof.
  cbv zeta.
  destruct (stuck_on_the_key_screen true
              [ App.ClickSelectKey; App.Reject 0 networkError; App.TypeIdea coffee;
                App.ClickGenerate; App.ClickSelectKey ]) as [_ H].
  destruct H as (Hk & _ & Ht & _).
  - intros id [H | [H | [H | [H | [H | []]]]]]; discriminate H.
  - split; [exact Hk | exact Ht].
Defined.
